(** * Verification of the SGF parser (huangstc/sgf_parser)

    A shallow embedding of [sgf_parser/parser.cc]: the escape-aware scanner
    [FindFirst], the node consumer [ConsumeNode], the tree builder
    [ParseToCollection] and the property dispatcher [HandleProperty].  The
    repository holds a later copy of the same file, in which the scanner and
    the node consumer are unchanged and [HandleProperty] differs in three
    branches; that copy of [HandleProperty] is embedded as
    [Later.HandleProperty].

    Conventions of the embedding:
    - an [absl::string_view] is a [list ascii]; a [std::string] that only
      collects diagnostics is a [string];
    - a [string_view::size_type] is a [nat]; a result that may be
      [string_view::npos] is an [option nat], [None] standing for [npos];
    - a [T*] that may be [nullptr] is an [option];
    - the heap of [GameTree] objects is an arena indexed by [nat];
    - loops run on fuel and report [OutOfFuel] apart from every result of the
      program, and are proved never to run out. *)

From Stdlib Require Import List Ascii String Arith Bool ZArith Lia.
Import ListNotations.

Set Implicit Arguments.

(** ** Text primitives *)

Definition string_view := list ascii.

Definition sv (s : string) : string_view := list_ascii_of_string s.

Definition backslash : ascii := "\"%char.
Definition newline : ascii := "010"%char.

(** [absl::ascii_isspace]: space, and the control characters 9 to 13. *)
Definition ascii_isspace (c : ascii) : bool :=
  let n := nat_of_ascii c in
  (n =? 32) || ((9 <=? n) && (n <=? 13)).

(** [targets.find(cur) != string_view::npos] *)
Definition sv_contains (targets : string_view) (cur : ascii) : bool :=
  existsb (Ascii.eqb cur) targets.

(** [sgf.substr(start, len)], for [start <= sgf.size()]. *)
Definition substr (sgf : string_view) (start len : nat) : string_view :=
  firstn len (skipn start sgf).

(** [sgf[p]]; reading past the end has no value. *)
Definition char_at (sgf : string_view) (p : nat) : option ascii :=
  nth_error sgf p.

(** [sgf[p] == c] *)
Definition char_is (sgf : string_view) (p : nat) (c : ascii) : bool :=
  match char_at sgf p with
  | Some x => Ascii.eqb x c
  | None => false
  end.

Fixpoint StripLeadingAsciiWhitespace (s : string_view) : string_view :=
  match s with
  | c :: rest => if ascii_isspace c then StripLeadingAsciiWhitespace rest else s
  | [] => []
  end.

Definition StripTrailingAsciiWhitespace (s : string_view) : string_view :=
  rev (StripLeadingAsciiWhitespace (rev s)).

Definition SubstrAndStripWhitespace (sgf : string_view) (start len : nat)
  : string_view :=
  let s := substr sgf start len in
  let s := StripLeadingAsciiWhitespace s in
  StripTrailingAsciiWhitespace s.

Fixpoint sv_eqb (a b : string_view) : bool :=
  match a, b with
  | [], [] => true
  | x :: a', y :: b' => Ascii.eqb x y && sv_eqb a' b'
  | _, _ => false
  end.

(** ** Scanner

    [FindFirst] walks the buffer from [start].  [scan] is the body of its
    [for] loop over the characters that remain, [pos] being the loop variable
    [start] and [escaping] the local flag. *)

Fixpoint scan (targets : string_view) (expect_contents : bool)
         (rest : string_view) (pos : nat) (escaping : bool) : option nat :=
  match rest with
  | [] => None
  | cur :: rest' =>
      if escaping then scan targets expect_contents rest' (S pos) false
      else if Ascii.eqb cur backslash then
        scan targets expect_contents rest' (S pos) true
      else if sv_contains targets cur then Some pos
      else if negb expect_contents && negb (ascii_isspace cur) then None
      else scan targets expect_contents rest' (S pos) false
  end.

Definition FindFirst (sgf : string_view) (start : nat) (targets : string_view)
           (expect_contents : bool) : option nat :=
  scan targets expect_contents (skipn start sgf) start false.

(** [p + 1] on a [size_type]: [npos] is the largest value of the unsigned
    type, so [npos + 1] wraps around to [0]. *)
Definition size_type_succ (p : option nat) : nat :=
  match p with
  | Some n => S n
  | None => 0
  end.

(** ** Diagnostics: the [LOG_ERROR] macro on a nullable [string* errors]. *)

Definition LOG_ERROR (msg : string) (errors : option string) : option string :=
  match errors with
  | Some e => Some (e ++ msg ++ String newline EmptyString)%string
  | None => None
  end.

(** [HasSubstr]: gmock's matcher, as a proposition. *)
Definition HasSubstr (needle hay : string) : Prop :=
  exists pre suf, hay = (pre ++ needle ++ suf)%string.

(** Results of a loop run on fuel. *)
Inductive Outcome (A : Type) : Type :=
| Done (a : A)
| OutOfFuel.
Arguments OutOfFuel {A}.

(** One iteration of a loop either goes round again or leaves the function. *)
Inductive Iter (S R : Type) : Type :=
| Next (s : S)
| Return (r : R).
Arguments Next {S R} s.
Arguments Return {S R} r.

(** ** Data model ([sgf_parser/parser.h], namespace [internal]) *)

Record Property : Type := mkProperty {
  id : string_view;
  values : list string_view
}.

Definition GameNode := list Property.

(** A [GameTree*] is an index into the arena; [nullptr] is [None]. *)
Definition TreePtr := nat.

Record GameTree : Type := mkGameTree {
  parent : option TreePtr;
  sequence : list GameNode;
  children : list TreePtr
}.

Definition Heap := list GameTree.

(** [std::vector<std::unique_ptr<GameTree>>]: the owned trees, by address. *)
Definition TreeCollection := list TreePtr.

(** Overwrites the object at [ptr] with [f] of it; a dangling [ptr] writes
    nothing. *)
Fixpoint update (h : Heap) (ptr : TreePtr) (f : GameTree -> GameTree) : Heap :=
  match h, ptr with
  | [], _ => []
  | t :: h', 0 => f t :: h'
  | t :: h', S ptr' => t :: update h' ptr' f
  end.

(** [GameTree* NewChild(GameTree* current)]: the new tree is allocated at the
    end of the arena and appended to the children of [current]. *)
Definition NewChild (h : Heap) (current : TreePtr) : Heap * TreePtr :=
  let child := List.length h in
  (update h current
          (fun t => mkGameTree (parent t) (sequence t) (children t ++ [child]))
     ++ [mkGameTree (Some current) [] []],
   child).

(** [GameNode* NewNode(GameTree* current)]: the node is the last one of the
    sequence of [current]. *)
Definition NewNode (h : Heap) (current : TreePtr) : Heap :=
  update h current
         (fun t => mkGameTree (parent t) (sequence t ++ [[]]) (children t)).

(** Writing through the pointer returned by [NewNode]: replaces the last node
    of the sequence of [current]. *)
Definition store_back (h : Heap) (current : TreePtr) (node : GameNode) : Heap :=
  update h current
         (fun t => mkGameTree (parent t) (removelast (sequence t) ++ [node])
                              (children t)).

(** [current->parent] *)
Definition parent_of (h : Heap) (current : TreePtr) : option TreePtr :=
  match nth_error h current with
  | Some t => parent t
  | None => None
  end.

(** [Property* NewProperty(string_view property_id, GameNode* node)]: the
    pointer it returns is [&node->back()]. *)
Definition NewProperty (property_id : string_view) (node : GameNode) : GameNode :=
  node ++ [mkProperty property_id []].

(** [current_property->values.emplace_back(v)], [current_property] being
    [&node->back()]. *)
Definition push_value (node : GameNode) (v : string_view) : GameNode :=
  match rev node with
  | [] => []
  | p :: before => rev before ++ [mkProperty (id p) (values p ++ [v])]
  end.

(** ** Node consumer *)

Module Node.

Inductive State : Type := NODE_START | VALUE_START | NEXT_VALUE.

Record Loop : Type := mkLoop {
  state : State;
  cursor : nat;
  node : GameNode;
  errors : option string
}.

(** What [ConsumeNode] leaves behind: the value returned, the node written
    through [GameNode* node], and the diagnostics. *)
Definition Result : Type := (option nat * GameNode * option string)%type.

(** The body of the [do ... while (true)] loop. *)
Definition body (sgf : string_view) (l : Loop) : Iter Loop Result :=
  match state l with
  | NODE_START =>
      match FindFirst sgf (cursor l) (sv "[") true with
      | None =>
          Return (None, node l, LOG_ERROR "Reach the end of of node." (errors l))
      | Some p =>
          let id := SubstrAndStripWhitespace sgf (cursor l) (p - cursor l) in
          Next (mkLoop VALUE_START (p + 1) (NewProperty id (node l)) (errors l))
      end
  | VALUE_START =>
      match FindFirst sgf (cursor l) (sv "]") true with
      | None =>
          Return (None, node l,
                  LOG_ERROR "Missing the end of a property value." (errors l))
      | Some p =>
          Next (mkLoop NEXT_VALUE (p + 1)
                       (push_value (node l) (substr sgf (cursor l) (p - cursor l)))
                       (errors l))
      end
  | NEXT_VALUE =>
      match FindFirst sgf (cursor l) (sv "[;()") true with
      | None =>
          Return (None, node l, LOG_ERROR "Missing the end of a node." (errors l))
      | Some p =>
          let gap := SubstrAndStripWhitespace sgf (cursor l) (p - cursor l) in
          if char_is sgf p "[" then
            let node' := match gap with
                         | [] => node l
                         | _ :: _ => NewProperty gap (node l)
                         end in
            Next (mkLoop VALUE_START (p + 1) node' (errors l))
          else
            match gap with
            | _ :: _ =>
                Return (None, node l,
                        LOG_ERROR "Non-empty contents after the end of a value."
                                  (errors l))
            | [] => Return (Some p, node l, errors l)
            end
      end
  end.

Fixpoint loop (fuel : nat) (sgf : string_view) (l : Loop) : Outcome Result :=
  match fuel with
  | 0 => OutOfFuel
  | S fuel' =>
      match body sgf l with
      | Return r => Done r
      | Next l' => loop fuel' sgf l'
      end
  end.

End Node.

Definition ConsumeNode (sgf : string_view) (start : nat) (node : GameNode)
           (errors : option string) : Outcome Node.Result :=
  Node.loop (S (List.length sgf)) sgf (Node.mkLoop Node.NODE_START start node errors).

(** ** Tree builder *)

Module Tree.

Inductive State : Type := START | TREE_START | NODE_START | NEXT_TREE | END.

Definition is_END (s : State) : bool :=
  match s with
  | END => true
  | _ => false
  end.

Record Loop : Type := mkLoop {
  state : State;
  cursor : nat;
  current_tree : TreePtr;
  heap : Heap;
  errors : option string
}.

(** What [ParseToCollection] leaves behind.  [Parsed]: it returned [true] and
    [*tree_collection] holds the given trees of the given arena.  [Failed]: it
    returned [false] and [*tree_collection] was not written. *)
Inductive Result : Type :=
| Parsed (tree_collection : TreeCollection) (trees : Heap)
         (errors : option string)
| Failed (errors : option string).

(** [&root]: the virtual root is the first object of the arena. *)
Definition root : TreePtr := 0.

(** [current_tree = current_tree->parent; RETURN_IF(current_tree == nullptr,
    ...); state = NEXT_TREE; ...; cursor = p + 1;] *)
Definition go_up (l : Loop) (h : Heap) (errs : option string) (p : nat)
  : Iter Loop Result :=
  match parent_of h (current_tree l) with
  | None => Return (Failed (LOG_ERROR "Trying to going up in the root tree." errs))
  | Some up => Next (mkLoop NEXT_TREE (p + 1) up h errs)
  end.

(** [current_tree = NewChild(current_tree); state = TREE_START; ...;
    cursor = p + 1;] *)
Definition go_down (l : Loop) (h : Heap) (errs : option string) (p : nat)
  : Iter Loop Result :=
  let (h', child) := NewChild h (current_tree l) in
  Next (mkLoop TREE_START (p + 1) child h' errs).

(** The body of the [do ... while (state != END)] loop. *)
Definition body (sgf : string_view) (l : Loop) : Outcome (Iter Loop Result) :=
  match state l with
  | START =>
      match FindFirst sgf (cursor l) (sv "(") false with
      | None =>
          Done (Return (Failed (LOG_ERROR "Failed in finding a tree start."
                                          (errors l))))
      | Some p => Done (go_down l (heap l) (errors l) p)
      end
  | TREE_START =>
      match FindFirst sgf (cursor l) (sv ";") false with
      | None =>
          Done (Return (Failed (LOG_ERROR "Failed in finding a node start."
                                          (errors l))))
      | Some p =>
          Done (Next (mkLoop NODE_START (p + 1) (current_tree l) (heap l)
                             (errors l)))
      end
  | NODE_START =>
      let h := NewNode (heap l) (current_tree l) in
      match ConsumeNode sgf (cursor l) [] (errors l) with
      | OutOfFuel => OutOfFuel
      | Done (r, node, errs) =>
          let h := store_back h (current_tree l) node in
          match r with
          | None =>
              Done (Return (Failed (LOG_ERROR "Error in parsing a node." errs)))
          | Some p =>
              if char_is sgf p ";" then
                Done (Next (mkLoop NODE_START (p + 1) (current_tree l) h errs))
              else if char_is sgf p ")" then Done (go_up l h errs p)
              else if char_is sgf p "(" then Done (go_down l h errs p)
              else
                Done (Next (mkLoop NODE_START (p + 1) (current_tree l) h errs))
          end
      end
  | NEXT_TREE =>
      match FindFirst sgf (cursor l) (sv "()") false with
      | None =>
          Done (Next (mkLoop END (size_type_succ None) (current_tree l) (heap l)
                             (errors l)))
      | Some p =>
          if char_is sgf p "(" then Done (go_down l (heap l) (errors l) p)
          else if char_is sgf p ")" then Done (go_up l (heap l) (errors l) p)
          else
            Done (Next (mkLoop NEXT_TREE (p + 1) (current_tree l) (heap l)
                               (errors l)))
      end
  | END => Done (Next l)
  end.

(** After the loop: [RETURN_IF(current_tree != &root, ...)], then the swap of
    [root.children] into [*tree_collection]. *)
Definition finish (l : Loop) : Result :=
  if negb (current_tree l =? root) then
    Failed (LOG_ERROR "Parser ends with a bad state." (errors l))
  else
    Parsed (match nth_error (heap l) root with
            | Some t => children t
            | None => []
            end)
           (heap l) (errors l).

Fixpoint loop (fuel : nat) (sgf : string_view) (l : Loop) : Outcome Result :=
  match fuel with
  | 0 => OutOfFuel
  | S fuel' =>
      match body sgf l with
      | OutOfFuel => OutOfFuel
      | Done (Return r) => Done r
      | Done (Next l') =>
          if is_END (state l') then Done (finish l') else loop fuel' sgf l'
      end
  end.

(** [GameTree root(nullptr); current_tree = &root; state = START; cursor = 0] *)
Definition init (errors : option string) : Loop :=
  mkLoop START 0 root [mkGameTree None [] []] errors.

End Tree.

Definition ParseToCollection (sgf : string_view) (errors : option string)
  : Outcome Tree.Result :=
  Tree.loop (S (List.length sgf)) sgf (Tree.init errors).

Definition kSimple : string_view :=
  sv "(;FF[4]SZ[19]AB[bd][be][af]AW[aa][ab]AB[cc];B[ce];W[gg];B[cf])".

(** [kInput] of the test [SgfParserIntenalTest.Simple], with its blanks and
    line breaks. *)
Definition kInput : string_view :=
  sv "(;FF[4] SZ[19]AB[bd] [be]" ++ [newline] ++ sv "[af]" ++ [newline; newline]
  ++ sv "AW [aa] [ab] AB" ++ [newline] ++ sv "[cc];B[ce];W[gg]" ++ [newline]
  ++ sv ";B[cf])".

(** ** Record extractor *)

Definition AsciiToUpper (c : ascii) : ascii :=
  let n := nat_of_ascii c in
  if (97 <=? n) && (n <=? 122) then ascii_of_nat (n - 32) else c.

Definition AsciiToLower (c : ascii) : ascii :=
  let n := nat_of_ascii c in
  if (65 <=? n) && (n <=? 90) then ascii_of_nat (n + 32) else c.

Definition AsciiStrToUpper (s : string_view) : string_view := map AsciiToUpper s.
Definition AsciiStrToLower (s : string_view) : string_view := map AsciiToLower s.

(** [absl::StrJoin(values, sep)] *)
Fixpoint StrJoin (values : list string_view) (sep : string_view) : string_view :=
  match values with
  | [] => []
  | [v] => v
  | v :: rest => v ++ sep ++ StrJoin rest sep
  end.

(** A [char] promoted to [int]; plain [char] is signed on the x86-64 ABI. *)
Definition char_to_int (c : ascii) : Z :=
  let n := Z.of_nat (nat_of_ascii c) in
  if (n <? 128)%Z then n else (n - 256)%Z.

(** Conversion of an [int] to [GoCoord], an [int16_t]. *)
Definition to_int16 (z : Z) : Z := ((z + 32768) mod 65536 - 32768)%Z.

Definition GoCoord := Z.
Definition GoPos : Type := (GoCoord * GoCoord)%type.

Inductive Color : Type := BLACK | WHITE.

Record GoMove : Type := mkGoMove {
  player : Color;
  pass : bool;
  move : GoPos
}.

(** [lower[0] - 'a'] and [lower[1] - 'a'] for a two-letter value. *)
Definition decode_pos (c0 c1 : ascii) : GoPos :=
  (to_int16 (char_to_int c0 - 97), to_int16 (char_to_int c1 - 97)).

Section Extractor.

(** The numeric side of the program is taken as given: the type [float], the
    two abseil parsers, the negation of a [float] and the [float] values of
    the literals of the source ([1.2], [-1.2] and, in the later copy of the
    function, [6.5f]).  [SimpleAtof] gives the value returned and the
    [float] it leaves in [*out] (it assigns [*out] on entry). *)
Variable float : Type.
Variable SimpleAtoi : string_view -> option Z.
Variable SimpleAtof : string_view -> bool * float.
Variable float_neg : float -> float.
Variable float_0 : float.
Variable float_1_2 : float.
Variable float_minus_1_2 : float.

Record GameRecord : Type := mkGameRecord {
  board_width : GoCoord;
  board_height : GoCoord;
  komi : float;
  handicap : Z;
  timelimit : Z;
  black_stones : list GoPos;
  white_stones : list GoPos;
  moves : list GoMove;
  result : float;
  resigned : bool;
  black_name : string_view;
  black_rank : string_view;
  white_name : string_view;
  white_rank : string_view;
  date : string_view;
  rule : string_view
}.

(** [GameRecord::GameRecord()] *)
Definition GameRecord_new : GameRecord :=
  mkGameRecord 0%Z 0%Z float_0 0%Z (-1)%Z [] [] [] float_0 false [] [] [] [] [] [].

Definition set_board_size (r : GameRecord) (w h : GoCoord) : GameRecord :=
  mkGameRecord w h (komi r) (handicap r) (timelimit r) (black_stones r)
    (white_stones r) (moves r) (result r) (resigned r) (black_name r)
    (black_rank r) (white_name r) (white_rank r) (date r) (rule r).

Definition set_komi (r : GameRecord) (v : float) : GameRecord :=
  mkGameRecord (board_width r) (board_height r) v (handicap r) (timelimit r)
    (black_stones r) (white_stones r) (moves r) (result r) (resigned r)
    (black_name r) (black_rank r) (white_name r) (white_rank r) (date r) (rule r).

Definition set_handicap (r : GameRecord) (v : Z) : GameRecord :=
  mkGameRecord (board_width r) (board_height r) (komi r) v (timelimit r)
    (black_stones r) (white_stones r) (moves r) (result r) (resigned r)
    (black_name r) (black_rank r) (white_name r) (white_rank r) (date r) (rule r).

Definition set_timelimit (r : GameRecord) (v : Z) : GameRecord :=
  mkGameRecord (board_width r) (board_height r) (komi r) (handicap r) v
    (black_stones r) (white_stones r) (moves r) (result r) (resigned r)
    (black_name r) (black_rank r) (white_name r) (white_rank r) (date r) (rule r).

Definition set_black_stones (r : GameRecord) (v : list GoPos) : GameRecord :=
  mkGameRecord (board_width r) (board_height r) (komi r) (handicap r)
    (timelimit r) v (white_stones r) (moves r) (result r) (resigned r)
    (black_name r) (black_rank r) (white_name r) (white_rank r) (date r) (rule r).

Definition set_white_stones (r : GameRecord) (v : list GoPos) : GameRecord :=
  mkGameRecord (board_width r) (board_height r) (komi r) (handicap r)
    (timelimit r) (black_stones r) v (moves r) (result r) (resigned r)
    (black_name r) (black_rank r) (white_name r) (white_rank r) (date r) (rule r).

Definition set_moves (r : GameRecord) (v : list GoMove) : GameRecord :=
  mkGameRecord (board_width r) (board_height r) (komi r) (handicap r)
    (timelimit r) (black_stones r) (white_stones r) v (result r) (resigned r)
    (black_name r) (black_rank r) (white_name r) (white_rank r) (date r) (rule r).

Definition set_result (r : GameRecord) (v : float) : GameRecord :=
  mkGameRecord (board_width r) (board_height r) (komi r) (handicap r)
    (timelimit r) (black_stones r) (white_stones r) (moves r) v (resigned r)
    (black_name r) (black_rank r) (white_name r) (white_rank r) (date r) (rule r).

Definition set_resigned (r : GameRecord) (v : bool) : GameRecord :=
  mkGameRecord (board_width r) (board_height r) (komi r) (handicap r)
    (timelimit r) (black_stones r) (white_stones r) (moves r) (result r) v
    (black_name r) (black_rank r) (white_name r) (white_rank r) (date r) (rule r).

Definition set_black_name (r : GameRecord) (v : string_view) : GameRecord :=
  mkGameRecord (board_width r) (board_height r) (komi r) (handicap r)
    (timelimit r) (black_stones r) (white_stones r) (moves r) (result r)
    (resigned r) v (black_rank r) (white_name r) (white_rank r) (date r) (rule r).

Definition set_black_rank (r : GameRecord) (v : string_view) : GameRecord :=
  mkGameRecord (board_width r) (board_height r) (komi r) (handicap r)
    (timelimit r) (black_stones r) (white_stones r) (moves r) (result r)
    (resigned r) (black_name r) v (white_name r) (white_rank r) (date r) (rule r).

Definition set_white_name (r : GameRecord) (v : string_view) : GameRecord :=
  mkGameRecord (board_width r) (board_height r) (komi r) (handicap r)
    (timelimit r) (black_stones r) (white_stones r) (moves r) (result r)
    (resigned r) (black_name r) (black_rank r) v (white_rank r) (date r) (rule r).

Definition set_white_rank (r : GameRecord) (v : string_view) : GameRecord :=
  mkGameRecord (board_width r) (board_height r) (komi r) (handicap r)
    (timelimit r) (black_stones r) (white_stones r) (moves r) (result r)
    (resigned r) (black_name r) (black_rank r) (white_name r) v (date r) (rule r).

Definition set_date (r : GameRecord) (v : string_view) : GameRecord :=
  mkGameRecord (board_width r) (board_height r) (komi r) (handicap r)
    (timelimit r) (black_stones r) (white_stones r) (moves r) (result r)
    (resigned r) (black_name r) (black_rank r) (white_name r) (white_rank r) v
    (rule r).

Definition set_rule (r : GameRecord) (v : string_view) : GameRecord :=
  mkGameRecord (board_width r) (board_height r) (komi r) (handicap r)
    (timelimit r) (black_stones r) (white_stones r) (moves r) (result r)
    (resigned r) (black_name r) (black_rank r) (white_name r) (white_rank r)
    (date r) v.

(** [std::vector<std::pair<string, string>>* unparsed], nullable. *)
Definition Unparsed : Type := option (list (string_view * string_view)).

(** What [HandleProperty] leaves behind: the value returned, [*record],
    [*unparsed] and [*errors]. *)
Definition Handled : Type :=
  (bool * GameRecord * Unparsed * option string)%type.

(** The [for] loop of the AB/AW branch over [values], [stones] being the
    vector appended to; the first bad value leaves the function. *)
Fixpoint add_stones (vals : list string_view) (stones : list GoPos)
  : bool * list GoPos :=
  match vals with
  | [] => (true, stones)
  | value :: rest =>
      match AsciiStrToLower value with
      | [c0; c1] => add_stones rest (stones ++ [decode_pos c0 c1])
      | _ => (false, stones)
      end
  end.

(** The [for] loop of the B/W branch; on a bad value it gives the value back
    for the diagnostic. *)
Fixpoint add_moves (color : Color) (vals : list string_view)
         (mvs : list GoMove) : option string_view * list GoMove :=
  match vals with
  | [] => (None, mvs)
  | value :: rest =>
      match AsciiStrToLower value with
      | [] =>
          add_moves color rest (mvs ++ [mkGoMove color true ((-1)%Z, (-1)%Z)])
      | [c0; c1] =>
          add_moves color rest (mvs ++ [mkGoMove color false (decode_pos c0 c1)])
      | _ => (Some value, mvs)
      end
  end.

(** The branches of [HandleProperty] that the two copies of the function
    share word for word. *)

Definition one_value (vals : list string_view) : option string_view :=
  match vals with
  | [v] => Some v
  | _ => None
  end.

Definition handle_stones (black : bool) (prop : Property) (record : GameRecord)
           (unparsed : Unparsed) (errors : option string) : Handled :=
  let stones := if black then black_stones record else white_stones record in
  let store := if black then set_black_stones else set_white_stones in
  match add_stones (values prop) stones with
  | (true, stones') => (true, store record stones', unparsed, errors)
  | (false, stones') =>
      (false, store record stones', unparsed, LOG_ERROR "Bad coordinate." errors)
  end.

Definition handle_moves (color : Color) (prop : Property) (record : GameRecord)
           (unparsed : Unparsed) (errors : option string) : Handled :=
  match add_moves color (values prop) (moves record) with
  | (None, mvs) => (true, set_moves record mvs, unparsed, errors)
  | (Some value, mvs) =>
      (false, set_moves record mvs, unparsed,
       LOG_ERROR ("Bad coordinate:" ++ string_of_list_ascii value)%string errors)
  end.

Definition handle_unknown (id : string_view) (prop : Property)
           (record : GameRecord) (unparsed : Unparsed) (errors : option string)
  : Handled :=
  match unparsed with
  | Some u =>
      (true, record, Some (u ++ [(id, StrJoin (values prop) (sv ","))]), errors)
  | None => (true, record, None, errors)
  end.

(** [RETURN_IF(true, msg, false)] *)
Definition fail (msg : string) (record : GameRecord) (unparsed : Unparsed)
           (errors : option string) : Handled :=
  (false, record, unparsed, LOG_ERROR msg errors).

(** [HandleProperty] of [sgf_parser/parser.cc]. *)
Definition HandleProperty (prop : Property) (record : GameRecord)
           (unparsed : Unparsed) (errors : option string) : Handled :=
  let id := AsciiStrToUpper (id prop) in
  if sv_eqb id (sv "SZ") then
    match one_value (values prop) with
    | None => fail "Bad SZ property." record unparsed errors
    | Some v =>
        match SimpleAtoi v with
        | None => fail "Bad SZ value." record unparsed errors
        | Some size =>
            (true, set_board_size record (to_int16 size) (to_int16 size),
             unparsed, errors)
        end
    end
  else if sv_eqb id (sv "HA") then
    match one_value (values prop) with
    | None => fail "Bad HA property." record unparsed errors
    | Some v =>
        match SimpleAtoi v with
        | None => fail "Bad HA value." record unparsed errors
        | Some ha => (true, set_handicap record ha, unparsed, errors)
        end
    end
  else if sv_eqb id (sv "TM") then
    match one_value (values prop) with
    | None => fail "Bad TM property." record unparsed errors
    | Some v =>
        match SimpleAtoi v with
        | None => fail "Bad TM value." record unparsed errors
        | Some tm => (true, set_timelimit record tm, unparsed, errors)
        end
    end
  else if sv_eqb id (sv "KM") then
    match one_value (values prop) with
    | None => fail "Bad Komi property." record unparsed errors
    | Some v =>
        let (parsed, out) := SimpleAtof v in
        if negb parsed then
          fail "Bad Komi value." (set_komi record out) unparsed errors
        else (true, set_komi record out, unparsed, errors)
    end
  else if sv_eqb id (sv "RU") then
    match one_value (values prop) with
    | None => fail "Bad rule." record unparsed errors
    | Some v => (true, set_rule record v, unparsed, errors)
    end
  else if sv_eqb id (sv "PB") || sv_eqb id (sv "BT") then
    match one_value (values prop) with
    | None => fail "Bad black name value." record unparsed errors
    | Some v => (true, set_black_name record v, unparsed, errors)
    end
  else if sv_eqb id (sv "PW") || sv_eqb id (sv "WT") then
    match one_value (values prop) with
    | None => fail "Bad white name value." record unparsed errors
    | Some v => (true, set_white_name record v, unparsed, errors)
    end
  else if sv_eqb id (sv "BR") then
    match one_value (values prop) with
    | None => fail "Bad black rank." record unparsed errors
    | Some v => (true, set_black_rank record v, unparsed, errors)
    end
  else if sv_eqb id (sv "WR") then
    match one_value (values prop) with
    | None => fail "Bad white rank." record unparsed errors
    | Some v => (true, set_white_rank record v, unparsed, errors)
    end
  else if sv_eqb id (sv "DT") then
    match one_value (values prop) with
    | None => fail "Bad date." record unparsed errors
    | Some v => (true, set_date record v, unparsed, errors)
    end
  else if sv_eqb id (sv "RE") then
    match one_value (values prop) with
    | None => fail "Bad result (RU) property." record unparsed errors
    | Some v =>
        let re := AsciiStrToUpper v in
        if sv_eqb (substr re 0 3) (sv "B+R") then
          (true, set_resigned (set_result record float_1_2) true,
           unparsed, errors)
        else if sv_eqb (substr re 0 3) (sv "W+R") then
          (true, set_resigned (set_result record float_minus_1_2) true,
           unparsed, errors)
        else if 3 <=? List.length re then
          let (parsed, score) := SimpleAtof (skipn 2 re) in
          if negb parsed then
            fail "Bad result (RU) value." record unparsed errors
          else
            match re with
            | "B"%char :: _ => (true, set_result record score, unparsed, errors)
            | "W"%char :: _ =>
                (true, set_result record (float_neg score), unparsed, errors)
            | _ => fail "Bad result (RU) value." record unparsed errors
            end
        else fail "Bad result (RU) value." record unparsed errors
    end
  else if sv_eqb id (sv "AB") || sv_eqb id (sv "AW") then
    handle_stones (sv_eqb id (sv "AB")) prop record unparsed errors
  else if sv_eqb id (sv "B") || sv_eqb id (sv "W") then
    handle_moves (if sv_eqb id (sv "B") then BLACK else WHITE)
                 prop record unparsed errors
  else handle_unknown id prop record unparsed errors.

End Extractor.

(** The later copy of the function, in the second source file of the
    repository (the one that defines [ParseToRoot]).  It differs in the TM, KM
    and RE branches. *)
Module Later.

Section Extractor.

Variable float : Type.
Variable SimpleAtoi : string_view -> option Z.
Variable SimpleAtof : string_view -> bool * float.
Variable float_neg : float -> float.
Variable float_1_2 : float.
Variable float_minus_1_2 : float.
Variable float_6_5 : float.

Definition HandleProperty (prop : Property) (record : GameRecord float)
           (unparsed : Unparsed) (errors : option string) : Handled float :=
  let id := AsciiStrToUpper (id prop) in
  if sv_eqb id (sv "SZ") then
    match one_value (values prop) with
    | None => fail "Bad SZ property." record unparsed errors
    | Some v =>
        match SimpleAtoi v with
        | None => fail "Bad SZ value." record unparsed errors
        | Some size =>
            (true, set_board_size record (to_int16 size) (to_int16 size),
             unparsed, errors)
        end
    end
  else if sv_eqb id (sv "HA") then
    match one_value (values prop) with
    | None => fail "Bad HA property." record unparsed errors
    | Some v =>
        match SimpleAtoi v with
        | None => fail "Bad HA value." record unparsed errors
        | Some ha => (true, set_handicap record ha, unparsed, errors)
        end
    end
  else if sv_eqb id (sv "TM") then
    match one_value (values prop) with
    | None => fail "Bad TM property." record unparsed errors
    | Some v =>
        match SimpleAtoi v with
        | Some tm => (true, set_timelimit record tm, unparsed, errors)
        | None => (true, set_timelimit record 0%Z, unparsed, errors)
        end
    end
  else if sv_eqb id (sv "KM") then
    match one_value (values prop) with
    | None => fail "Bad Komi property." record unparsed errors
    | Some v =>
        let (parsed, out) := SimpleAtof v in
        if negb parsed then (true, set_komi record float_6_5, unparsed, errors)
        else (true, set_komi record out, unparsed, errors)
    end
  else if sv_eqb id (sv "RU") then
    match one_value (values prop) with
    | None => fail "Bad rule." record unparsed errors
    | Some v => (true, set_rule record v, unparsed, errors)
    end
  else if sv_eqb id (sv "PB") || sv_eqb id (sv "BT") then
    match one_value (values prop) with
    | None => fail "Bad black name value." record unparsed errors
    | Some v => (true, set_black_name record v, unparsed, errors)
    end
  else if sv_eqb id (sv "PW") || sv_eqb id (sv "WT") then
    match one_value (values prop) with
    | None => fail "Bad white name value." record unparsed errors
    | Some v => (true, set_white_name record v, unparsed, errors)
    end
  else if sv_eqb id (sv "BR") then
    match one_value (values prop) with
    | None => fail "Bad black rank." record unparsed errors
    | Some v => (true, set_black_rank record v, unparsed, errors)
    end
  else if sv_eqb id (sv "WR") then
    match one_value (values prop) with
    | None => fail "Bad white rank." record unparsed errors
    | Some v => (true, set_white_rank record v, unparsed, errors)
    end
  else if sv_eqb id (sv "DT") then
    match one_value (values prop) with
    | None => fail "Bad date." record unparsed errors
    | Some v => (true, set_date record v, unparsed, errors)
    end
  else if sv_eqb id (sv "RE") then
    match one_value (values prop) with
    | None => fail "Bad result (RE) property." record unparsed errors
    | Some v =>
        let re := AsciiStrToUpper v in
        if sv_eqb (substr re 0 3) (sv "B+R") || sv_eqb (substr re 0 3) (sv "B+T")
           || sv_eqb (substr re 0 3) (sv "B+F") then
          (true, set_resigned (set_result record float_1_2) true,
           unparsed, errors)
        else if sv_eqb (substr re 0 3) (sv "W+R")
                || sv_eqb (substr re 0 3) (sv "W+T")
                || sv_eqb (substr re 0 3) (sv "W+F") then
          (true, set_resigned (set_result record float_minus_1_2) true,
           unparsed, errors)
        else if 3 <=? List.length re then
          let (parsed, score) := SimpleAtof (skipn 2 re) in
          if negb parsed then
            fail "Bad result (RE) value: failed in parsing score."
                 record unparsed errors
          else
            match re with
            | "B"%char :: _ => (true, set_result record score, unparsed, errors)
            | "W"%char :: _ =>
                (true, set_result record (float_neg score), unparsed, errors)
            | _ =>
                fail "Bad result (RE) value: unknown color."
                     record unparsed errors
            end
        else fail "Bad result (RE) value: value too short." record unparsed errors
    end
  else if sv_eqb id (sv "AB") || sv_eqb id (sv "AW") then
    handle_stones (sv_eqb id (sv "AB")) prop record unparsed errors
  else if sv_eqb id (sv "B") || sv_eqb id (sv "W") then
    handle_moves (if sv_eqb id (sv "B") then BLACK else WHITE)
                 prop record unparsed errors
  else handle_unknown id prop record unparsed errors.

End Extractor.

End Later.

(** ** Vocabulary of the statements *)

(** [Reach sgf errors k l]: the tree builder, started on [sgf], stands at the
    head of its loop in [l] after [k] transitions. *)
Inductive Reach (sgf : string_view) (errors : option string)
  : nat -> Tree.Loop -> Prop :=
| Reach_init : Reach sgf errors 0 (Tree.init errors)
| Reach_step k l l' :
    Reach sgf errors k l ->
    Tree.state l <> Tree.END ->
    Tree.body sgf l = Done (Next l') ->
    Reach sgf errors (S k) l'.


(** [Depth h ptr d]: [d] parent links lead from [ptr] to the virtual root. *)
Inductive Depth (h : Heap) : TreePtr -> nat -> Prop :=
| Depth_root t :
    nth_error h Tree.root = Some t -> parent t = None -> Depth h Tree.root 0
| Depth_child c t up d :
    nth_error h c = Some t -> parent t = Some up -> Depth h up d ->
    Depth h c (S d).



(** Text the strict scan walks over: whitespace outside [targets], and a
    backslash together with the character after it. *)
Fixpoint skipped (targets : string_view) (s : string_view) : bool :=
  match s with
  | [] => true
  | c :: rest =>
      if Ascii.eqb c backslash then
        match rest with
        | [] => false
        | _ :: rest' => skipped targets rest'
        end
      else ascii_isspace c && negb (sv_contains targets c) && skipped targets rest
  end.

(** Text without a backslash and without a character of [targets]. *)
Definition plain (targets : string_view) (s : string_view) : Prop :=
  Forall (fun c => c <> backslash /\ sv_contains targets c = false) s.

(** The virtual root is in the arena and has no parent. *)
Definition root_ok (h : Heap) : Prop :=
  exists t, nth_error h Tree.root = Some t /\ parent t = None.

(** How far the cursor stands after [k] transitions, state by state. *)
Definition paced (sgf : string_view) (k : nat) (l : Tree.Loop) : Prop :=
  match Tree.state l with
  | Tree.START => k = 0 /\ Tree.cursor l = 0
  | Tree.TREE_START | Tree.NODE_START =>
      k <= Tree.cursor l <= List.length sgf
  | Tree.NEXT_TREE => k + 2 <= Tree.cursor l <= List.length sgf
  | Tree.END => k <= List.length sgf
  end.

(** The first property of the node has the empty identifier. *)
Definition first_id_empty (node : GameNode) : Prop :=
  exists vals more, node = mkProperty [] vals :: more.

(** A property written as in a test: identifier and values. *)
Definition prop (ident : string) (vals : list string) : Property :=
  mkProperty (sv ident) (map sv vals).

(** The ids the dispatcher knows. *)
Definition recognized : list string_view :=
  map sv ["SZ"; "HA"; "TM"; "KM"; "RU"; "PB"; "BT"; "PW"; "WT"; "BR"; "WR";
          "DT"; "RE"; "AB"; "AW"; "B"; "W"]%string.

(** The decoding of an RE value in the words of the specification: the
    record after the property, or [None] when extraction fails. *)
Section ResultWords.

Variable float : Type.
Variable SimpleAtof : string_view -> bool * float.
Variable float_neg : float -> float.
Variable float_1_2 : float.
Variable float_minus_1_2 : float.

Definition decode_RE (v : string_view) (record : GameRecord float)
  : option (GameRecord float) :=
  let re := AsciiStrToUpper v in
  let first3 := firstn 3 re in
  if existsb (sv_eqb first3) [sv "B+R"; sv "B+T"; sv "B+F"] then
    Some (set_resigned (set_result record float_1_2) true)
  else if existsb (sv_eqb first3) [sv "W+R"; sv "W+T"; sv "W+F"] then
    Some (set_resigned (set_result record float_minus_1_2) true)
  else if List.length re <? 3 then None
  else
    match SimpleAtof (skipn 2 re), re with
    | (true, margin), "B"%char :: _ => Some (set_result record margin)
    | (true, margin), "W"%char :: _ =>
        Some (set_result record (float_neg margin))
    | _, _ => None
    end.

End ResultWords.

(** ** An instance of the numeric parameters

    Exact decimals [mantissa / 10 ^ scale] with parsers for the plain notation
    (sign, digits, fraction), to run the extractor on examples. *)

Module Decimal.

Record t : Type := mk { mantissa : Z; scale : nat }.

Definition neg (d : t) : t := mk (- mantissa d) (scale d).

Definition digit (c : ascii) : option Z :=
  let n := nat_of_ascii c in
  if (48 <=? n) && (n <=? 57) then Some (Z.of_nat (n - 48)) else None.

(** Reads digits into [acc]; [None] on any other character. *)
Fixpoint digits (s : string_view) (acc : Z) : option Z :=
  match s with
  | [] => Some acc
  | c :: rest =>
      match digit c with
      | Some d => digits rest (acc * 10 + d)
      | None => None
      end
  end.

(** Splits at the first full stop. *)
Fixpoint split_dot (s : string_view) : string_view * option string_view :=
  match s with
  | [] => ([], None)
  | c :: rest =>
      if Ascii.eqb c "."%char then ([], Some rest)
      else let (a, b) := split_dot rest in (c :: a, b)
  end.

Definition unsigned (s : string_view) : option t :=
  match split_dot s with
  | (whole, None) =>
      match whole with
      | [] => None
      | _ => option_map (fun m => mk m 0) (digits whole 0)
      end
  | (whole, Some frac) =>
      match whole ++ frac with
      | [] => None
      | all => option_map (fun m => mk m (List.length frac)) (digits all 0)
      end
  end.

Definition signed (s : string_view) : option t :=
  match s with
  | "+"%char :: rest => unsigned rest
  | "-"%char :: rest => option_map neg (unsigned rest)
  | _ => unsigned s
  end.

Definition SimpleAtof (s : string_view) : bool * t :=
  match signed s with
  | Some d => (true, d)
  | None => (false, mk 0 0)
  end.

Definition SimpleAtoi (s : string_view) : option Z :=
  match signed s with
  | Some (mk m 0) =>
      if ((-2147483648 <=? m) && (m <=? 2147483647))%Z then Some m else None
  | _ => None
  end.

Definition HandleProperty :=
  HandleProperty SimpleAtoi SimpleAtof neg (mk 12 1) (mk (-12) 1).

Definition HandleProperty_later :=
  Later.HandleProperty SimpleAtoi SimpleAtof neg (mk 12 1) (mk (-12) 1) (mk 65 1).

Definition GameRecord_new := GameRecord_new (mk 0 0).

End Decimal.

(** ** The rest of the program *)

(** [GameRecord::Reset()]: the scalar and string fields go back to their
    constructed values; the three vectors are not touched. *)
Definition Reset (float : Type) (float_0 : float) (r : GameRecord float)
  : GameRecord float :=
  mkGameRecord 0%Z 0%Z float_0 0%Z (-1)%Z (black_stones r) (white_stones r)
               (moves r) float_0 false [] [] [] [] [] [].

(** What a walk over the arena comes to: a result, the end of the fuel, or a
    read through a pointer that is null or outside the arena, which the
    program leaves undefined. *)
Inductive Run (A : Type) : Type :=
| Ran (a : A)
| NoFuel
| Undefined.
Arguments NoFuel {A}.
Arguments Undefined {A}.

Section Walk.

Variable float : Type.
(** Either copy of [HandleProperty], with its numeric parameters applied. *)
Variable handle :
  Property -> GameRecord float -> Unparsed -> option string -> Handled float.

(** [for (const auto& prop : node) if (!HandleProperty(...)) return false;] *)
Fixpoint handle_node (node : GameNode) (record : GameRecord float)
         (unparsed : Unparsed) (errors : option string) : Handled float :=
  match node with
  | [] => (true, record, unparsed, errors)
  | p :: rest =>
      match handle p record unparsed errors with
      | (true, record', unparsed', errors') =>
          handle_node rest record' unparsed' errors'
      | failed => failed
      end
  end.

(** [for (const auto& node : current->sequence) ...] around it. *)
Fixpoint handle_sequence (nodes : list GameNode) (record : GameRecord float)
         (unparsed : Unparsed) (errors : option string) : Handled float :=
  match nodes with
  | [] => (true, record, unparsed, errors)
  | node :: rest =>
      match handle_node node record unparsed errors with
      | (true, record', unparsed', errors') =>
          handle_sequence rest record' unparsed' errors'
      | failed => failed
      end
  end.

(** The [while (current != nullptr)] loop of [SimpleParseSgf] in
    [sgf_parser/parser.cc]; [current] is never null, a [unique_ptr] of
    [children] being its only source. *)
Fixpoint walk (fuel : nat) (h : Heap) (current : TreePtr)
         (record : GameRecord float) (unparsed : Unparsed)
         (errors : option string) : Run (Handled float) :=
  match fuel with
  | 0 => NoFuel
  | S fuel' =>
      match nth_error h current with
      | None => Undefined
      | Some t =>
          match handle_sequence (sequence t) record unparsed errors with
          | (true, record', unparsed', errors') =>
              if 1 <? List.length (children t) then
                Ran (false, record', unparsed',
                     LOG_ERROR "Branched tree is not supported." errors')
              else
                match children t with
                | [] => Ran (true, record', unparsed', errors')
                | child :: _ => walk fuel' h child record' unparsed' errors'
                end
          | failed => Ran failed
          end
      end
  end.

(** [SimpleParseSgf] of [sgf_parser/parser.cc]. *)
Definition SimpleParseSgf (sgf : string_view) (record : GameRecord float)
           (unparsed : Unparsed) (errors : option string)
  : Run (Handled float) :=
  match ParseToCollection sgf errors with
  | OutOfFuel => NoFuel
  | Done (Tree.Failed errs) => Ran (false, record, unparsed, errs)
  | Done (Tree.Parsed game_trees h errs) =>
      match game_trees with
      | [] =>
          Ran (false, record, unparsed,
               LOG_ERROR "An empty tree collection." errs)
      | [first] => walk (List.length h) h first record unparsed errs
      | _ :: _ :: _ =>
          Ran (false, record, unparsed,
               LOG_ERROR "Multiple trees are not supported." errs)
      end
  end.

End Walk.

(** ** The later copy of the tree builder and of the extractor

    [ParseToRoot] builds under a root the caller owns, so what it built stays
    visible when it fails; its loop is that of [ParseToCollection], state for
    state. *)

Module LaterParser.

(** One way out of the loop of [ParseToRoot]: the value returned, the arena
    and the diagnostics. *)
Definition Exit : Type := (bool * Heap * option string)%type.

Definition go_up (l : Tree.Loop) (h : Heap) (errs : option string) (p : nat)
  : Iter Tree.Loop Exit :=
  match parent_of h (Tree.current_tree l) with
  | None =>
      Return (false, h, LOG_ERROR "Trying to going up in the root tree." errs)
  | Some up => Next (Tree.mkLoop Tree.NEXT_TREE (p + 1) up h errs)
  end.

Definition go_down (l : Tree.Loop) (h : Heap) (errs : option string) (p : nat)
  : Iter Tree.Loop Exit :=
  let (h', child) := NewChild h (Tree.current_tree l) in
  Next (Tree.mkLoop Tree.TREE_START (p + 1) child h' errs).

(** The body of the [do ... while (state != END)] loop of [ParseToRoot]. *)
Definition body (sgf : string_view) (l : Tree.Loop)
  : Outcome (Iter Tree.Loop Exit) :=
  match Tree.state l with
  | Tree.START =>
      match FindFirst sgf (Tree.cursor l) (sv "(") false with
      | None =>
          Done (Return (false, Tree.heap l,
                        LOG_ERROR "Failed in finding a tree start."
                                  (Tree.errors l)))
      | Some p => Done (go_down l (Tree.heap l) (Tree.errors l) p)
      end
  | Tree.TREE_START =>
      match FindFirst sgf (Tree.cursor l) (sv ";") false with
      | None =>
          Done (Return (false, Tree.heap l,
                        LOG_ERROR "Failed in finding a node start."
                                  (Tree.errors l)))
      | Some p =>
          Done (Next (Tree.mkLoop Tree.NODE_START (p + 1) (Tree.current_tree l)
                                  (Tree.heap l) (Tree.errors l)))
      end
  | Tree.NODE_START =>
      let h := NewNode (Tree.heap l) (Tree.current_tree l) in
      match ConsumeNode sgf (Tree.cursor l) [] (Tree.errors l) with
      | OutOfFuel => OutOfFuel
      | Done (r, node, errs) =>
          let h := store_back h (Tree.current_tree l) node in
          match r with
          | None =>
              Done (Return (false, h, LOG_ERROR "Error in parsing a node." errs))
          | Some p =>
              if char_is sgf p ";" then
                Done (Next (Tree.mkLoop Tree.NODE_START (p + 1)
                                        (Tree.current_tree l) h errs))
              else if char_is sgf p ")" then Done (go_up l h errs p)
              else if char_is sgf p "(" then Done (go_down l h errs p)
              else
                Done (Next (Tree.mkLoop Tree.NODE_START (p + 1)
                                        (Tree.current_tree l) h errs))
          end
      end
  | Tree.NEXT_TREE =>
      match FindFirst sgf (Tree.cursor l) (sv "()") false with
      | None =>
          Done (Next (Tree.mkLoop Tree.END (size_type_succ None)
                                  (Tree.current_tree l) (Tree.heap l)
                                  (Tree.errors l)))
      | Some p =>
          if char_is sgf p "(" then
            Done (go_down l (Tree.heap l) (Tree.errors l) p)
          else if char_is sgf p ")" then
            Done (go_up l (Tree.heap l) (Tree.errors l) p)
          else
            Done (Next (Tree.mkLoop Tree.NEXT_TREE (p + 1) (Tree.current_tree l)
                                    (Tree.heap l) (Tree.errors l)))
      end
  | Tree.END => Done (Next l)
  end.

(** After the loop: [RETURN_IF(current_tree != root, ...); return true;] *)
Definition finish (root : TreePtr) (l : Tree.Loop) : Exit :=
  if negb (Tree.current_tree l =? root) then
    (false, Tree.heap l,
     LOG_ERROR "Parser ends with a bad state." (Tree.errors l))
  else (true, Tree.heap l, Tree.errors l).

Fixpoint loop (fuel : nat) (sgf : string_view) (root : TreePtr) (l : Tree.Loop)
  : Outcome Exit :=
  match fuel with
  | 0 => OutOfFuel
  | S fuel' =>
      match body sgf l with
      | OutOfFuel => OutOfFuel
      | Done (Return r) => Done r
      | Done (Next l') =>
          if Tree.is_END (Tree.state l') then Done (finish root l')
          else loop fuel' sgf root l'
      end
  end.

(** [ParseToRoot(sgf, root, errors)], [h] being the arena in which [root]
    lives. *)
Definition ParseToRoot (sgf : string_view) (h : Heap) (root : TreePtr)
           (errors : option string) : Outcome Exit :=
  loop (S (List.length sgf)) sgf root (Tree.mkLoop Tree.START 0 root h errors).

(** Conversion of a [size_t] sum to [int], 32 bits wide. *)
Definition to_int (z : Z) : Z :=
  ((z + 2147483648) mod 4294967296 - 2147483648)%Z.

(** The [for] loop of [GetFurthestLeaf] over [root->children]; [rec] is the
    recursive call. *)
Fixpoint furthest_among (rec : TreePtr -> Run (option TreePtr * Z))
         (kids : list TreePtr) (furthest_leaf : option TreePtr)
         (longest_dist : Z) : Run (option TreePtr * Z) :=
  match kids with
  | [] => Ran (furthest_leaf, longest_dist)
  | child :: rest =>
      match rec child with
      | Ran (leaf, dist) =>
          if (longest_dist <? dist)%Z then furthest_among rec rest leaf dist
          else furthest_among rec rest furthest_leaf longest_dist
      | NoFuel => NoFuel
      | Undefined => Undefined
      end
  end.

(** [GetFurthestLeaf(root)]: a leaf and the number of nodes on the way to
    it, as an [int]. *)
Fixpoint GetFurthestLeaf (fuel : nat) (h : Heap) (root : TreePtr)
  : Run (option TreePtr * Z) :=
  match fuel with
  | 0 => NoFuel
  | S fuel' =>
      match nth_error h root with
      | None => Undefined
      | Some t =>
          match children t with
          | [] => Ran (Some root, to_int (Z.of_nat (List.length (sequence t))))
          | kids =>
              match furthest_among (GetFurthestLeaf fuel' h) kids None (-1)%Z with
              | Ran (furthest_leaf, longest_dist) =>
                  Ran (furthest_leaf,
                       to_int (longest_dist
                               + Z.of_nat (List.length (sequence t))))
              | NoFuel => NoFuel
              | Undefined => Undefined
              end
          end
      end
  end.

(** [while (node != &root) { path.push_back(node); node = node->parent; }];
    the vector [path] is kept with its back first. *)
Fixpoint path_to_root (fuel : nat) (h : Heap) (root : TreePtr)
         (node : option TreePtr) (path : list TreePtr) : Run (list TreePtr) :=
  match fuel with
  | 0 => NoFuel
  | S fuel' =>
      match node with
      | None => Undefined
      | Some n =>
          if n =? root then Ran path
          else
            match nth_error h n with
            | None => Undefined
            | Some t => path_to_root fuel' h root (parent t) (n :: path)
            end
      end
  end.

Section Extract.

Variable float : Type.
Variable handle :
  Property -> GameRecord float -> Unparsed -> option string -> Handled float.

(** [while (!path.empty()) { current = path.back(); path.pop_back(); ... }] *)
Fixpoint handle_path (h : Heap) (path : list TreePtr)
         (record : GameRecord float) (unparsed : Unparsed)
         (errors : option string) : Run (Handled float) :=
  match path with
  | [] => Ran (true, record, unparsed, errors)
  | current :: rest =>
      match nth_error h current with
      | None => Undefined
      | Some t =>
          match handle_sequence handle (sequence t) record unparsed errors with
          | (true, record', unparsed', errors') =>
              handle_path h rest record' unparsed' errors'
          | failed => Ran failed
          end
      end
  end.

(** [SimpleParseSgf] of the later copy. *)
Definition SimpleParseSgf (sgf : string_view) (record : GameRecord float)
           (unparsed : Unparsed) (errors : option string)
  : Run (Handled float) :=
  let root := Tree.root in
  match ParseToRoot sgf [mkGameTree None [] []] root errors with
  | OutOfFuel => NoFuel
  | Done (false, _, errs) => Ran (false, record, unparsed, errs)
  | Done (true, h, errs) =>
      match nth_error h root with
      | None => Undefined
      | Some t =>
          match children t with
          | [] =>
              Ran (false, record, unparsed,
                   LOG_ERROR "An empty tree collection." errs)
          | _ :: _ =>
              match GetFurthestLeaf (List.length h) h root with
              | Ran (leaf, _) =>
                  match path_to_root (List.length h) h root leaf [] with
                  | Ran path => handle_path h path record unparsed errs
                  | NoFuel => NoFuel
                  | Undefined => Undefined
                  end
              | NoFuel => NoFuel
              | Undefined => Undefined
              end
          end
      end
  end.

End Extract.

End LaterParser.

(** [ReadFileToString] reads a file; the file system is a parameter of the
    model, [contents_of] giving the text read under each name.  [is_zero] is
    the test [record->result == 0.0f]. *)
Section Check.

Variable float : Type.
Variable handle :
  Property -> GameRecord float -> Unparsed -> option string -> Handled float.
Variable is_zero : float -> bool.
Variable contents_of : string -> string_view.

Definition ReadFileToString (filename : string) : string_view :=
  contents_of filename.

(** [SimpleParseSgfAndCheck] of the later copy: [sgf] is read and the file
    name is what goes to [SimpleParseSgf], with a null [unparsed]. *)
Definition SimpleParseSgfAndCheck (sgf_file_name : string)
           (expected_board_size : GoCoord) (check_has_result : bool)
           (record : GameRecord float) (errors : option string)
  : Run (bool * GameRecord float * option string) :=
  let sgf := ReadFileToString sgf_file_name in
  match LaterParser.SimpleParseSgf handle (sv sgf_file_name) record None
                                   errors with
  | Ran (false, record', _, errs) => Ran (false, record', errs)
  | Ran (true, record', _, errs) =>
      if (0 <? expected_board_size)%Z
         && (negb (board_width record' =? expected_board_size)%Z
             || negb (board_height record' =? expected_board_size)%Z)
      then Ran (false, record', LOG_ERROR "Unexpected board size." errs)
      else if check_has_result && is_zero (result record')
      then Ran (false, record', LOG_ERROR "The game has an unknown result." errs)
      else Ran (true, record', errs)
  | NoFuel => NoFuel
  | Undefined => Undefined
  end.

End Check.

(** ** Vocabulary of the further statements *)

(** Text the lenient scan walks over: characters outside [targets], and a
    backslash together with the character after it. *)
Fixpoint passed (targets : string_view) (s : string_view) : bool :=
  match s with
  | [] => true
  | c :: rest =>
      if Ascii.eqb c backslash then
        match rest with
        | [] => false
        | _ :: rest' => passed targets rest'
        end
      else negb (sv_contains targets c) && passed targets rest
  end.

(** What the scan walks over in either mode. *)
Definition walked (expect_contents : bool) (targets s : string_view) : bool :=
  if expect_contents then passed targets s else skipped targets s.

Definition starts_blank (s : string_view) : bool :=
  match s with
  | c :: _ => ascii_isspace c
  | [] => false
  end.

Definition ends_blank (s : string_view) : bool := starts_blank (rev s).

(** Neither end of [s] is whitespace. *)
Definition trimmed (s : string_view) : Prop :=
  starts_blank s = false /\ ends_blank s = false.

Definition has_value (pr : Property) : Prop := values pr <> [].

(** The identifier is trimmed and no value holds a closing bracket outside an
    escape or ends in the middle of one. *)
Definition well_read (pr : Property) : Prop :=
  trimmed (id pr) /\ Forall (fun v => passed (sv "]") v = true) (values pr).

(** The four diagnostics of [ConsumeNode]. *)
Definition node_messages : list string :=
  ["Reach the end of of node."; "Missing the end of a property value.";
   "Missing the end of a node.";
   "Non-empty contents after the end of a value."]%string.

(** What holds of the properties [added] to the node so far; [open] tells
    whether the last of them still waits for its first value. *)
Definition reading (open : bool) (added : list Property) : Prop :=
  Forall well_read added /\
  Forall (fun pr => id pr <> []) (tl added) /\
  Forall has_value (if open then removelast added else added).

Definition Node_inv (node0 : GameNode) (l : Node.Loop) : Prop :=
  match Node.state l with
  | Node.NODE_START => Node.node l = node0
  | Node.VALUE_START =>
      exists added last,
        Node.node l = node0 ++ added ++ [last] /\ reading true (added ++ [last])
  | Node.NEXT_VALUE =>
      exists added,
        added <> [] /\ Node.node l = node0 ++ added /\ reading false added
  end.

(** A node as [ConsumeNode] leaves it when it succeeds. *)
Definition good_node (nd : GameNode) : Prop :=
  nd <> [] /\ Forall has_value nd /\ Forall well_read nd /\
  Forall (fun pr => id pr <> []) (tl nd).

(** Parent links and child lists of the arena agree: every tree but the
    virtual root has a parent, allocated before it, that lists it once among
    its children; every child listed is a tree of the arena, allocated after
    the tree that lists it, whose parent that tree is. *)
Definition linked (h : Heap) : Prop :=
  root_ok h /\
  (forall c t, nth_error h c = Some t -> c <> Tree.root ->
     exists up tu, parent t = Some up /\ up < c /\
                   nth_error h up = Some tu /\ In c (children tu)) /\
  (forall up tu c, nth_error h up = Some tu -> In c (children tu) ->
     up < c /\ exists t, nth_error h c = Some t /\ parent t = Some up) /\
  (forall up tu, nth_error h up = Some tu -> NoDup (children tu)).

(** The virtual root has no node; every node is good; every tree but the
    virtual root and [exc] has a node. *)
Definition filled (exc : option TreePtr) (h : Heap) : Prop :=
  (forall t, nth_error h Tree.root = Some t -> sequence t = []) /\
  (forall c t, nth_error h c = Some t -> Forall good_node (sequence t)) /\
  (forall c t, nth_error h c = Some t -> c <> Tree.root -> Some c <> exc ->
               sequence t <> []).

Definition Tree_inv (l : Tree.Loop) : Prop :=
  linked (Tree.heap l) /\
  Tree.current_tree l < List.length (Tree.heap l) /\
  match Tree.state l with
  | Tree.START => Tree.current_tree l = Tree.root /\ filled None (Tree.heap l)
  | Tree.TREE_START | Tree.NODE_START =>
      Tree.current_tree l <> Tree.root /\
      filled (Some (Tree.current_tree l)) (Tree.heap l)
  | Tree.NEXT_TREE | Tree.END =>
      2 <= List.length (Tree.heap l) /\ filled None (Tree.heap l)
  end.

(** The diagnostics [e'] are [e] with some text after it. *)
Definition appended (e : string) (e' : option string) : Prop :=
  exists msg, msg <> EmptyString /\ e' = Some (e ++ msg)%string.

(** [handle] logs exactly when it fails. *)
Definition logs_on_failure (float : Type)
           (handle : Property -> GameRecord float -> Unparsed ->
                     option string -> Handled float) : Prop :=
  forall p record unparsed e,
    match handle p record unparsed (Some e) with
    | (true, _, _, e') => e' = Some e
    | (false, _, _, e') => appended e e'
    end.

(** [l'] is [l] with elements after it. *)
Definition extends (A : Type) (l l' : list A) : Prop :=
  exists more, l' = l ++ more.

(** The three vectors of the record and the list of unparsed properties are
    only appended to. *)
Definition grows (float : Type) (record : GameRecord float) (unparsed : Unparsed)
           (res : Handled float) : Prop :=
  match res with
  | (_, record', unparsed', _) =>
      extends (black_stones record) (black_stones record') /\
      extends (white_stones record) (white_stones record') /\
      extends (moves record) (moves record') /\
      match unparsed, unparsed' with
      | Some u, Some u' => extends u u'
      | None, None => True
      | _, _ => False
      end
  end.

(** The ids that take exactly one value. *)
Definition single_valued : list string_view :=
  map sv ["SZ"; "HA"; "TM"; "KM"; "RU"; "PB"; "BT"; "PW"; "WT"; "BR"; "WR";
          "DT"; "RE"]%string.

Definition is_letter (c : ascii) : bool :=
  let n := nat_of_ascii c in
  ((65 <=? n) && (n <=? 90)) || ((97 <=? n) && (n <=? 122)).

(** The place of a letter in the alphabet, from 0. *)
Definition letter_index (c : ascii) : Z :=
  (Z.of_nat (nat_of_ascii (AsciiToLower c)) - 97)%Z.

Definition two_letters (v : string_view) : Prop :=
  exists c0 c1, v = [c0; c1] /\ is_letter c0 = true /\ is_letter c1 = true.

(** The point a two-letter value names. *)
Definition point (v : string_view) : GoPos :=
  match v with
  | [c0; c1] => (letter_index c0, letter_index c1)
  | _ => (0%Z, 0%Z)
  end.

(** The move a value of B or W names: a pass when it is empty. *)
Definition move_of (color : Color) (v : string_view) : GoMove :=
  match v with
  | [] => mkGoMove color true ((-1)%Z, (-1)%Z)
  | _ => mkGoMove color false (point v)
  end.

(** [below h root leaf d]: [leaf] has no child and is reached from [root]
    through child lists, past [d] nodes, those of both ends counted. *)
Inductive below (h : Heap) : TreePtr -> TreePtr -> Z -> Prop :=
| below_leaf root t :
    nth_error h root = Some t -> children t = [] ->
    below h root root (Z.of_nat (List.length (sequence t)))
| below_child root t c leaf d :
    nth_error h root = Some t -> In c (children t) -> below h c leaf d ->
    below h root leaf (d + Z.of_nat (List.length (sequence t))).

(** The number of nodes of all the trees of an arena. *)
Definition node_count (h : Heap) : nat :=
  list_sum (map (fun t => List.length (sequence t)) h).

(** [chain h c path leaf]: from [c] down to [leaf] every tree has one child,
    [leaf] has none, and [path] lists them from [c] to [leaf]. *)
Inductive chain (h : Heap) : TreePtr -> list TreePtr -> TreePtr -> Prop :=
| chain_leaf c t :
    nth_error h c = Some t -> children t = [] -> chain h c [c] c
| chain_step c t c' path leaf :
    nth_error h c = Some t -> children t = [c'] -> chain h c' path leaf ->
    chain h c (c :: path) leaf.

(** The result is a win by time or by forfeit. *)
Definition by_time_or_forfeit (p : Property) : bool :=
  sv_eqb (AsciiStrToUpper (id p)) (sv "RE") &&
  match values p with
  | [v] =>
      existsb (sv_eqb (substr (AsciiStrToUpper v) 0 3))
              (map sv ["B+T"; "B+F"; "W+T"; "W+F"]%string)
  | _ => false
  end.

(** A record with a variation: after the first move, one line of one node
    and one of two. *)
Definition kBranched : string_view := sv "(;B[aa](;W[bb])(;W[cc];B[dd]))".

(** The arena [ParseToCollection] builds for it. *)
Definition kBranchedTrees : Heap :=
  [mkGameTree None [] [1];
   mkGameTree (Some 0) [[prop "B" ["aa"%string]]] [2; 3];
   mkGameTree (Some 1) [[prop "W" ["bb"%string]]] [];
   mkGameTree (Some 1) [[prop "W" ["cc"%string]]; [prop "B" ["dd"%string]]] []].

(** The two tree builders leave their loops the same way. *)
Definition same_exit (r : Tree.Result) (x : LaterParser.Exit) : Prop :=
  match r, x with
  | Tree.Parsed tc h e, (true, h', e') =>
      h' = h /\ e' = e /\
      option_map children (nth_error h Tree.root) = Some tc
  | Tree.Failed e, (false, _, e') => e' = e
  | _, _ => False
  end.

Definition same_step (a : Outcome (Iter Tree.Loop Tree.Result))
           (b : Outcome (Iter Tree.Loop LaterParser.Exit)) : Prop :=
  match a, b with
  | OutOfFuel, OutOfFuel => True
  | Done (Next l), Done (Next l') => l' = l
  | Done (Return (Tree.Failed e)), Done (Return (false, _, e')) => e' = e
  | _, _ => False
  end.

Definition same_outcome (a : Outcome Tree.Result)
           (b : Outcome LaterParser.Exit) : Prop :=
  match a, b with
  | OutOfFuel, OutOfFuel => True
  | Done r, Done x => same_exit r x
  | _, _ => False
  end.

(** Children are allocated after the tree that lists them. *)
Definition children_later (h : Heap) : Prop :=
  forall up tu c, nth_error h up = Some tu -> In c (children tu) ->
                  up < c /\ c < List.length h.

(** What [GetFurthestLeaf] owes for the tree [c] of the arena [h]: a leaf
    below [c] with the number of nodes on the way, no leaf below [c] being
    further. *)
Definition furthest (h : Heap) (res : Run (option TreePtr * Z)) (c : TreePtr)
  : Prop :=
  exists leaf d,
    res = Ran (Some leaf, d) /\ below h c leaf d /\
    forall leaf' d', below h c leaf' d' -> (d' <= d)%Z.

(** [handle] only appends to the vectors of the record and to the unparsed
    properties. *)
Definition only_appends (float : Type)
           (handle : Property -> GameRecord float -> Unparsed ->
                     option string -> Handled float) : Prop :=
  forall p record unparsed errors,
    grows record unparsed (handle p record unparsed errors).

(** * Properties *)

(** ** The scanner *)

Lemma scan_Some targets ec rest pos esc p :
  scan targets ec rest pos esc = Some p ->
  pos <= p < pos + List.length rest /\
  exists c, nth_error rest (p - pos) = Some c /\ sv_contains targets c = true.
Proof.
  revert pos esc.
  induction rest as [|cur rest IH]; intros pos esc H; simpl in H.
  - discriminate.
  - assert (Hrec : forall e, scan targets ec rest (S pos) e = Some p ->
              pos <= p < pos + List.length (cur :: rest) /\
              exists c, nth_error (cur :: rest) (p - pos) = Some c /\
                        sv_contains targets c = true).
    { intros e He. apply IH in He. destruct He as [Hb [c [Hc Ht]]].
      simpl. split; [lia|]. exists c. split; [|exact Ht].
      replace (p - pos) with (S (p - S pos)) by lia. exact Hc. }
    destruct esc; [eauto|].
    destruct (Ascii.eqb cur backslash); [eauto|].
    destruct (sv_contains targets cur) eqn:Ht.
    + injection H as <-. simpl. split; [lia|].
      exists cur. rewrite Nat.sub_diag. auto.
    + destruct (negb ec && negb (ascii_isspace cur)); [discriminate|eauto].
Qed.

Lemma FindFirst_Some sgf start targets ec p :
  FindFirst sgf start targets ec = Some p ->
  start <= p < List.length sgf /\
  exists c, char_at sgf p = Some c /\ sv_contains targets c = true.
Proof.
  unfold FindFirst. intros H. apply scan_Some in H.
  destruct H as [Hb [c [Hc Ht]]].
  rewrite nth_error_skipn in Hc.
  replace (start + (p - start)) with p in Hc by lia.
  split.
  - split; [lia|]. apply nth_error_Some. unfold char_at in *. congruence.
  - exists c. auto.
Qed.

(** ** The node consumer *)

Lemma sv_contains_delims c :
  sv_contains (sv "[;()") c = true ->
  c = "["%char \/ c = ";"%char \/ c = "("%char \/ c = ")"%char.
Proof.
  unfold sv_contains. simpl. rewrite !orb_true_iff.
  intros [H|[H|[H|[H|H]]]]; try discriminate;
    apply Ascii.eqb_eq in H; auto.
Qed.

Lemma char_is_true sgf p c : char_is sgf p c = true <-> char_at sgf p = Some c.
Proof.
  unfold char_is. destruct (char_at sgf p) as [x|].
  - rewrite Ascii.eqb_eq. split; congruence.
  - split; discriminate.
Qed.

Lemma Node_body_Next sgf l l' :
  Node.body sgf l = Next l' ->
  Node.cursor l < Node.cursor l' <= List.length sgf.
Proof.
  unfold Node.body. intros H.
  destruct (Node.state l).
  - destruct (FindFirst sgf (Node.cursor l) (sv "[") true) eqn:F; [|discriminate].
    apply FindFirst_Some in F. injection H as <-. simpl. lia.
  - destruct (FindFirst sgf (Node.cursor l) (sv "]") true) eqn:F; [|discriminate].
    apply FindFirst_Some in F. injection H as <-. simpl. lia.
  - destruct (FindFirst sgf (Node.cursor l) (sv "[;()") true) eqn:F; [|discriminate].
    apply FindFirst_Some in F.
    destruct (char_is sgf n "[").
    + injection H as <-. simpl. lia.
    + destruct (SubstrAndStripWhitespace _ _ _); discriminate.
Qed.

Lemma Node_body_Return_Some sgf l p nd e :
  Node.body sgf l = Return (Some p, nd, e) ->
  Node.cursor l <= p < List.length sgf /\
  (char_at sgf p = Some ";"%char \/ char_at sgf p = Some "("%char \/
   char_at sgf p = Some ")"%char).
Proof.
  unfold Node.body. intros H.
  destruct (Node.state l).
  - destruct (FindFirst _ _ _ _); discriminate.
  - destruct (FindFirst _ _ _ _); discriminate.
  - destruct (FindFirst sgf (Node.cursor l) (sv "[;()") true) eqn:F; [|discriminate].
    apply FindFirst_Some in F. destruct F as [Hb [c [Hc Ht]]].
    destruct (char_is sgf n "[") eqn:Hopen; [discriminate|].
    destruct (SubstrAndStripWhitespace _ _ _); [|discriminate].
    injection H as Hp _ _. subst n. split; [exact Hb|].
    rewrite Hc. apply sv_contains_delims in Ht.
    destruct Ht as [-> | [-> | [-> | ->]]]; auto.
    apply char_is_true in Hc. congruence.
Qed.

Lemma Node_loop_total sgf fuel l :
  List.length sgf - Node.cursor l < fuel ->
  exists r, Node.loop fuel sgf l = Done r.
Proof.
  revert l. induction fuel as [|fuel IH]; intros l Hf; [lia|].
  simpl. destruct (Node.body sgf l) as [l'|r] eqn:B.
  - apply Node_body_Next in B. apply IH. lia.
  - eauto.
Qed.

Lemma Node_loop_Some sgf fuel l p nd e :
  Node.loop fuel sgf l = Done (Some p, nd, e) ->
  Node.cursor l <= p < List.length sgf /\
  (char_at sgf p = Some ";"%char \/ char_at sgf p = Some "("%char \/
   char_at sgf p = Some ")"%char).
Proof.
  revert l. induction fuel as [|fuel IH]; intros l H; [discriminate|].
  simpl in H. destruct (Node.body sgf l) as [l'|r] eqn:B.
  - apply Node_body_Next in B. apply IH in H. destruct H as [Hb Hc].
    split; [lia|exact Hc].
  - injection H as ->. apply Node_body_Return_Some in B. exact B.
Qed.

Lemma ConsumeNode_total sgf start node errors :
  exists r, ConsumeNode sgf start node errors = Done r.
Proof. apply Node_loop_total. simpl. lia. Qed.

(** ** The tree builder *)

Lemma Done_inj A (a b : A) : Done a = Done b -> a = b.
Proof. congruence. Qed.


Lemma go_down_Next l h e p l' :
  Tree.go_down l h e p = Next l' ->
  Tree.state l' = Tree.TREE_START /\ Tree.cursor l' = p + 1.
Proof.
  unfold Tree.go_down. destruct (NewChild h (Tree.current_tree l)).
  intros H. injection H as <-. auto.
Qed.

Lemma go_up_Next l h e p l' :
  Tree.go_up l h e p = Next l' ->
  Tree.state l' = Tree.NEXT_TREE /\ Tree.cursor l' = p + 1.
Proof.
  unfold Tree.go_up. destruct (parent_of h (Tree.current_tree l)); [|discriminate].
  intros H. injection H as <-. auto.
Qed.

Lemma Tree_body_total sgf l : exists it, Tree.body sgf l = Done it.
Proof.
  unfold Tree.body. destruct (Tree.state l); eauto.
  - destruct (FindFirst _ _ _ _); eauto.
  - destruct (FindFirst _ _ _ _); eauto.
  - destruct (ConsumeNode_total sgf (Tree.cursor l) [] (Tree.errors l))
      as [[[r nd] e] ->].
    destruct r as [p|]; eauto.
    destruct (char_is sgf p ";"); eauto.
    destruct (char_is sgf p ")"); eauto.
    destruct (char_is sgf p "("); eauto.
  - destruct (FindFirst _ _ _ _) as [p|]; eauto.
    destruct (char_is sgf p "("); eauto.
    destruct (char_is sgf p ")"); eauto.
Qed.

Lemma Tree_body_Next sgf l l' :
  Tree.body sgf l = Done (Next l') ->
  Tree.state l <> Tree.END ->
  (Tree.state l' <> Tree.END /\
   Tree.cursor l < Tree.cursor l' <= List.length sgf) \/
  (Tree.state l = Tree.NEXT_TREE /\ Tree.state l' = Tree.END /\
   Tree.cursor l' = 0).
Proof.
  unfold Tree.body. intros H Hlive.
  destruct (Tree.state l) eqn:St; try congruence.
  - destruct (FindFirst _ _ _ _) as [p|] eqn:F; [|discriminate].
    apply FindFirst_Some in F. apply Done_inj in H. apply go_down_Next in H.
    left. destruct H as [-> ->]. split; [discriminate|lia].
  - destruct (FindFirst _ _ _ _) as [p|] eqn:F; [|discriminate].
    apply FindFirst_Some in F. injection H as <-. simpl.
    left. split; [discriminate|lia].
  - destruct (ConsumeNode _ _ _ _) as [[[r nd] e]|] eqn:C; [|discriminate].
    destruct r as [p|]; [|discriminate].
    apply Node_loop_Some in C. simpl in C. left.
    destruct (char_is sgf p ";").
    { injection H as <-. simpl. split; [discriminate|lia]. }
    destruct (char_is sgf p ")").
    { apply Done_inj in H. apply go_up_Next in H. destruct H as [-> ->].
      split; [discriminate|lia]. }
    destruct (char_is sgf p "(").
    { apply Done_inj in H. apply go_down_Next in H. destruct H as [-> ->].
      split; [discriminate|lia]. }
    injection H as <-. simpl. split; [discriminate|lia].
  - destruct (FindFirst _ _ _ _) as [p|] eqn:F.
    + apply FindFirst_Some in F. left.
      destruct (char_is sgf p "(").
      { apply Done_inj in H. apply go_down_Next in H. destruct H as [-> ->].
        split; [discriminate|lia]. }
      destruct (char_is sgf p ")").
      { apply Done_inj in H. apply go_up_Next in H. destruct H as [-> ->].
        split; [discriminate|lia]. }
      injection H as <-. simpl. split; [discriminate|lia].
    + injection H as <-. simpl. right. auto.
Qed.

Lemma is_END_true s : Tree.is_END s = true <-> s = Tree.END.
Proof. destruct s; simpl; split; congruence. Qed.

Lemma is_END_false s : Tree.is_END s = false <-> s <> Tree.END.
Proof. destruct s; simpl; split; congruence. Qed.

Lemma Tree_loop_total sgf fuel l :
  Tree.state l <> Tree.END ->
  List.length sgf - Tree.cursor l < fuel ->
  exists r, Tree.loop fuel sgf l = Done r.
Proof.
  revert l. induction fuel as [|fuel IH]; intros l Hlive Hf; [lia|].
  simpl. destruct (Tree_body_total sgf l) as [[l'|r] B]; rewrite B; eauto.
  destruct (Tree.is_END (Tree.state l')) eqn:E; eauto.
  apply is_END_false in E.
  destruct (Tree_body_Next _ _ B Hlive) as [[_ Hc]|[_ [HE _]]]; [|congruence].
  apply IH; [exact E|lia].
Qed.

Lemma ParseToCollection_total sgf errors :
  exists r, ParseToCollection sgf errors = Done r.
Proof. apply Tree_loop_total; simpl; [discriminate|lia]. Qed.

(** *** Invariants of the tree builder *)

Lemma update_root_ok h ptr f :
  (forall t, parent (f t) = parent t) -> root_ok h -> root_ok (update h ptr f).
Proof.
  intros Hf [t [Ht Hp]]. unfold root_ok, Tree.root in *.
  destruct h as [|t0 h]; [discriminate|]. simpl in Ht. injection Ht as ->.
  destruct ptr; simpl.
  - exists (f t). rewrite Hf. auto.
  - exists t. auto.
Qed.

Lemma NewChild_root_ok h cur : root_ok h -> root_ok (fst (NewChild h cur)).
Proof.
  intros H. unfold NewChild. simpl.
  apply (update_root_ok cur
           (fun t => mkGameTree (parent t) (sequence t)
                                (children t ++ [List.length h]))) in H;
    [|reflexivity].
  destruct H as [t [Ht Hp]]. exists t. split; [|exact Hp].
  unfold Tree.root in *. rewrite nth_error_app1; [exact Ht|].
  apply nth_error_Some. congruence.
Qed.

Lemma NewNode_root_ok h cur : root_ok h -> root_ok (NewNode h cur).
Proof. apply update_root_ok. reflexivity. Qed.

Lemma store_back_root_ok h cur nd : root_ok h -> root_ok (store_back h cur nd).
Proof. apply update_root_ok. reflexivity. Qed.

Lemma Node_body_errors sgf l :
  match Node.body sgf l with
  | Next l' => Node.errors l' = Node.errors l
  | Return (Some _, _, e) => e = Node.errors l
  | Return (None, _, _) => True
  end.
Proof.
  unfold Node.body. destruct (Node.state l).
  - destruct (FindFirst _ _ _ _); simpl; auto.
  - destruct (FindFirst _ _ _ _); simpl; auto.
  - destruct (FindFirst _ _ _ _) as [p|]; simpl; auto.
    destruct (char_is sgf p "["); simpl; auto.
    destruct (SubstrAndStripWhitespace _ _ _); simpl; auto.
Qed.

Lemma Node_loop_Some_errors sgf fuel l p nd e :
  Node.loop fuel sgf l = Done (Some p, nd, e) -> e = Node.errors l.
Proof.
  revert l. induction fuel as [|fuel IH]; intros l H; [discriminate|].
  simpl in H. pose proof (Node_body_errors sgf l) as E.
  destruct (Node.body sgf l) as [l'|r].
  - apply IH in H. congruence.
  - injection H as ->. exact E.
Qed.

(** A node that ends well holds at least an opening bracket, a closing
    bracket and the delimiter. *)
Lemma ConsumeNode_Some_far sgf start node errors p nd e :
  ConsumeNode sgf start node errors = Done (Some p, nd, e) -> start + 2 <= p.
Proof.
  unfold ConsumeNode. simpl.
  destruct (Node.body sgf _) as [l1|r] eqn:B1.
  2:{ unfold Node.body in B1. simpl in B1.
      destruct (FindFirst _ _ _ _); [discriminate|].
      injection B1 as <-. discriminate. }
  intros H. pose proof (Node_body_Next _ _ B1) as C1. simpl in C1.
  assert (S1 : Node.state l1 = Node.VALUE_START).
  { unfold Node.body in B1. simpl in B1.
    destruct (FindFirst _ _ _ _); [|discriminate]. injection B1 as <-. auto. }
  destruct (List.length sgf) as [|n]; [discriminate|]. simpl in H.
  destruct (Node.body sgf l1) as [l2|r] eqn:B2.
  2:{ unfold Node.body in B2. rewrite S1 in B2.
      destruct (FindFirst _ _ _ _); [discriminate|].
      injection B2 as <-. discriminate. }
  pose proof (Node_body_Next _ _ B2) as C2.
  apply Node_loop_Some in H. lia.
Qed.

Lemma Reach_inv sgf e k l :
  Reach sgf (Some e) k l -> Tree.errors l = Some e /\ root_ok (Tree.heap l).
Proof.
  induction 1 as [|k l l' R [IHe IHr] Hlive B].
  - split; [reflexivity|]. eexists. split; reflexivity.
  - unfold Tree.body in B.
    assert (Hdown : forall h p l',
               root_ok h -> Tree.go_down l h (Some e) p = Next l' ->
               Tree.errors l' = Some e /\ root_ok (Tree.heap l')).
    { intros h p l2 Hh G. unfold Tree.go_down in G.
      pose proof (NewChild_root_ok (Tree.current_tree l) Hh) as Hc.
      destruct (NewChild h (Tree.current_tree l)). injection G as <-. auto. }
    assert (Hup : forall h p l',
               root_ok h -> Tree.go_up l h (Some e) p = Next l' ->
               Tree.errors l' = Some e /\ root_ok (Tree.heap l')).
    { intros h p l2 Hh G. unfold Tree.go_up in G.
      destruct (parent_of h (Tree.current_tree l)); [|discriminate].
      injection G as <-. auto. }
    destruct (Tree.state l); try congruence.
    + destruct (FindFirst _ _ _ _); [|discriminate].
      apply Done_inj in B. rewrite IHe in B. eauto.
    + destruct (FindFirst _ _ _ _); [|discriminate].
      injection B as <-. auto.
    + destruct (ConsumeNode _ _ _ _) as [[[r nd] e']|] eqn:C; [|discriminate].
      destruct r as [p|]; [|discriminate].
      apply Node_loop_Some_errors in C. simpl in C. rewrite IHe in C. subst e'.
      assert (Hh : root_ok (store_back (NewNode (Tree.heap l) (Tree.current_tree l))
                                       (Tree.current_tree l) nd))
        by (apply store_back_root_ok, NewNode_root_ok, IHr).
      destruct (char_is sgf p ";"); [injection B as <-; auto|].
      destruct (char_is sgf p ")"); [apply Done_inj in B; eauto|].
      destruct (char_is sgf p "("); [apply Done_inj in B; eauto|].
      injection B as <-; auto.
    + destruct (FindFirst _ _ _ _) as [p|]; [|injection B as <-; auto].
      rewrite IHe in B.
      destruct (char_is sgf p "("); [apply Done_inj in B; eauto|].
      destruct (char_is sgf p ")"); [apply Done_inj in B; eauto|].
      injection B as <-; auto.
Qed.

Lemma Reach_paced sgf errors k l : Reach sgf errors k l -> paced sgf k l.
Proof.
  induction 1 as [|k l l' R IH Hlive B].
  - unfold paced. simpl. auto.
  - unfold paced in *. unfold Tree.body in B.
    destruct (Tree.state l) eqn:St; try congruence.
    + destruct (FindFirst _ _ _ _) as [p|] eqn:F; [|discriminate].
      apply FindFirst_Some in F. apply Done_inj in B.
      apply go_down_Next in B. destruct B as [-> ->]. lia.
    + destruct (FindFirst _ _ _ _) as [p|] eqn:F; [|discriminate].
      apply FindFirst_Some in F. injection B as <-. simpl. lia.
    + destruct (ConsumeNode _ _ _ _) as [[[r nd] e']|] eqn:C; [|discriminate].
      destruct r as [p|]; [|discriminate].
      pose proof (ConsumeNode_Some_far _ _ _ _ C) as Hfar.
      apply Node_loop_Some in C. simpl in C.
      destruct (char_is sgf p ";"); [injection B as <-; simpl; lia|].
      destruct (char_is sgf p ")").
      { apply Done_inj in B. apply go_up_Next in B. destruct B as [-> ->]. lia. }
      destruct (char_is sgf p "(").
      { apply Done_inj in B. apply go_down_Next in B. destruct B as [-> ->]. lia. }
      injection B as <-; simpl; lia.
    + destruct (FindFirst _ _ _ _) as [p|] eqn:F; [|injection B as <-; simpl; lia].
      apply FindFirst_Some in F.
      destruct (char_is sgf p "(").
      { apply Done_inj in B. apply go_down_Next in B. destruct B as [-> ->]. lia. }
      destruct (char_is sgf p ")").
      { apply Done_inj in B. apply go_up_Next in B. destruct B as [-> ->]. lia. }
      injection B as <-; simpl; lia.
Qed.

Lemma Reach_count sgf errors k l : Reach sgf errors k l -> k <= List.length sgf.
Proof.
  intros R. apply Reach_paced in R. unfold paced in R.
  destruct (Tree.state l); lia.
Qed.



(** *** What the scan walks over *)

Lemma two_step_ind (A : Type) (P : list A -> Prop) :
  P [] ->
  (forall a l, P l -> P (tl l) -> P (a :: l)) ->
  forall l, P l.
Proof.
  intros H0 Hs l. enough (P l /\ P (tl l)) by tauto.
  induction l as [|a l [IH1 IH2]]; simpl; auto.
Qed.

Lemma scan_escape targets ec c rest pos :
  scan targets ec (backslash :: c :: rest) pos false =
  scan targets ec rest (S (S pos)) false.
Proof. reflexivity. Qed.

Lemma scan_skipped targets ec pre rest pos :
  skipped targets pre = true ->
  scan targets ec (pre ++ rest) pos false =
  scan targets ec rest (pos + List.length pre) false.
Proof.
  revert pos. induction pre as [|c pre IH1 IH2] using two_step_ind; intros pos H.
  - simpl. f_equal. lia.
  - simpl in H. destruct (Ascii.eqb c backslash) eqn:Eb.
    + apply Ascii.eqb_eq in Eb. subst c.
      destruct pre as [|c2 pre]; [discriminate|]. simpl in IH2.
      change (scan targets ec (pre ++ rest) (S (S pos)) false =
              scan targets ec rest (pos + List.length (backslash :: c2 :: pre)) false).
      rewrite IH2 by exact H. f_equal. simpl. lia.
    + apply andb_true_iff in H. destruct H as [H Hs].
      apply andb_true_iff in H. destruct H as [Hw Ht].
      apply negb_true_iff in Ht.
      simpl. rewrite Eb, Ht, Hw. rewrite andb_false_r.
      rewrite IH1 by exact Hs. f_equal. simpl. lia.
Qed.

Lemma scan_strict_prefix targets rest pos p :
  scan targets false rest pos false = Some p ->
  skipped targets (firstn (p - pos) rest) = true.
Proof.
  revert pos. induction rest as [|c rest IH1 IH2] using two_step_ind;
    intros pos H.
  - discriminate.
  - simpl in H. destruct (Ascii.eqb c backslash) eqn:Eb.
    + destruct rest as [|c2 rest]; [discriminate|]. simpl in H, IH2.
      pose proof (scan_Some _ _ _ _ _ H) as [Hb _].
      replace (p - pos) with (S (S (p - S (S pos)))) by lia.
      simpl. rewrite Eb. apply IH2. exact H.
    + destruct (sv_contains targets c) eqn:Ht.
      * injection H as <-. rewrite Nat.sub_diag. reflexivity.
      * simpl in H. destruct (ascii_isspace c) eqn:Hw; [|discriminate].
        pose proof (scan_Some _ _ _ _ _ H) as [Hb _].
        replace (p - pos) with (S (p - S pos)) by lia.
        simpl. rewrite Eb, Hw, Ht. simpl. apply IH1. exact H.
Qed.

Lemma skipn_nth_error_cons (A : Type) (l : list A) n x :
  nth_error l n = Some x -> skipn n l = x :: skipn (S n) l.
Proof.
  revert l. induction n as [|n IH]; intros [|y l] H; try discriminate.
  - injection H as ->. reflexivity.
  - simpl in H. apply IH in H. exact H.
Qed.

Lemma FindFirst_escape sgf start targets ec :
  char_at sgf start = Some backslash ->
  FindFirst sgf start targets ec = FindFirst sgf (start + 2) targets ec.
Proof.
  unfold FindFirst, char_at. intros H.
  rewrite (skipn_nth_error_cons _ _ H).
  replace (start + 2) with (S (S start)) by lia.
  destruct (nth_error sgf (S start)) as [c|] eqn:N.
  - rewrite (skipn_nth_error_cons _ _ N). apply scan_escape.
  - apply nth_error_None in N.
    rewrite (skipn_all2 sgf) by lia. rewrite (skipn_all2 sgf) by lia.
    reflexivity.
Qed.

Lemma plain_skipped_by_scan targets pre rest pos :
  plain targets pre ->
  scan targets true (pre ++ rest) pos false =
  scan targets true rest (pos + List.length pre) false.
Proof.
  revert pos. induction pre as [|c pre IH]; intros pos H.
  - simpl. f_equal. lia.
  - inversion H as [|? ? [Hb Ht] Hp]; subst.
    apply Ascii.eqb_neq in Hb. simpl. rewrite Hb, Ht. simpl.
    rewrite IH by exact Hp. f_equal. lia.
Qed.

Lemma append_assoc (a b c : string) : ((a ++ b) ++ c = a ++ (b ++ c))%string.
Proof. induction a as [|x a IH]; simpl; [reflexivity|]. now rewrite IH. Qed.

Lemma Tree_body_Return sgf l r :
  Tree.body sgf l = Done (Return r) -> exists e, r = Tree.Failed e.
Proof.
  unfold Tree.body.
  assert (Hdown : forall h e p, Tree.go_down l h e p <> Return r).
  { intros h e p. unfold Tree.go_down.
    destruct (NewChild h (Tree.current_tree l)). discriminate. }
  assert (Hup : forall h e p,
             Tree.go_up l h e p = Return r -> exists e, r = Tree.Failed e).
  { intros h e p. unfold Tree.go_up.
    destruct (parent_of h (Tree.current_tree l)); [discriminate|].
    intros H. injection H as <-. eauto. }
  destruct (Tree.state l).
  - destruct (FindFirst _ _ _ _); intros H; apply Done_inj in H.
    + apply Hdown in H. contradiction.
    + injection H as <-. eauto.
  - destruct (FindFirst _ _ _ _); intros H; [discriminate|].
    injection H as <-. eauto.
  - destruct (ConsumeNode _ _ _ _) as [[[q nd] e']|]; [|discriminate].
    destruct q as [p|]; [|intros H; injection H as <-; eauto].
    destruct (char_is sgf p ";"); [discriminate|].
    destruct (char_is sgf p ")"); [intros H; apply Done_inj in H; eauto|].
    destruct (char_is sgf p "("); [|discriminate].
    intros H; apply Done_inj in H. apply Hdown in H. contradiction.
  - destruct (FindFirst _ _ _ _) as [p|]; [|discriminate].
    destruct (char_is sgf p "(").
    { intros H; apply Done_inj in H. apply Hdown in H. contradiction. }
    destruct (char_is sgf p ")"); [intros H; apply Done_inj in H; eauto|].
    discriminate.
  - discriminate.
Qed.

(** A run that ends either left through [finish] from a state it reached, or
    left through a [RETURN_IF] of the body. *)
Lemma Tree_loop_Done sgf errors fuel k l r :
  Reach sgf errors k l ->
  Tree.state l <> Tree.END ->
  Tree.loop fuel sgf l = Done r ->
  (exists k' l', Reach sgf errors k' l' /\ Tree.state l' = Tree.END /\
                 r = Tree.finish l') \/
  (exists e, r = Tree.Failed e).
Proof.
  revert k l. induction fuel as [|fuel IH]; intros k l R Hlive H; [discriminate|].
  simpl in H. destruct (Tree.body sgf l) as [[l'|r']|] eqn:B; [| |discriminate].
  - pose proof (Reach_step R Hlive B) as R'.
    destruct (Tree.is_END (Tree.state l')) eqn:E.
    + apply is_END_true in E. injection H as <-. left. eauto.
    + apply is_END_false in E. eapply IH; eauto.
  - injection H as <-. right. eapply Tree_body_Return; eauto.
Qed.

(** C9.  Whenever [ConsumeNode] returns a position [p] other than [npos],
    [p] is strictly inside the buffer and the character at [p] is a
    semicolon, an opening or a closing parenthesis; so the read of [sgf[p]]
    that the tree builder makes right after the call is in bounds. *)
Theorem ConsumeNode_returns_delimiter sgf start node errors p node' errors' :
  ConsumeNode sgf start node errors = Done (Some p, node', errors') ->
  p < List.length sgf /\
  (char_at sgf p = Some ";"%char \/ char_at sgf p = Some "("%char \/
   char_at sgf p = Some ")"%char).
Proof.
  intros H. apply Node_loop_Some in H. destruct H as [Hb Hc].
  split; [lia|exact Hc].
Qed.

Lemma ConsumeNode_returns_delimiter_witness :
  5 < List.length (sv ";A[b])") /\
  (char_at (sv ";A[b])") 5 = Some ";"%char \/
   char_at (sv ";A[b])") 5 = Some "("%char \/
   char_at (sv ";A[b])") 5 = Some ")"%char).
Proof.
  apply (@ConsumeNode_returns_delimiter (sv ";A[b])") 1 [] None 5
           [prop "A" ["b"%string]] None).
  reflexivity.
Defined.

(** C6, as amended.  For every input the node consumer and the tree builder
    terminate (neither loop runs out of its fuel of one iteration per
    character plus one).  Every transition of the node consumer strictly
    advances the cursor, and so does every transition of the tree builder
    into a state other than END; the one transition into END, taken from
    NEXT_TREE when no parenthesis is found, stores [npos + 1], that is 0, in
    the cursor.  The number of transitions of a run is at most the length of
    the input. *)
Theorem parse_terminates sgf :
  (forall start node errors, exists r, ConsumeNode sgf start node errors = Done r) /\
  (forall errors, exists r, ParseToCollection sgf errors = Done r) /\
  (forall l l', Node.body sgf l = Next l' ->
                Node.cursor l < Node.cursor l' <= List.length sgf) /\
  (forall l l', Tree.state l <> Tree.END ->
                Tree.body sgf l = Done (Next l') ->
                Tree.state l' <> Tree.END ->
                Tree.cursor l < Tree.cursor l' <= List.length sgf) /\
  (forall l l', Tree.state l <> Tree.END ->
                Tree.body sgf l = Done (Next l') ->
                Tree.state l' = Tree.END ->
                Tree.state l = Tree.NEXT_TREE /\ Tree.cursor l' = 0) /\
  (forall errors k l, Reach sgf errors k l -> k <= List.length sgf).
Proof.
  repeat split.
  - intros. apply ConsumeNode_total.
  - intros. apply ParseToCollection_total.
  - apply (Node_body_Next _ _ H).
  - apply (Node_body_Next _ _ H).
  - destruct (Tree_body_Next _ _ H0 H) as [[_ Hc]|[_ [HE _]]]; [lia|congruence].
  - destruct (Tree_body_Next _ _ H0 H) as [[_ Hc]|[_ [HE _]]]; [lia|congruence].
  - destruct (Tree_body_Next _ _ H0 H) as [[HE _]|[Hs _]]; [congruence|exact Hs].
  - destruct (Tree_body_Next _ _ H0 H) as [[HE _]|[_ [_ Hc]]]; [congruence|exact Hc].
  - intros. eapply Reach_count; eauto.
Qed.

(** *** Depth of the current tree *)

Lemma nth_error_update h q f p :
  nth_error (update h q f) p =
  if p =? q then option_map f (nth_error h p) else nth_error h p.
Proof.
  revert q p. induction h as [|t h IH]; intros q p; simpl.
  - destruct p; destruct (_ =? _); reflexivity.
  - destruct q, p; simpl; try reflexivity. apply IH.
Qed.

Lemma length_update h q f : List.length (update h q f) = List.length h.
Proof.
  revert q. induction h as [|t h IH]; intros [|q]; simpl; auto.
Qed.

Lemma Depth_lt h p d : Depth h p d -> p < List.length h.
Proof.
  intros D. destruct D as [t Ht _|c t up d Ht _ _];
    apply nth_error_Some; congruence.
Qed.














Ltac reach :=
  lazymatch goal with
  | |- Reach _ _ 0 _ => apply Reach_init
  | |- Reach _ _ (S _) _ =>
      eapply Reach_step; [reach | discriminate | vm_compute; reflexivity]
  end.



(** Stray text ends the NEXT_TREE scan: what follows it is not read. *)
Example stray_text_ends_the_scan errors :
  ParseToCollection (sv "(;A[b]) x )") errors =
  Done (Tree.Parsed [1]
          [mkGameTree None [] [1];
           mkGameTree (Some 0) [[prop "A" ["b"%string]]] []]
          errors).
Proof. reflexivity. Qed.

Lemma cursor_wraps_at_END :
  exists l l',
    Reach (sv "(;A[b])") None 3 l /\
    Tree.state l = Tree.NEXT_TREE /\
    Tree.body (sv "(;A[b])") l = Done (Next l') /\
    Tree.state l' = Tree.END /\
    Tree.cursor l = 7 /\ Tree.cursor l' = 0.
Proof.
  eexists. eexists. split; [reach|].
  repeat split.
Qed.

(** C1.  On the one-line record of the specification, tree parsing succeeds
    with exactly one root tree (the tree at address 1), which has no children
    and four nodes; node 0 holds FF [4], SZ [19], AB [bd, be, af], AW [aa, ab]
    and AB [cc], in this order: bracket groups that follow one another extend
    the same property, the identifier stated again starts a new one. *)
Theorem simple_record_tree errors :
  exists trees t,
    ParseToCollection kSimple errors = Done (Tree.Parsed [1] trees errors) /\
    nth_error trees 1 = Some t /\
    children t = [] /\
    List.length (sequence t) = 4 /\
    nth_error (sequence t) 0 =
    Some [prop "FF" ["4"%string]; prop "SZ" ["19"%string];
          prop "AB" ["bd"; "be"; "af"]%string; prop "AW" ["aa"; "ab"]%string;
          prop "AB" ["cc"%string]].
Proof.
  eexists. eexists. split; [vm_compute; reflexivity|].
  repeat split.
Qed.

Example test_input_tree errors :
  ParseToCollection kInput errors =
  Done (Tree.Parsed [1]
          [mkGameTree None [] [1];
           mkGameTree (Some 0)
             [[prop "FF" ["4"%string]; prop "SZ" ["19"%string];
               prop "AB" ["bd"; "be"; "af"]%string;
               prop "AW" ["aa"; "ab"]%string; prop "AB" ["cc"%string]];
              [prop "B" ["ce"%string]]; [prop "W" ["gg"%string]];
              [prop "B" ["cf"%string]]]
             []]
          errors).
Proof. vm_compute. reflexivity. Qed.

(** C7.  Tree parsing of two line breaks followed by a semicolon fails with
    diagnostics that contain the words tree start; tree parsing of an opening
    parenthesis followed by the letter a, a semicolon and a closing
    parenthesis fails with diagnostics that contain the words node start. *)
Theorem bad_starts_reported e :
  (exists e',
      ParseToCollection [newline; newline; ";"%char] (Some e)
      = Done (Tree.Failed (Some e')) /\
      HasSubstr "tree start" e') /\
  (exists e',
      ParseToCollection (sv "(a;)") (Some e) = Done (Tree.Failed (Some e')) /\
      HasSubstr "node start" e').
Proof.
  split.
  - exists (e ++ "Failed in finding a tree start." ++ String newline EmptyString)%string.
    split; [reflexivity|].
    exists (e ++ "Failed in finding a ")%string, ("." ++ String newline EmptyString)%string.
    rewrite append_assoc. reflexivity.
  - exists (e ++ "Failed in finding a node start." ++ String newline EmptyString)%string.
    split; [reflexivity|].
    exists (e ++ "Failed in finding a ")%string, ("." ++ String newline EmptyString)%string.
    rewrite append_assoc. reflexivity.
Qed.



Example escape_before_first_node errors :
  ParseToCollection (sv "(\a;A[b])") errors =
  Done (Tree.Parsed [1]
          [mkGameTree None [] [1];
           mkGameTree (Some 0) [[prop "A" ["b"%string]]] []]
          errors).
Proof. reflexivity. Qed.

(** C4.  A backslash met by the scan escapes exactly the character after it:
    the scan resumes two characters on, no longer escaping, so the escaped
    character is never returned; hence a value that contains an escaped
    closing bracket runs up to the next closing bracket that is not escaped,
    and is stored with its backslash. *)
Theorem backslash_escapes_one_character :
  (forall targets ec c rest pos,
      scan targets ec (backslash :: c :: rest) pos false =
      scan targets ec rest (S (S pos)) false) /\
  (forall sgf start targets ec,
      char_at sgf start = Some backslash ->
      FindFirst sgf start targets ec = FindFirst sgf (start + 2) targets ec) /\
  (forall sgf start targets ec p,
      char_at sgf start = Some backslash ->
      FindFirst sgf start targets ec = Some p ->
      start + 2 <= p) /\
  (forall sgf cursor pre post tail node errors,
      skipn cursor sgf = pre ++ backslash :: "]"%char :: post ++ "]"%char :: tail ->
      plain (sv "]") pre ->
      plain (sv "]") post ->
      Node.body sgf (Node.mkLoop Node.VALUE_START cursor node errors) =
      Next (Node.mkLoop Node.NEXT_VALUE
              (cursor + List.length (pre ++ backslash :: "]"%char :: post) + 1)
              (push_value node (pre ++ backslash :: "]"%char :: post))
              errors)) /\
  (forall errors,
      ParseToCollection (sv "(;C[a\]b])") errors =
      Done (Tree.Parsed [1]
              [mkGameTree None [] [1];
               mkGameTree (Some 0) [[prop "C" ["a\]b"%string]]] []]
              errors)).
Proof.
  split; [|split; [|split; [|split]]].
  - intros. apply scan_escape.
  - intros. apply FindFirst_escape. assumption.
  - intros sgf start targets ec p Hc H.
    rewrite (@FindFirst_escape sgf start targets ec Hc) in H. apply FindFirst_Some in H. lia.
  - intros sgf cursor pre post tail node errors Hs Hpre Hpost.
    unfold Node.body. simpl Node.state. cbv iota. simpl Node.cursor.
    assert (F : FindFirst sgf cursor (sv "]") true =
                Some (cursor + List.length (pre ++ backslash :: "]"%char :: post))).
    { unfold FindFirst. rewrite Hs.
      rewrite plain_skipped_by_scan by exact Hpre.
      rewrite scan_escape.
      rewrite plain_skipped_by_scan by exact Hpost.
      simpl. f_equal. rewrite List.length_app. simpl. lia. }
    rewrite F. simpl Node.node. simpl Node.errors. do 3 f_equal.
    unfold substr. rewrite Hs.
    replace (cursor + List.length (pre ++ backslash :: "]"%char :: post) - cursor)
      with (List.length (pre ++ backslash :: "]"%char :: post) + 0) by lia.
    change (pre ++ backslash :: "]"%char :: post ++ "]"%char :: tail)
      with (pre ++ (backslash :: "]"%char :: post) ++ "]"%char :: tail).
    rewrite app_assoc. rewrite firstn_app_2. simpl. rewrite app_nil_r. reflexivity.
  - intros. reflexivity.
Qed.

(** *** Identifiers and blanks *)

Lemma isspace_not_special c :
  ascii_isspace c = true ->
  Ascii.eqb c backslash = false /\ sv_contains (sv "[") c = false.
Proof.
  destruct c as [[] [] [] [] [] [] [] []]; vm_compute; intros H;
    try discriminate; auto.
Qed.

Lemma blanks_skipped ws :
  forallb ascii_isspace ws = true -> skipped (sv "[") ws = true.
Proof.
  induction ws as [|c ws IH]; [reflexivity|].
  intros H. simpl in H. apply andb_true_iff in H. destruct H as [Hc Hw].
  destruct (isspace_not_special _ Hc) as [Hb Ht].
  cbn [skipped]. rewrite Hb, Hc, Ht. simpl. auto.
Qed.

Lemma blanks_stripped ws :
  forallb ascii_isspace ws = true -> StripLeadingAsciiWhitespace ws = [].
Proof.
  induction ws as [|c ws IH]; simpl; [reflexivity|].
  intros H. apply andb_true_iff in H. destruct H as [Hc Hw].
  rewrite Hc. auto.
Qed.

Lemma NewProperty_first_id gap node :
  first_id_empty node -> first_id_empty (NewProperty gap node).
Proof. intros [vals [more ->]]. exists vals. eexists. reflexivity. Qed.

Lemma push_value_first_id node v :
  first_id_empty node -> first_id_empty (push_value node v).
Proof.
  intros [vals [more ->]]. unfold push_value. simpl.
  destruct (rev more) as [|q before] eqn:R; simpl.
  - eexists. exists []. reflexivity.
  - rewrite rev_app_distr. simpl. eexists. eexists. reflexivity.
Qed.

Lemma Node_body_first_id sgf l :
  first_id_empty (Node.node l) ->
  match Node.body sgf l with
  | Next l' => first_id_empty (Node.node l')
  | Return (_, nd, _) => first_id_empty nd
  end.
Proof.
  intros H. unfold Node.body. destruct (Node.state l).
  - destruct (FindFirst _ _ _ _); simpl; auto using NewProperty_first_id.
  - destruct (FindFirst _ _ _ _); simpl; auto using push_value_first_id.
  - destruct (FindFirst _ _ _ _) as [p|]; simpl; auto.
    destruct (char_is sgf p "["); simpl.
    + destruct (SubstrAndStripWhitespace _ _ _); auto using NewProperty_first_id.
    + destruct (SubstrAndStripWhitespace _ _ _); simpl; auto.
Qed.

Lemma Node_loop_first_id sgf fuel l r nd e :
  first_id_empty (Node.node l) ->
  Node.loop fuel sgf l = Done (r, nd, e) ->
  first_id_empty nd.
Proof.
  revert l. induction fuel as [|fuel IH]; intros l Hl H; [discriminate|].
  simpl in H. pose proof (Node_body_first_id sgf l Hl) as B.
  destruct (Node.body sgf l) as [l'|[[r' nd'] e']].
  - eapply IH; eauto.
  - injection H as _ <- _. exact B.
Qed.

Lemma Node_body_blank_identifier sgf start ws rest node errors :
  skipn start sgf = ws ++ "["%char :: rest ->
  forallb ascii_isspace ws = true ->
  Node.body sgf (Node.mkLoop Node.NODE_START start node errors) =
  Next (Node.mkLoop Node.VALUE_START (start + List.length ws + 1)
                    (NewProperty [] node) errors).
Proof.
  intros Hs Hw. unfold Node.body. simpl Node.state. cbv iota. simpl Node.cursor.
  assert (F : FindFirst sgf start (sv "[") true = Some (start + List.length ws)).
  { unfold FindFirst. rewrite Hs.
    rewrite scan_skipped by (apply blanks_skipped; exact Hw). reflexivity. }
  rewrite F. simpl Node.node. simpl Node.errors. do 3 f_equal.
  unfold SubstrAndStripWhitespace, substr. rewrite Hs.
  replace (start + List.length ws - start) with (List.length ws + 0) by lia.
  rewrite firstn_app_2. simpl. rewrite app_nil_r.
  rewrite blanks_stripped by exact Hw. reflexivity.
Qed.

(** C10.  The empty identifier is accepted: the text that opens a node with
    a bracketed value and no identifier parses, and its first property has
    the empty identifier; in general, when only whitespace stands between the
    start of a node and an opening bracket, the first property pushed has the
    empty identifier, and it stays first in whatever node [ConsumeNode]
    leaves. *)
Theorem empty_identifier_accepted :
  (forall errors,
      ParseToCollection (sv "(;[v])") errors =
      Done (Tree.Parsed [1]
              [mkGameTree None [] [1];
               mkGameTree (Some 0) [[mkProperty [] [sv "v"]]] []]
              errors)) /\
  (forall sgf start ws rest node errors,
      skipn start sgf = ws ++ "["%char :: rest ->
      forallb ascii_isspace ws = true ->
      Node.body sgf (Node.mkLoop Node.NODE_START start node errors) =
      Next (Node.mkLoop Node.VALUE_START (start + List.length ws + 1)
                        (NewProperty [] node) errors)) /\
  (forall sgf start ws rest errors r node errors',
      skipn start sgf = ws ++ "["%char :: rest ->
      forallb ascii_isspace ws = true ->
      ConsumeNode sgf start [] errors = Done (r, node, errors') ->
      exists vals more, node = mkProperty [] vals :: more).
Proof.
  split; [|split].
  - intros. reflexivity.
  - intros. eapply Node_body_blank_identifier; eauto.
  - intros sgf start ws rest errors r node errors' Hs Hw H.
    unfold ConsumeNode in H. simpl in H.
    rewrite (@Node_body_blank_identifier sgf start ws rest [] errors Hs Hw) in H.
    eapply Node_loop_first_id in H; [exact H|].
    simpl. exists [], []. reflexivity.
Qed.

Example empty_identifier_after_blanks errors :
  ParseToCollection (sv "(;  [v]AB[cc])") errors =
  Done (Tree.Parsed [1]
          [mkGameTree None [] [1];
           mkGameTree (Some 0)
             [[mkProperty [] [sv "v"]; prop "AB" ["cc"%string]]] []]
          errors).
Proof. reflexivity. Qed.

(** ** The record extractor *)

Lemma sv_eqb_eq a b : sv_eqb a b = true <-> a = b.
Proof.
  revert b. induction a as [|x a IH]; intros [|y b]; simpl;
    try (split; [discriminate|congruence]); [tauto|].
  rewrite andb_true_iff, Ascii.eqb_eq, IH. split.
  - intros [-> ->]. reflexivity.
  - intros H. injection H as -> ->. auto.
Qed.

Lemma sv_eqb_neq a b : a <> b -> sv_eqb a b = false.
Proof.
  intros H. destruct (sv_eqb a b) eqn:E; [|reflexivity].
  apply sv_eqb_eq in E. contradiction.
Qed.

Ltac in_recognized := repeat (first [left; reflexivity | right]).

Section ExtractorFacts.

Variable float : Type.
Variable SimpleAtoi : string_view -> option Z.
Variable SimpleAtof : string_view -> bool * float.
Variable float_neg : float -> float.
Variable float_1_2 : float.
Variable float_minus_1_2 : float.
Variable float_6_5 : float.

(** C8.  For a property whose upper-cased identifier is none of the
    recognized ones, both copies of [HandleProperty] return [true], leave the
    record and the diagnostics as they were, and, when a list of unparsed
    properties is supplied, append to it the upper-cased identifier paired
    with the values joined by commas. *)
Theorem unknown_property_collected
        (prop : Property) (record : GameRecord float) (unparsed : Unparsed)
        (errors : option string) :
  ~ In (AsciiStrToUpper (id prop)) recognized ->
  HandleProperty SimpleAtoi SimpleAtof float_neg float_1_2 float_minus_1_2
                 prop record unparsed errors
  = (true, record,
     option_map
       (fun u => u ++ [(AsciiStrToUpper (id prop),
                        StrJoin (values prop) (sv ","))])
       unparsed,
     errors)
  /\
  Later.HandleProperty SimpleAtoi SimpleAtof float_neg float_1_2 float_minus_1_2
                       float_6_5 prop record unparsed errors
  = (true, record,
     option_map
       (fun u => u ++ [(AsciiStrToUpper (id prop),
                        StrJoin (values prop) (sv ","))])
       unparsed,
     errors).
Proof.
  intros Hn.
  assert (E : forall s, In s recognized ->
                        sv_eqb (AsciiStrToUpper (id prop)) s = false).
  { intros s Hs. apply sv_eqb_neq. intros Heq. subst s. contradiction. }
  unfold HandleProperty, Later.HandleProperty.
  cbv zeta.
  rewrite !E by in_recognized.
  unfold handle_unknown. simpl.
  destruct unparsed; split; reflexivity.
Qed.

(** The later copy of the function decodes RE as the specification words it. *)
Lemma Later_RE_decoding
      (ident v : string_view) (record : GameRecord float) (unparsed : Unparsed)
      (errors : option string) :
  AsciiStrToUpper ident = sv "RE" ->
  match decode_RE SimpleAtof float_neg float_1_2 float_minus_1_2 v record with
  | Some record' =>
      Later.HandleProperty SimpleAtoi SimpleAtof float_neg float_1_2
        float_minus_1_2 float_6_5 (mkProperty ident [v]) record unparsed errors
      = (true, record', unparsed, errors)
  | None =>
      exists msg,
        Later.HandleProperty SimpleAtoi SimpleAtof float_neg float_1_2
          float_minus_1_2 float_6_5 (mkProperty ident [v]) record unparsed errors
        = (false, record, unparsed, LOG_ERROR msg errors)
  end.
Proof.
  intros Hid. unfold Later.HandleProperty, decode_RE. cbv zeta.
  cbn [id values one_value]. rewrite Hid.
  change (sv_eqb (sv "RE") (sv "SZ")) with false.
  change (sv_eqb (sv "RE") (sv "HA")) with false.
  change (sv_eqb (sv "RE") (sv "TM")) with false.
  change (sv_eqb (sv "RE") (sv "KM")) with false.
  change (sv_eqb (sv "RE") (sv "RU")) with false.
  change (sv_eqb (sv "RE") (sv "PB")) with false.
  change (sv_eqb (sv "RE") (sv "BT")) with false.
  change (sv_eqb (sv "RE") (sv "PW")) with false.
  change (sv_eqb (sv "RE") (sv "WT")) with false.
  change (sv_eqb (sv "RE") (sv "BR")) with false.
  change (sv_eqb (sv "RE") (sv "WR")) with false.
  change (sv_eqb (sv "RE") (sv "DT")) with false.
  change (sv_eqb (sv "RE") (sv "RE")) with true.
  cbv iota. cbn [orb].
  change (substr (AsciiStrToUpper v) 0 3) with (firstn 3 (AsciiStrToUpper v)).
  cbn [existsb].
  set (re := AsciiStrToUpper v).
  destruct (sv_eqb (firstn 3 re) (sv "B+R")); [reflexivity|].
  destruct (sv_eqb (firstn 3 re) (sv "B+T")); [reflexivity|].
  destruct (sv_eqb (firstn 3 re) (sv "B+F")); [reflexivity|].
  cbn [orb].
  destruct (sv_eqb (firstn 3 re) (sv "W+R")); [reflexivity|].
  destruct (sv_eqb (firstn 3 re) (sv "W+T")); [reflexivity|].
  destruct (sv_eqb (firstn 3 re) (sv "W+F")); [reflexivity|].
  cbn [orb].
  destruct (Nat.leb_spec 3 (List.length re)) as [Hlen|Hlen];
    destruct (Nat.ltb_spec (List.length re) 3) as [Hlt|Hlt]; try lia.
  - destruct (SimpleAtof (skipn 2 re)) as [[|] margin]; cbn [negb].
    + destruct re as [|c re']; [unfold fail; eauto|].
      destruct c as [[] [] [] [] [] [] [] []]; try reflexivity;
        unfold fail; eauto.
    + unfold fail. destruct re as [|c re']; [eauto|].
      destruct c as [[] [] [] [] [] [] [] []]; eauto.
  - unfold fail. eauto.
Qed.

(** C2.  On the RE value B+T (a win by time) the decoding worded by the
    specification gives the positive sentinel and sets [resigned], and so
    does the later copy of [HandleProperty]; the [HandleProperty] of
    [sgf_parser/parser.cc] knows only the resignation prefixes, hands the
    suffix T to [SimpleAtof] and fails when that rejects it. *)
Theorem parser_cc_rejects_win_by_time
        (record : GameRecord float) (unparsed : Unparsed)
        (errors : option string) :
  fst (SimpleAtof (sv "T")) = false ->
  decode_RE SimpleAtof float_neg float_1_2 float_minus_1_2 (sv "B+T") record
  = Some (set_resigned (set_result record float_1_2) true)
  /\
  Later.HandleProperty SimpleAtoi SimpleAtof float_neg float_1_2 float_minus_1_2
                       float_6_5 (prop "RE" ["B+T"%string]) record unparsed errors
  = (true, set_resigned (set_result record float_1_2) true, unparsed, errors)
  /\
  HandleProperty SimpleAtoi SimpleAtof float_neg float_1_2 float_minus_1_2
                 (prop "RE" ["B+T"%string]) record unparsed errors
  = (false, record, unparsed, LOG_ERROR "Bad result (RU) value." errors).
Proof.
  intros Hbad. split; [reflexivity|]. split; [reflexivity|].
  unfold HandleProperty. cbv zeta.
  change (AsciiStrToUpper (id (prop "RE" ["B+T"%string]))) with (sv "RE").
  change (values (prop "RE" ["B+T"%string])) with [sv "B+T"].
  cbn [one_value].
  change (AsciiStrToUpper (sv "B+T")) with (sv "B+T").
  change (skipn 2 (sv "B+T")) with (sv "T").
  destruct (SimpleAtof (sv "T")) as [parsed score]. simpl in Hbad. subst parsed.
  reflexivity.
Qed.

End ExtractorFacts.

Lemma unknown_property_collected_witness :
  Decimal.HandleProperty (prop "gc" ["a"; "b"]%string) Decimal.GameRecord_new
                         (Some []) None
  = (true, Decimal.GameRecord_new, Some [(sv "GC", sv "a,b")], None)
  /\
  Decimal.HandleProperty_later (prop "gc" ["a"; "b"]%string)
                               Decimal.GameRecord_new (Some []) None
  = (true, Decimal.GameRecord_new, Some [(sv "GC", sv "a,b")], None).
Proof.
  apply (@unknown_property_collected Decimal.t Decimal.SimpleAtoi
           Decimal.SimpleAtof Decimal.neg (Decimal.mk 12 1) (Decimal.mk (-12) 1)
           (Decimal.mk 65 1) (prop "gc" ["a"; "b"]%string)
           Decimal.GameRecord_new (Some []) None).
  vm_compute. intros H.
  repeat (destruct H as [H|H]; [discriminate|]). exact H.
Defined.

Lemma parser_cc_rejects_win_by_time_witness :
  decode_RE Decimal.SimpleAtof Decimal.neg (Decimal.mk 12 1) (Decimal.mk (-12) 1)
            (sv "B+T") Decimal.GameRecord_new
  = Some (set_resigned (set_result Decimal.GameRecord_new (Decimal.mk 12 1)) true)
  /\
  Decimal.HandleProperty_later (prop "RE" ["B+T"%string]) Decimal.GameRecord_new
                               None (Some ""%string)
  = (true, set_resigned (set_result Decimal.GameRecord_new (Decimal.mk 12 1)) true,
     None, Some ""%string)
  /\
  Decimal.HandleProperty (prop "RE" ["B+T"%string]) Decimal.GameRecord_new
                         None (Some ""%string)
  = (false, Decimal.GameRecord_new, None,
     LOG_ERROR "Bad result (RU) value." (Some ""%string)).
Proof.
  apply (@parser_cc_rejects_win_by_time Decimal.t Decimal.SimpleAtoi
           Decimal.SimpleAtof Decimal.neg (Decimal.mk 12 1) (Decimal.mk (-12) 1)
           (Decimal.mk 65 1) Decimal.GameRecord_new None (Some ""%string)).
  reflexivity.
Defined.

(** The three values named by the specification, in both copies of the
    function. *)
Example RE_examples :
  Decimal.HandleProperty_later (prop "RE" ["B+3.5"%string])
                               Decimal.GameRecord_new None None
  = (true, set_result Decimal.GameRecord_new (Decimal.mk 35 1), None, None)
  /\
  Decimal.HandleProperty_later (prop "RE" ["W+R"%string])
                               Decimal.GameRecord_new None None
  = (true,
     set_resigned (set_result Decimal.GameRecord_new (Decimal.mk (-12) 1)) true,
     None, None)
  /\
  fst (fst (fst (Decimal.HandleProperty_later (prop "RE" ["X+5"%string])
                                              Decimal.GameRecord_new None None)))
  = false
  /\
  Decimal.HandleProperty (prop "RE" ["B+3.5"%string])
                         Decimal.GameRecord_new None None
  = (true, set_result Decimal.GameRecord_new (Decimal.mk 35 1), None, None)
  /\
  Decimal.HandleProperty (prop "RE" ["W+R"%string])
                         Decimal.GameRecord_new None None
  = (true,
     set_resigned (set_result Decimal.GameRecord_new (Decimal.mk (-12) 1)) true,
     None, None)
  /\
  fst (fst (fst (Decimal.HandleProperty (prop "RE" ["X+5"%string])
                                        Decimal.GameRecord_new None None)))
  = false.
Proof. repeat split. Qed.

(** * Further properties *)

(** ** The scanner, in both modes *)

Lemma skipped_passed targets s : skipped targets s = true -> passed targets s = true.
Proof.
  induction s as [|c s IH1 IH2] using two_step_ind; [reflexivity|].
  simpl. destruct (Ascii.eqb c backslash).
  - destruct s as [|c2 s]; [discriminate|]. exact IH2.
  - intros H. apply andb_true_iff in H. destruct H as [H Hs].
    apply andb_true_iff in H. destruct H as [_ Ht].
    rewrite Ht. simpl. auto.
Qed.

Lemma scan_passed targets pre rest pos :
  passed targets pre = true ->
  scan targets true (pre ++ rest) pos false =
  scan targets true rest (pos + List.length pre) false.
Proof.
  revert pos. induction pre as [|c pre IH1 IH2] using two_step_ind; intros pos H.
  - simpl. f_equal. lia.
  - simpl in H. destruct (Ascii.eqb c backslash) eqn:Eb.
    + apply Ascii.eqb_eq in Eb. subst c.
      destruct pre as [|c2 pre]; [discriminate|]. simpl in IH2.
      change (scan targets true (pre ++ rest) (S (S pos)) false =
              scan targets true rest (pos + List.length (backslash :: c2 :: pre)) false).
      rewrite IH2 by exact H. f_equal. simpl. lia.
    + apply andb_true_iff in H. destruct H as [Ht Hs].
      apply negb_true_iff in Ht.
      simpl. rewrite Eb, Ht. simpl.
      rewrite IH1 by exact Hs. f_equal. simpl. lia.
Qed.

Lemma scan_walked ec targets pre rest pos :
  walked ec targets pre = true ->
  scan targets ec (pre ++ rest) pos false =
  scan targets ec rest (pos + List.length pre) false.
Proof.
  destruct ec; simpl; [apply scan_passed|apply scan_skipped].
Qed.

Lemma scan_lenient_prefix targets rest pos p :
  scan targets true rest pos false = Some p ->
  passed targets (firstn (p - pos) rest) = true.
Proof.
  revert pos. induction rest as [|c rest IH1 IH2] using two_step_ind;
    intros pos H.
  - discriminate.
  - simpl in H. destruct (Ascii.eqb c backslash) eqn:Eb.
    + destruct rest as [|c2 rest]; [discriminate|]. simpl in H, IH2.
      pose proof (scan_Some _ _ _ _ _ H) as [Hb _].
      replace (p - pos) with (S (S (p - S (S pos)))) by lia.
      simpl. rewrite Eb. apply IH2. exact H.
    + destruct (sv_contains targets c) eqn:Ht.
      * injection H as <-. rewrite Nat.sub_diag. reflexivity.
      * simpl in H.
        pose proof (scan_Some _ _ _ _ _ H) as [Hb _].
        replace (p - pos) with (S (p - S pos)) by lia.
        simpl. rewrite Eb, Ht. simpl. apply IH1. exact H.
Qed.

Lemma scan_walked_prefix ec targets rest pos p :
  scan targets ec rest pos false = Some p ->
  walked ec targets (firstn (p - pos) rest) = true.
Proof.
  destruct ec; simpl; [apply scan_lenient_prefix|apply scan_strict_prefix].
Qed.

(** The character the scan stops on was read outside an escape: it is no
    backslash, whatever [targets] holds. *)
Lemma scan_Some_not_backslash targets ec rest pos esc p :
  scan targets ec rest pos esc = Some p ->
  nth_error rest (p - pos) <> Some backslash.
Proof.
  revert pos esc.
  induction rest as [|cur rest IH]; intros pos esc H; simpl in H.
  - discriminate.
  - assert (Hrec : forall e, scan targets ec rest (S pos) e = Some p ->
                             nth_error (cur :: rest) (p - pos) <> Some backslash).
    { intros e He. pose proof (scan_Some _ _ _ _ _ He) as [Hb _].
      apply IH in He. replace (p - pos) with (S (p - S pos)) by lia. exact He. }
    destruct esc; [eauto|].
    destruct (Ascii.eqb cur backslash) eqn:Eb; [eauto|].
    destruct (sv_contains targets cur) eqn:Ht.
    + injection H as <-. rewrite Nat.sub_diag. simpl.
      apply Ascii.eqb_neq in Eb. congruence.
    + destruct (negb ec && negb (ascii_isspace cur)); [discriminate|eauto].
Qed.

Lemma FindFirst_iff sgf start targets expect_contents p :
  FindFirst sgf start targets expect_contents = Some p <->
  exists pre c rest,
    skipn start sgf = pre ++ c :: rest /\
    walked expect_contents targets pre = true /\
    c <> backslash /\
    sv_contains targets c = true /\
    p = start + List.length pre.
Proof.
  unfold FindFirst. split.
  - intros H.
    pose proof (scan_Some _ _ _ _ _ H) as [Hb [c [Hc Ht]]].
    pose proof (scan_Some_not_backslash _ _ _ _ _ H) as Hnb.
    pose proof (scan_walked_prefix _ _ _ _ H) as Hw.
    exists (firstn (p - start) (skipn start sgf)), c,
           (skipn (S (p - start)) (skipn start sgf)).
    repeat split; auto.
    + symmetry. apply firstn_skipn_middle. exact Hc.
    + congruence.
    + rewrite length_firstn.
      assert (p - start < List.length (skipn start sgf))
        by (apply nth_error_Some; congruence).
      lia.
  - intros [pre [c [rest [Hs [Hw [Hb [Ht ->]]]]]]].
    rewrite Hs, scan_walked by exact Hw. simpl.
    apply Ascii.eqb_neq in Hb. rewrite Hb, Ht. reflexivity.
Qed.

(** X1.  FindFirst returns the position p exactly when the text from start
    is a stretch the scan walks over followed, at p, by a character of targets
    that is not a backslash.  In contents mode the scan walks over any
    character outside targets and over a backslash with the character after
    it; in strict mode the characters outside an escape must moreover be
    whitespace. *)
Theorem FindFirst_stops_on_first_unescaped_target
        sgf start targets expect_contents p :
  FindFirst sgf start targets expect_contents = Some p <->
  exists pre c rest,
    skipn start sgf = pre ++ c :: rest /\
    walked expect_contents targets pre = true /\
    c <> backslash /\
    sv_contains targets c = true /\
    p = start + List.length pre.
Proof. apply FindFirst_iff. Qed.

(** X2.  Whatever position FindFirst finds in strict mode it also finds in
    contents mode, from the same start and for the same targets. *)
Theorem strict_result_is_lenient_result sgf start targets p :
  FindFirst sgf start targets false = Some p ->
  FindFirst sgf start targets true = Some p.
Proof.
  intros H. apply FindFirst_iff in H.
  destruct H as [pre [c [rest [Hs [Hw [Hb [Ht Hp]]]]]]].
  apply FindFirst_iff. exists pre, c, rest. repeat split; auto.
  simpl in *. apply skipped_passed. exact Hw.
Qed.

Lemma strict_result_is_lenient_result_witness :
  FindFirst (sv "  (;A[b])") 0 (sv "(") true = Some 2.
Proof.
  apply (@strict_result_is_lenient_result (sv "  (;A[b])") 0 (sv "(") 2).
  reflexivity.
Defined.

(** ** Stripping *)

Lemma StripLeading_split s :
  exists a, s = a ++ StripLeadingAsciiWhitespace s /\
            forallb ascii_isspace a = true /\
            starts_blank (StripLeadingAsciiWhitespace s) = false.
Proof.
  induction s as [|c s [a [Hs [Ha Hb]]]].
  - exists []. auto.
  - simpl. destruct (ascii_isspace c) eqn:E.
    + exists (c :: a). simpl. rewrite E, Ha. repeat split; auto.
      f_equal. exact Hs.
    + exists []. simpl. auto.
Qed.

Lemma starts_blank_app a b :
  a <> [] -> starts_blank (a ++ b) = starts_blank a.
Proof. destruct a; [congruence|reflexivity]. Qed.

Lemma forallb_rev (A : Type) (f : A -> bool) l :
  forallb f (rev l) = forallb f l.
Proof.
  induction l as [|x l IH]; [reflexivity|].
  simpl. rewrite forallb_app, IH. simpl. rewrite andb_true_r. apply andb_comm.
Qed.

Lemma Strip_both_split s :
  exists a b,
    s = a ++ StripTrailingAsciiWhitespace (StripLeadingAsciiWhitespace s) ++ b /\
    forallb ascii_isspace a = true /\
    forallb ascii_isspace b = true /\
    trimmed (StripTrailingAsciiWhitespace (StripLeadingAsciiWhitespace s)).
Proof.
  destruct (StripLeading_split s) as [a [Hs [Ha Hlead]]].
  set (r1 := StripLeadingAsciiWhitespace s) in *.
  destruct (StripLeading_split (rev r1)) as [b' [Hr [Hb Htrail]]].
  unfold StripTrailingAsciiWhitespace.
  set (r2 := StripLeadingAsciiWhitespace (rev r1)) in *.
  assert (E1 : r1 = rev r2 ++ rev b').
  { rewrite <- (rev_involutive r1), Hr, rev_app_distr. reflexivity. }
  exists a, (rev b'). repeat split.
  - rewrite Hs at 1. f_equal. exact E1.
  - exact Ha.
  - rewrite forallb_rev. exact Hb.
  - destruct (rev r2) as [|x r] eqn:Er; [reflexivity|].
    rewrite E1 in Hlead. rewrite starts_blank_app in Hlead by discriminate.
    exact Hlead.
  - unfold ends_blank. rewrite rev_involutive. exact Htrail.
Qed.


(** ** What the node consumer leaves *)

Lemma push_value_snoc before last v :
  push_value (before ++ [last]) v =
  before ++ [mkProperty (id last) (values last ++ [v])].
Proof.
  unfold push_value. rewrite rev_app_distr. simpl. rewrite rev_involutive.
  reflexivity.
Qed.

Lemma SubstrAndStripWhitespace_trimmed sgf start len :
  trimmed (SubstrAndStripWhitespace sgf start len).
Proof.
  destruct (Strip_both_split (substr sgf start len)) as [a [b [_ [_ [_ H]]]]].
  exact H.
Qed.

Lemma value_walked sgf cursor p :
  FindFirst sgf cursor (sv "]") true = Some p ->
  passed (sv "]") (substr sgf cursor (p - cursor)) = true.
Proof. apply scan_lenient_prefix. Qed.

Lemma reading_new_property open added pr :
  reading open added ->
  (if open then False else True) ->
  trimmed (id pr) -> values pr = [] ->
  (added <> [] -> id pr <> []) ->
  reading true (added ++ [pr]).
Proof.
  intros [Hw [Hi Hv]] Hopen Ht Hvals Hid. destruct open; [contradiction|].
  repeat split.
  - apply Forall_app. split; [exact Hw|]. constructor; [|constructor].
    split; [exact Ht|]. rewrite Hvals. constructor.
  - destruct added as [|x added]; [constructor|]. simpl.
    apply Forall_app. split; [exact Hi|].
    constructor; [|constructor]. apply Hid. discriminate.
  - rewrite removelast_last. exact Hv.
Qed.

Lemma reading_push_value open added last v :
  reading open (added ++ [last]) ->
  passed (sv "]") v = true ->
  reading false (added ++ [mkProperty (id last) (values last ++ [v])]).
Proof.
  intros [Hw [Hi Hv]] Hpass.
  apply Forall_app in Hw. destruct Hw as [Hw Hl].
  inversion Hl as [|? ? [Htrim Hvals] _]; subst.
  repeat split.
  - apply Forall_app. split; [exact Hw|]. constructor; [|constructor].
    split; [exact Htrim|]. simpl. apply Forall_app. split; [exact Hvals|].
    constructor; [exact Hpass|constructor].
  - destruct added as [|x added]; [constructor|]. simpl in *.
    apply Forall_app in Hi. destruct Hi as [Hi Hi'].
    apply Forall_app. split; [exact Hi|].
    inversion Hi'; subst. constructor; [assumption|constructor].
  - apply Forall_app. split.
    + destruct open.
      * rewrite removelast_last in Hv. exact Hv.
      * apply Forall_app in Hv. tauto.
    + constructor; [|constructor]. unfold has_value. simpl.
      destruct (values last); discriminate.
Qed.

Lemma Node_body_inv node0 sgf l :
  Node_inv node0 l ->
  match Node.body sgf l with
  | Next l' => Node_inv node0 l'
  | Return (Some _, nd, _) =>
      exists added, added <> [] /\ nd = node0 ++ added /\ reading false added
  | Return (None, _, e) =>
      exists msg, In msg node_messages /\ e = LOG_ERROR msg (Node.errors l)
  end.
Proof.
  unfold Node_inv, Node.body. intros I.
  destruct (Node.state l).
  - destruct (FindFirst _ _ _ _) as [p|]; simpl.
    + exists [], (mkProperty (SubstrAndStripWhitespace sgf (Node.cursor l)
                                                       (p - Node.cursor l)) []).
      rewrite I. split; [reflexivity|].
      apply (@reading_new_property false []); simpl; auto;
        try apply SubstrAndStripWhitespace_trimmed; try congruence.
      repeat split; constructor.
    + eexists. split; [|reflexivity]. simpl. auto.
  - destruct (FindFirst _ _ _ _) as [p|] eqn:F; simpl.
    + destruct I as [added [last [-> R]]].
      exists (added ++ [mkProperty (id last)
                          (values last ++ [substr sgf (Node.cursor l)
                                                  (p - Node.cursor l)])]).
      split; [destruct added; discriminate|]. split.
      * rewrite app_assoc, push_value_snoc, <- app_assoc. reflexivity.
      * eapply reading_push_value; eauto. apply value_walked. exact F.
    + eexists. split; [|reflexivity]. simpl. auto.
  - destruct (FindFirst _ _ _ _) as [p|]; simpl.
    + destruct I as [added [Hne [Hn R]]].
      destruct (char_is sgf p "[").
      * pose proof (SubstrAndStripWhitespace_trimmed sgf (Node.cursor l)
                      (p - Node.cursor l)) as Ht.
        destruct (SubstrAndStripWhitespace _ _ _) as [|g gap] eqn:G; simpl.
        -- destruct (exists_last Hne) as [before [last ->]].
           exists before, last. split; [exact Hn|].
           destruct R as [Hw [Hi Hv]]. repeat split; auto.
           simpl. rewrite removelast_last.
           apply Forall_app in Hv. tauto.
        -- exists added, (mkProperty (g :: gap) []).
           split; [unfold NewProperty; rewrite Hn, <- app_assoc; reflexivity|].
           apply (@reading_new_property false added); simpl; auto;
             try discriminate.
      * destruct (SubstrAndStripWhitespace _ _ _) as [|g gap]; simpl.
        -- exists added. auto.
        -- eexists. split; [|reflexivity]. simpl. auto.
    + eexists. split; [|reflexivity]. simpl. auto.
Qed.

Lemma Node_loop_inv node0 sgf fuel l r nd e :
  Node_inv node0 l ->
  Node.loop fuel sgf l = Done (r, nd, e) ->
  match r with
  | Some _ =>
      exists added, added <> [] /\ nd = node0 ++ added /\ reading false added
  | None => exists msg, In msg node_messages /\ e = LOG_ERROR msg (Node.errors l)
  end.
Proof.
  revert l. induction fuel as [|fuel IH]; intros l I H; [discriminate|].
  simpl in H. pose proof (@Node_body_inv node0 sgf l I) as B.
  pose proof (Node_body_errors sgf l) as E.
  destruct (Node.body sgf l) as [l'|[[r' nd'] e']].
  - apply IH in H; [|exact B]. destruct r; [exact H|].
    rewrite E in H. exact H.
  - injection H as -> -> ->. exact B.
Qed.

(** X4.  When ConsumeNode returns a position, the node is the node it was
    given with at least one property appended, every appended property has at
    least one value, the diagnostics are untouched, and the position is at
    least two characters past start. *)
Theorem ConsumeNode_success_shape sgf start node errors p node' errors' :
  ConsumeNode sgf start node errors = Done (Some p, node', errors') ->
  exists added,
    node' = node ++ added /\
    added <> [] /\
    Forall has_value added /\
    errors' = errors /\
    start + 2 <= p.
Proof.
  intros H.
  pose proof (ConsumeNode_Some_far _ _ _ _ H) as Hfar.
  pose proof (Node_loop_Some_errors _ _ _ H) as He.
  apply (@Node_loop_inv node) in H; [|reflexivity].
  destruct H as [added [Hne [Hn [_ [_ Hv]]]]].
  exists added. auto.
Qed.

Lemma ConsumeNode_success_shape_witness :
  exists added,
    [prop "A" ["b"; "c"]%string; prop "DE" ["f"%string]]
    = [] ++ added /\
    added <> [] /\
    Forall has_value added /\
    @None string = None /\
    1 + 2 <= 13.
Proof.
  apply (@ConsumeNode_success_shape (sv ";A[b][c]DE[f])") 1 [] None 13
           [prop "A" ["b"; "c"]%string; prop "DE" ["f"%string]] None).
  reflexivity.
Defined.

(** X5.  In a node ConsumeNode read with success, every identifier has no
    whitespace at either end, every value holds a closing bracket only right
    after a backslash and does not end in the middle of an escape, and only
    the first property of the node can have an empty identifier. *)
Theorem ConsumeNode_reads_trimmed_ids_and_whole_values
        sgf start errors p node errors' :
  ConsumeNode sgf start [] errors = Done (Some p, node, errors') ->
  Forall well_read node /\
  Forall (fun pr => id pr <> []) (tl node).
Proof.
  intros H.
  apply (@Node_loop_inv []) in H; [|reflexivity].
  destruct H as [added [_ [-> [Hw [Hi _]]]]]. auto.
Qed.

Lemma ConsumeNode_reads_trimmed_ids_and_whole_values_witness :
  Forall well_read [prop "A" ["b\]"; "c"]%string; prop "DE" ["f"%string]] /\
  Forall (fun pr => id pr <> [])
         (tl [prop "A" ["b\]"; "c"]%string; prop "DE" ["f"%string]]).
Proof.
  apply (@ConsumeNode_reads_trimmed_ids_and_whole_values
           (sv "; A [b\]] [c] DE [f] )") 1 None 21
           [prop "A" ["b\]"; "c"]%string; prop "DE" ["f"%string]] None).
  reflexivity.
Defined.

(** X6.  When ConsumeNode returns npos it has appended exactly one of its
    four diagnostics, followed by a line break, to the errors it was given. *)
Theorem ConsumeNode_failure_logs_one_message sgf start node errors node' errors' :
  ConsumeNode sgf start node errors = Done (None, node', errors') ->
  exists msg, In msg node_messages /\ errors' = LOG_ERROR msg errors.
Proof.
  intros H. apply (@Node_loop_inv node) in H; [|reflexivity]. exact H.
Qed.

Lemma ConsumeNode_failure_logs_one_message_witness :
  exists msg,
    In msg node_messages /\
    Some "Missing the end of a property value.
"%string = LOG_ERROR msg (Some ""%string).
Proof.
  apply (@ConsumeNode_failure_logs_one_message (sv ";A[b") 1 []
           (Some ""%string) [prop "A" []]
           (Some "Missing the end of a property value.
"%string)).
  reflexivity.
Defined.

(** ** The arena the tree builder leaves *)

Section ArenaFacts.

Local Arguments NewChild : simpl never.

Lemma nth_error_NewChild h cur c :
  nth_error (fst (NewChild h cur)) c =
  if c =? List.length h then Some (mkGameTree (Some cur) [] [])
  else if c =? cur then
         option_map (fun t => mkGameTree (parent t) (sequence t)
                                         (children t ++ [List.length h]))
                    (nth_error h c)
       else nth_error h c.
Proof.
  unfold NewChild. simpl.
  destruct (c =? List.length h) eqn:E.
  - apply Nat.eqb_eq in E. subst c.
    rewrite nth_error_app2 by (rewrite length_update; lia).
    rewrite length_update, Nat.sub_diag. reflexivity.
  - apply Nat.eqb_neq in E.
    destruct (Nat.lt_ge_cases c (List.length h)) as [Hlt|Hge].
    + rewrite nth_error_app1 by (rewrite length_update; lia).
      apply nth_error_update.
    + assert (Hn : nth_error h c = None) by (apply nth_error_None; lia).
      rewrite Hn. simpl.
      assert (nth_error (update h cur
                (fun t => mkGameTree (parent t) (sequence t)
                                     (children t ++ [List.length h]))
                ++ [mkGameTree (Some cur) [] []]) c = None).
      { apply nth_error_None. rewrite length_app, length_update. simpl. lia. }
      rewrite H. destruct (c =? cur); reflexivity.
Qed.

Lemma length_NewChild h cur :
  List.length (fst (NewChild h cur)) = S (List.length h).
Proof.
  unfold NewChild. simpl. rewrite length_app, length_update. simpl. lia.
Qed.

Lemma linked_update h ptr f :
  (forall t, parent (f t) = parent t) ->
  (forall t, children (f t) = children t) ->
  linked h -> linked (update h ptr f).
Proof.
  intros Hp Hc [Hroot [H2 [H3 H4]]].
  assert (Hget : forall c t', nth_error (update h ptr f) c = Some t' ->
             exists t, nth_error h c = Some t /\ parent t' = parent t /\
                       children t' = children t).
  { intros c t' Hn. rewrite nth_error_update in Hn.
    destruct (c =? ptr).
    - destruct (nth_error h c) as [t|]; [|discriminate].
      injection Hn as <-. exists t. auto.
    - exists t'. auto. }
  assert (Hput : forall c t, nth_error h c = Some t ->
             exists t', nth_error (update h ptr f) c = Some t' /\
                        parent t' = parent t /\ children t' = children t).
  { intros c t Hn. rewrite nth_error_update, Hn.
    destruct (c =? ptr); simpl; eauto. }
  split; [apply update_root_ok; assumption|]. split; [|split].
  - intros c t' Hn Hc0. destruct (Hget _ _ Hn) as [t [Ht [Ep _]]].
    destruct (H2 _ _ Ht Hc0) as [up [tu [Hpar [Hlt [Hu Hin]]]]].
    destruct (Hput _ _ Hu) as [tu' [Hu' [_ Ec]]].
    exists up, tu'. rewrite Ep, Ec. auto.
  - intros up tu' c Hn Hin. destruct (Hget _ _ Hn) as [tu [Hu [_ Ec]]].
    rewrite Ec in Hin. destruct (H3 _ _ _ Hu Hin) as [Hlt [t [Ht Hpar]]].
    destruct (Hput _ _ Ht) as [t' [Ht' [Ep _]]].
    split; [exact Hlt|]. exists t'. rewrite Ep. auto.
  - intros up tu' Hn. destruct (Hget _ _ Hn) as [tu [Hu [_ Ec]]].
    rewrite Ec. eauto.
Qed.

Lemma linked_NewChild h cur :
  linked h -> cur < List.length h -> linked (fst (NewChild h cur)).
Proof.
  intros [Hroot [H2 [H3 H4]]] Hcur.
  assert (Hvalid : forall up tu c, nth_error h up = Some tu ->
                                   In c (children tu) -> c < List.length h).
  { intros up tu c Hu Hin. destruct (H3 _ _ _ Hu Hin) as [_ [t [Ht _]]].
    apply nth_error_Some. congruence. }
  split; [apply NewChild_root_ok; exact Hroot|]. split; [|split].
  - intros c t' Hn Hc0. rewrite nth_error_NewChild in Hn.
    destruct (c =? List.length h) eqn:E1.
    + apply Nat.eqb_eq in E1. injection Hn as <-. cbn [parent].
      destruct (nth_error h cur) as [tc|] eqn:Hc;
        [|apply nth_error_None in Hc; lia].
      eexists cur, _. split; [reflexivity|]. split; [lia|]. split.
      * rewrite nth_error_NewChild.
        replace (cur =? List.length h) with false
          by (symmetry; apply Nat.eqb_neq; lia).
        rewrite Nat.eqb_refl, Hc. reflexivity.
      * cbn [children]. apply in_or_app. right. left. symmetry. exact E1.
    + assert (Hold : exists t, nth_error h c = Some t /\ parent t' = parent t).
      { destruct (c =? cur).
        - destruct (nth_error h c) as [t|]; [|discriminate].
          injection Hn as <-. eauto.
        - eauto. }
      destruct Hold as [t [Ht Ep]].
      destruct (H2 _ _ Ht Hc0) as [up [tu [Hpar [Hlt [Hu Hin]]]]].
      assert (Hup : up < List.length h) by (apply nth_error_Some; congruence).
      destruct (up =? cur) eqn:E2.
      * exists up. eexists. split; [congruence|]. split; [exact Hlt|]. split.
        -- rewrite nth_error_NewChild.
           replace (up =? List.length h) with false
             by (symmetry; apply Nat.eqb_neq; lia).
           rewrite E2, Hu. reflexivity.
        -- cbn [children]. apply in_or_app. left. exact Hin.
      * exists up, tu. split; [congruence|]. split; [exact Hlt|]. split.
        -- rewrite nth_error_NewChild.
           replace (up =? List.length h) with false
             by (symmetry; apply Nat.eqb_neq; lia).
           rewrite E2. exact Hu.
        -- exact Hin.
  - intros up tu' c Hn Hin. rewrite nth_error_NewChild in Hn.
    destruct (up =? List.length h) eqn:E1.
    { injection Hn as <-. contradiction. }
    assert (Hchild : forall tu, nth_error h up = Some tu -> In c (children tu) ->
               up < c /\ exists t, nth_error (fst (NewChild h cur)) c = Some t /\
                                   parent t = Some up).
    { intros tu Hu Hi. destruct (H3 _ _ _ Hu Hi) as [Hlt [t [Ht Hpar]]].
      split; [exact Hlt|].
      assert (c < List.length h) by (apply nth_error_Some; congruence).
      rewrite nth_error_NewChild.
      replace (c =? List.length h) with false
        by (symmetry; apply Nat.eqb_neq; lia).
      rewrite Ht. destruct (c =? cur); simpl; eauto. }
    destruct (up =? cur) eqn:E2.
    + destruct (nth_error h up) as [tu|] eqn:Hu; [|discriminate].
      injection Hn as <-. cbn [children] in Hin. apply in_app_or in Hin.
      destruct Hin as [Hin|[<-|[]]]; [eauto|].
      apply Nat.eqb_eq in E2. subst up. split; [exact Hcur|].
      rewrite nth_error_NewChild, Nat.eqb_refl. eauto.
    + eauto.
  - intros up tu' Hn. rewrite nth_error_NewChild in Hn.
    destruct (up =? List.length h) eqn:E1.
    { injection Hn as <-. constructor. }
    destruct (up =? cur) eqn:E2; [|eauto].
    destruct (nth_error h up) as [tu|] eqn:Hu; [|discriminate].
    injection Hn as <-. cbn [children].
    apply NoDup_app; [eauto|constructor; [intros []|constructor]|].
    intros c Hin [<-|[]].
    pose proof (Hvalid _ _ _ Hu Hin). lia.
Qed.

Lemma nth_error_store_back h cur node c :
  nth_error (store_back (NewNode h cur) cur node) c =
  if c =? cur then
    option_map (fun t => mkGameTree (parent t) (sequence t ++ [node]) (children t))
               (nth_error h c)
  else nth_error h c.
Proof.
  unfold store_back, NewNode. rewrite !nth_error_update.
  destruct (c =? cur); [|reflexivity].
  destruct (nth_error h c) as [t|]; [|reflexivity].
  simpl. rewrite removelast_last. reflexivity.
Qed.

Lemma linked_store_back h cur node :
  linked h -> linked (store_back (NewNode h cur) cur node).
Proof.
  intros H. unfold store_back, NewNode.
  apply linked_update; [reflexivity|reflexivity|].
  apply linked_update; [reflexivity|reflexivity|exact H].
Qed.

Lemma length_store_back h cur node :
  List.length (store_back (NewNode h cur) cur node) = List.length h.
Proof. unfold store_back, NewNode. rewrite !length_update. reflexivity. Qed.

Lemma filled_weaken exc h : filled None h -> filled exc h.
Proof.
  intros [H1 [H2 H3]]. repeat split; auto.
  intros c t Ht Hc _. eapply H3; eauto. discriminate.
Qed.

Lemma filled_NewChild h cur :
  filled None h -> cur < List.length h ->
  filled (Some (List.length h)) (fst (NewChild h cur)).
Proof.
  intros [H1 [H2 H3]] Hcur.
  assert (Hseq : forall c t', nth_error (fst (NewChild h cur)) c = Some t' ->
             c <> List.length h ->
             exists t, nth_error h c = Some t /\ sequence t' = sequence t).
  { intros c t' Hn Hc. rewrite nth_error_NewChild in Hn.
    apply Nat.eqb_neq in Hc. rewrite Hc in Hn.
    destruct (c =? cur); [|eauto].
    destruct (nth_error h c) as [t|]; [|discriminate].
    injection Hn as <-. eauto. }
  repeat split.
  - intros t' Hn. destruct (Hseq _ _ Hn) as [t [Ht ->]]; [unfold Tree.root; lia|].
    eauto.
  - intros c t' Hn. destruct (Nat.eq_dec c (List.length h)) as [->|Hc].
    + rewrite nth_error_NewChild, Nat.eqb_refl in Hn. injection Hn as <-.
      constructor.
    + destruct (Hseq _ _ Hn Hc) as [t [Ht ->]]. eauto.
  - intros c t' Hn Hc0 Hexc.
    assert (Hc : c <> List.length h) by congruence.
    destruct (Hseq _ _ Hn Hc) as [t [Ht ->]].
    eapply H3; eauto. discriminate.
Qed.

Lemma filled_store_back h cur node :
  filled (Some cur) h -> cur <> Tree.root -> good_node node ->
  filled None (store_back (NewNode h cur) cur node).
Proof.
  intros [H1 [H2 H3]] Hcur Hgood. repeat split.
  - intros t' Hn. rewrite nth_error_store_back in Hn.
    replace (Tree.root =? cur) with false in Hn
      by (symmetry; apply Nat.eqb_neq; congruence).
    eauto.
  - intros c t' Hn. rewrite nth_error_store_back in Hn.
    destruct (c =? cur).
    + destruct (nth_error h c) as [t|] eqn:Ht; [|discriminate].
      injection Hn as <-. simpl. apply Forall_app. split; [eauto|].
      constructor; [exact Hgood|constructor].
    + eauto.
  - intros c t' Hn Hc0 _. rewrite nth_error_store_back in Hn.
    destruct (c =? cur) eqn:E.
    + destruct (nth_error h c) as [t|]; [|discriminate].
      injection Hn as <-. simpl. destruct (sequence t); discriminate.
    + apply Nat.eqb_neq in E. eapply H3; eauto. congruence.
Qed.

Lemma ConsumeNode_good sgf start errors p node errors' :
  ConsumeNode sgf start [] errors = Done (Some p, node, errors') ->
  good_node node.
Proof.
  intros H. apply (@Node_loop_inv []) in H; [|reflexivity].
  destruct H as [added [Hne [-> [Hw [Hi Hv]]]]]. repeat split; auto.
Qed.

Lemma go_down_inv l h e p l' :
  linked h -> filled None h -> Tree.current_tree l < List.length h ->
  Tree.go_down l h e p = Next l' -> Tree_inv l'.
Proof.
  intros Hl Hf Hc G. unfold Tree.go_down in G.
  pose proof (linked_NewChild Hl Hc) as Hl'.
  pose proof (filled_NewChild Hf Hc) as Hf'.
  pose proof (length_NewChild h (Tree.current_tree l)) as Hlen.
  destruct (NewChild h (Tree.current_tree l)) as [h' child] eqn:E.
  assert (child = List.length h) by (unfold NewChild in E; congruence).
  subst child. injection G as <-. unfold Tree_inv. simpl in *.
  split; [exact Hl'|]. split; [lia|]. split; [unfold Tree.root; lia|exact Hf'].
Qed.

Lemma go_up_inv l h e p l' :
  linked h -> filled None h -> Tree.current_tree l < List.length h ->
  Tree.go_up l h e p = Next l' -> Tree_inv l'.
Proof.
  intros Hl Hf Hc G. unfold Tree.go_up, parent_of in G.
  destruct (nth_error h (Tree.current_tree l)) as [t|] eqn:Ht; [|discriminate].
  destruct (parent t) as [up|] eqn:Hp; [|discriminate].
  injection G as <-. unfold Tree_inv. simpl.
  destruct Hl as [[tr [Hr Hn]] [H2 H3]].
  assert (Hne : Tree.current_tree l <> Tree.root).
  { intros Heq. rewrite Heq in Ht. congruence. }
  destruct (H2 _ _ Ht Hne) as [up' [tu [Hpar [Hlt [Hu _]]]]].
  assert (up' = up) by congruence. subst up'.
  split; [split; [exists tr; auto|exact (conj H2 H3)]|].
  split; [apply nth_error_Some; congruence|].
  split; [unfold Tree.root in Hne; lia|exact Hf].
Qed.

Lemma Tree_body_inv sgf l l' :
  Tree_inv l -> Tree.body sgf l = Done (Next l') -> Tree_inv l'.
Proof.
  intros [Hl [Hc Hs]] B. unfold Tree.body in B.
  destruct (Tree.state l) eqn:St.
  - destruct Hs as [_ Hf].
    destruct (FindFirst _ _ _ _) as [p|]; [|discriminate].
    apply Done_inj in B. eapply go_down_inv; eauto.
  - destruct (FindFirst _ _ _ _) as [p|]; [|discriminate].
    injection B as <-. unfold Tree_inv. simpl. auto.
  - destruct Hs as [Hne Hf].
    destruct (ConsumeNode _ _ _ _) as [[[r nd] e']|] eqn:C; [|discriminate].
    destruct r as [p|]; [|discriminate].
    apply ConsumeNode_good in C.
    pose proof (linked_store_back (Tree.current_tree l) nd Hl) as Hl'.
    pose proof (filled_store_back Hf Hne C) as Hf'.
    pose proof (length_store_back (Tree.heap l) (Tree.current_tree l) nd) as Hlen.
    assert (Hstay : Tree_inv
              (Tree.mkLoop Tree.NODE_START (p + 1) (Tree.current_tree l)
                 (store_back (NewNode (Tree.heap l) (Tree.current_tree l))
                             (Tree.current_tree l) nd) e')).
    { unfold Tree_inv. simpl. split; [exact Hl'|]. split; [lia|].
      split; [exact Hne|apply filled_weaken; exact Hf']. }
    destruct (char_is sgf p ";"); [injection B as <-; exact Hstay|].
    destruct (char_is sgf p ")").
    { apply Done_inj in B. eapply go_up_inv; eauto. lia. }
    destruct (char_is sgf p "(").
    { apply Done_inj in B. eapply go_down_inv; eauto. lia. }
    injection B as <-; exact Hstay.
  - destruct Hs as [Hlen Hf].
    destruct (FindFirst _ _ _ _) as [p|].
    + destruct (char_is sgf p "(").
      { apply Done_inj in B. eapply go_down_inv; eauto. }
      destruct (char_is sgf p ")").
      { apply Done_inj in B. eapply go_up_inv; eauto. }
      injection B as <-. unfold Tree_inv. simpl. auto.
    + injection B as <-. unfold Tree_inv. simpl. auto.
  - injection B as <-. unfold Tree_inv. rewrite St. auto.
Qed.

Lemma init_inv errors : Tree_inv (Tree.init errors).
Proof.
  assert (Hone : forall c t, nth_error [mkGameTree None [] []] c = Some t ->
                             c = 0 /\ t = mkGameTree None [] []).
  { intros [|[|c]] t Hn; simpl in Hn; try discriminate.
    injection Hn as <-. auto. }
  unfold Tree_inv. simpl. unfold linked, filled, root_ok, Tree.root.
  split; [|split; [lia|split; [reflexivity|]]].
  - split; [exists (mkGameTree None [] []); auto|]. split; [|split].
    + intros c t Hn Hc. apply Hone in Hn. destruct Hn. contradiction.
    + intros u tu c Hn Hin. apply Hone in Hn. destruct Hn as [_ ->].
      contradiction.
    + intros u tu Hn. apply Hone in Hn. destruct Hn as [_ ->]. constructor.
  - split; [|split].
    + intros t Hn. apply Hone in Hn. destruct Hn as [_ ->]. reflexivity.
    + intros c t Hn. apply Hone in Hn. destruct Hn as [_ ->]. constructor.
    + intros c t Hn Hc. apply Hone in Hn. destruct Hn. contradiction.
Qed.

Lemma Reach_Tree_inv sgf errors k l : Reach sgf errors k l -> Tree_inv l.
Proof.
  induction 1 as [|k l l' R IH Hlive B].
  - apply init_inv.
  - eapply Tree_body_inv; eauto.
Qed.

(** A parse that succeeds left its loop from a state it reached. *)
Lemma Parsed_reached sgf errors tc trees errors' :
  ParseToCollection sgf errors = Done (Tree.Parsed tc trees errors') ->
  exists k l t,
    Reach sgf errors k l /\ Tree.state l = Tree.END /\
    Tree.current_tree l = Tree.root /\ Tree.heap l = trees /\
    nth_error trees Tree.root = Some t /\ tc = children t.
Proof.
  intros H. unfold ParseToCollection in H.
  pose proof (Reach_init sgf errors) as R0.
  assert (L0 : Tree.state (Tree.init errors) <> Tree.END) by discriminate.
  destruct (@Tree_loop_Done sgf errors _ 0 _ _ R0 L0 H)
    as [[k [l [R [HE Hfin]]]]|[e0 Hbad]]; [|discriminate].
  destruct (Reach_Tree_inv R) as [[[t [Ht _]] _] _].
  unfold Tree.finish in Hfin.
  destruct (Tree.current_tree l =? Tree.root) eqn:Hcur; [|discriminate].
  apply Nat.eqb_eq in Hcur. rewrite Ht in Hfin.
  simpl in Hfin. injection Hfin as -> -> _.
  exists k, l, t. repeat split; auto.
Qed.

Lemma parsed_linked_helper sgf errors tc trees errors' :
  ParseToCollection sgf errors = Done (Tree.Parsed tc trees errors') ->
  linked trees /\
  exists t, nth_error trees Tree.root = Some t /\ tc = children t.
Proof.
  intros H. destruct (@Parsed_reached sgf errors _ _ _ H)
    as [k [l [t [R [HE [Hcur [Hh [Ht ->]]]]]]]].
  destruct (Reach_Tree_inv R) as [Hl _]. rewrite Hh in Hl. eauto.
Qed.

(** X7.  When ParseToCollection succeeds the collection is not empty, the
    virtual root holds no node, every other tree holds at least one node, and
    every node holds at least one property, each with at least one value. *)
Theorem parsed_trees_are_filled sgf errors tree_collection trees errors' :
  ParseToCollection sgf errors = Done (Tree.Parsed tree_collection trees errors') ->
  tree_collection <> [] /\
  (forall t, nth_error trees Tree.root = Some t -> sequence t = []) /\
  (forall c t, nth_error trees c = Some t -> c <> Tree.root -> sequence t <> []) /\
  (forall c t node, nth_error trees c = Some t -> In node (sequence t) ->
                    node <> [] /\ Forall has_value node).
Proof.
  intros H. destruct (@Parsed_reached sgf errors _ _ _ H) as [k [l [t [R [HE [Hcur [Hh [Ht ->]]]]]]]].
  destruct (Reach_Tree_inv R) as [Hl [_ Hs]]. rewrite HE in Hs.
  destruct Hs as [Hlen [F1 [F2 F3]]]. rewrite Hh in *.
  split; [|split; [exact F1|split]].
  - destruct Hl as [_ [H2 [H3 _]]].
    destruct (nth_error trees 1) as [t1|] eqn:H1;
      [|apply nth_error_None in H1; lia].
    destruct (H2 1 t1 H1 ltac:(discriminate)) as [up [tu [_ [Hlt [Hu Hin]]]]].
    assert (up = Tree.root) by (unfold Tree.root; lia). subst up.
    assert (tu = t) by congruence. subst tu.
    intros E. rewrite E in Hin. contradiction.
  - intros c t0 Hn Hc. eapply F3; eauto. discriminate.
  - intros c t0 node Hn Hin. specialize (F2 _ _ Hn).
    rewrite Forall_forall in F2. destruct (F2 _ Hin) as [G1 [G2 _]]. auto.
Qed.


End ArenaFacts.

(** ** The extractor of [sgf_parser/parser.cc] *)

(** *** Diagnostics only grow *)

Lemma length_append (a b : string) :
  String.length (a ++ b) = String.length a + String.length b.
Proof. induction a as [|x a IH]; simpl; [reflexivity|]. now rewrite IH. Qed.

Lemma appended_LOG msg e : appended e (LOG_ERROR msg (Some e)).
Proof.
  exists (msg ++ String newline EmptyString)%string. split; [|reflexivity].
  intros H. apply (f_equal String.length) in H.
  rewrite length_append in H. simpl in H. lia.
Qed.

Lemma appended_trans e e1 e2 :
  appended e (Some e1) -> appended e1 e2 -> appended e e2.
Proof.
  intros [m1 [H1 E1]] [m2 [H2 ->]]. injection E1 as ->.
  exists (m1 ++ m2)%string. split.
  - intros H. apply (f_equal String.length) in H.
    rewrite length_append in H. simpl in H.
    destruct m1; [congruence|simpl in H; lia].
  - rewrite append_assoc. reflexivity.
Qed.

Lemma appended_neq e e' : appended e (Some e') -> e' <> e.
Proof.
  intros [m [Hm E]] Heq. injection E as ->.
  apply (f_equal String.length) in Heq. rewrite length_append in Heq.
  destruct m; [congruence|simpl in Heq; lia].
Qed.

Lemma Return_inj (S R : Type) (a b : R) : @Return S R a = Return b -> a = b.
Proof. congruence. Qed.

Lemma Tree_body_Return_appended sgf l e r :
  Tree.errors l = Some e ->
  Tree.body sgf l = Done (Return r) ->
  exists e', r = Tree.Failed e' /\ appended e e'.
Proof.
  intros He. unfold Tree.body.
  assert (Hdown : forall h e0 p, Tree.go_down l h e0 p <> Return r).
  { intros h e0 p. unfold Tree.go_down.
    destruct (NewChild h (Tree.current_tree l)). discriminate. }
  assert (Hlog : forall msg,
             Return (Tree.Failed (LOG_ERROR msg (Some e))) =
             (Return r : Iter Tree.Loop Tree.Result) ->
             exists e', r = Tree.Failed e' /\ appended e e').
  { intros msg H. apply Return_inj in H. subst r.
    eexists. split; [reflexivity|]. apply appended_LOG. }
  assert (Hup : forall h p,
             Tree.go_up l h (Some e) p = Return r ->
             exists e', r = Tree.Failed e' /\ appended e e').
  { intros h p. unfold Tree.go_up.
    destruct (parent_of h (Tree.current_tree l)); [discriminate|].
    apply Hlog. }
  rewrite He.
  destruct (Tree.state l).
  - destruct (FindFirst _ _ _ _); intros H; apply Done_inj in H.
    + apply Hdown in H. contradiction.
    + eapply Hlog; eauto.
  - destruct (FindFirst _ _ _ _); intros H; [discriminate|].
    apply Done_inj in H. eapply Hlog; eauto.
  - destruct (ConsumeNode _ _ _ _) as [[[q nd] e']|] eqn:C; [|discriminate].
    destruct q as [p|].
    + apply Node_loop_Some_errors in C. simpl in C. subst e'.
      destruct (char_is sgf p ";"); [discriminate|].
      destruct (char_is sgf p ")"); [intros H; apply Done_inj in H; eauto|].
      destruct (char_is sgf p "("); [|discriminate].
      intros H; apply Done_inj in H. apply Hdown in H. contradiction.
    + apply (@Node_loop_inv []) in C; [|reflexivity].
      destruct C as [msg [_ ->]]. intros H. apply Done_inj, Return_inj in H.
      subst r. eexists. split; [reflexivity|].
      eapply appended_trans; [apply appended_LOG|apply appended_LOG].
  - destruct (FindFirst _ _ _ _) as [p|]; [|discriminate].
    destruct (char_is sgf p "(").
    { intros H; apply Done_inj in H. apply Hdown in H. contradiction. }
    destruct (char_is sgf p ")"); [intros H; apply Done_inj in H; eauto|].
    discriminate.
  - discriminate.
Qed.

Lemma Tree_loop_Failed_appended sgf e fuel k l e' :
  Reach sgf (Some e) k l ->
  Tree.state l <> Tree.END ->
  Tree.loop fuel sgf l = Done (Tree.Failed e') ->
  appended e e'.
Proof.
  revert k l. induction fuel as [|fuel IH]; intros k l R Hlive H; [discriminate|].
  simpl in H. destruct (Tree.body sgf l) as [[l'|r']|] eqn:B; [| |discriminate].
  - pose proof (Reach_step R Hlive B) as R'.
    destruct (Tree.is_END (Tree.state l')) eqn:E.
    + apply Done_inj in H. unfold Tree.finish in H.
      destruct (Reach_inv R') as [He _].
      destruct (negb (Tree.current_tree l' =? Tree.root)); [|discriminate].
      rewrite He in H.
      assert (E' : LOG_ERROR "Parser ends with a bad state." (Some e) = e')
        by congruence.
      rewrite <- E'. apply appended_LOG.
    + apply is_END_false in E. eapply IH; eauto.
  - apply Done_inj in H. subst r'. destruct (Reach_inv R) as [He _].
    destruct (@Tree_body_Return_appended sgf l e _ He B) as [e2 [E2 A]].
    assert (e' = e2) by congruence. subst e2. exact A.
Qed.

Lemma Parse_Failed_appended sgf e e' :
  ParseToCollection sgf (Some e) = Done (Tree.Failed e') -> appended e e'.
Proof.
  intros H. eapply Tree_loop_Failed_appended; [apply Reach_init| |exact H].
  discriminate.
Qed.

Lemma Parse_Parsed_errors sgf e tc trees e' :
  ParseToCollection sgf (Some e) = Done (Tree.Parsed tc trees e') -> e' = Some e.
Proof.
  intros H. unfold ParseToCollection in H.
  pose proof (Reach_init sgf (Some e)) as R0.
  assert (L0 : Tree.state (Tree.init (Some e)) <> Tree.END) by discriminate.
  destruct (@Tree_loop_Done sgf (Some e) _ 0 _ _ R0 L0 H)
    as [[k [l [R [HE Hfin]]]]|[e0 Hbad]]; [|discriminate].
  destruct (Reach_inv R) as [He _]. unfold Tree.finish in Hfin.
  destruct (negb (Tree.current_tree l =? Tree.root)); [discriminate|].
  injection Hfin as _ _ ->. exact He.
Qed.

(** X10.  When ParseToCollection fails and was given a string for its
    diagnostics, that string comes back as it was with a non-empty text
    appended. *)
Theorem ParseToCollection_failure_is_logged sgf e errors' :
  ParseToCollection sgf (Some e) = Done (Tree.Failed errors') ->
  appended e errors'.
Proof. apply Parse_Failed_appended. Qed.

Lemma ParseToCollection_failure_is_logged_witness :
  appended "earlier text" (Some "earlier textFailed in finding a node start.
")%string.
Proof.
  apply (@ParseToCollection_failure_is_logged (sv "(a;)") "earlier text").
  reflexivity.
Defined.

Section WalkFacts.

Variable float : Type.
Variable handle :
  Property -> GameRecord float -> Unparsed -> option string -> Handled float.

Lemma walk_total h fuel current record unparsed errors :
  linked h ->
  current < List.length h ->
  List.length h - current <= fuel ->
  exists res, walk handle fuel h current record unparsed errors = Ran res.
Proof.
  intros Hl. revert current record unparsed errors.
  induction fuel as [|fuel IH]; intros current record unparsed errors Hc Hf;
    [lia|].
  simpl. destruct (nth_error h current) as [t|] eqn:Ht;
    [|apply nth_error_None in Ht; lia].
  destruct (handle_sequence handle (sequence t) record unparsed errors)
    as [[[ok r] u] e].
  destruct ok; [|eauto].
  destruct (1 <? List.length (children t)); [eauto|].
  destruct (children t) as [|child rest] eqn:Hk; [eauto|].
  destruct Hl as [_ [_ [H3 _]]].
  destruct (H3 current t child Ht) as [Hlt [tc [Hchild _]]];
    [rewrite Hk; left; reflexivity|].
  apply IH; [|lia]. apply nth_error_Some. congruence.
Qed.

(** X9.  SimpleParseSgf of parser.cc returns on every input, whatever the
    property handler does: its walk from the first tree down the first
    children never reads outside the arena and ends within as many steps as
    there are trees. *)
Theorem SimpleParseSgf_runs_to_a_result sgf record unparsed errors :
  exists res, SimpleParseSgf handle sgf record unparsed errors = Ran res.
Proof.
  unfold SimpleParseSgf.
  destruct (ParseToCollection_total sgf errors) as [[tc trees errs|errs] P];
    rewrite P; [|eauto].
  destruct tc as [|first [|second rest]]; eauto.
  destruct (parsed_linked_helper sgf errors P) as [Hl Hin].
  apply walk_total; [exact Hl| |lia].
  destruct Hl as [_ [_ [H3 _]]].
  destruct Hin as [t [Ht Hc]].
  destruct (H3 _ _ first Ht) as [_ [tf [Hf _]]]; [rewrite <- Hc; left; reflexivity|].
  apply nth_error_Some. congruence.
Qed.

End WalkFacts.

(** *** The extractor logs exactly when it fails *)

(** Case analysis on the innermost scrutinee, again and again. *)
Ltac split_cases :=
  repeat match goal with
         | |- context [match ?x with _ => _ end] =>
             lazymatch x with
             | context [match _ with _ => _ end] => fail
             | _ => destruct x
             end
         end.

Lemma Ran_Handled_inj (float : Type) (a a' : bool) (b b' : GameRecord float)
      (c c' : Unparsed) (d d' : option string) :
  Ran (a, b, c, d) = Ran (a', b', c', d') -> a = a' /\ d = d'.
Proof. intros H. split; congruence. Qed.

Section FoldFacts.

Variable float : Type.
Variable handle :
  Property -> GameRecord float -> Unparsed -> option string -> Handled float.
Hypothesis handle_logs : logs_on_failure handle.

Lemma handle_node_logs node record unparsed e :
  match handle_node handle node record unparsed (Some e) with
  | (true, _, _, e') => e' = Some e
  | (false, _, _, e') => appended e e'
  end.
Proof.
  revert record unparsed. induction node as [|p node IH]; intros record unparsed.
  - reflexivity.
  - simpl. pose proof (handle_logs p record unparsed e) as H.
    destruct (handle p record unparsed (Some e)) as [[[[|] r] u] e1].
    + subst e1. apply IH.
    + exact H.
Qed.

Lemma handle_sequence_logs nodes record unparsed e :
  match handle_sequence handle nodes record unparsed (Some e) with
  | (true, _, _, e') => e' = Some e
  | (false, _, _, e') => appended e e'
  end.
Proof.
  revert record unparsed. induction nodes as [|nd nodes IH]; intros record unparsed.
  - reflexivity.
  - simpl. pose proof (handle_node_logs nd record unparsed e) as H.
    destruct (handle_node handle nd record unparsed (Some e)) as [[[[|] r] u] e1].
    + subst e1. apply IH.
    + exact H.
Qed.

Lemma walk_logs fuel h current record unparsed e ok record' unparsed' e' :
  walk handle fuel h current record unparsed (Some e)
  = Ran (ok, record', unparsed', e') ->
  if ok then e' = Some e else appended e e'.
Proof.
  revert current record unparsed.
  induction fuel as [|fuel IH]; intros current record unparsed H; [discriminate|].
  simpl in H. destruct (nth_error h current) as [t|]; [|discriminate].
  pose proof (handle_sequence_logs (sequence t) record unparsed e) as L.
  destruct (handle_sequence handle (sequence t) record unparsed (Some e))
    as [[[[|] r] u] e1].
  - subst e1. destruct (1 <? List.length (children t)).
    + apply Ran_Handled_inj in H. destruct H as [<- <-]. apply appended_LOG.
    + destruct (children t) as [|child rest].
      * apply Ran_Handled_inj in H. destruct H as [<- <-]. reflexivity.
      * eapply IH; eauto.
  - apply Ran_Handled_inj in H. destruct H as [<- <-]. exact L.
Qed.

Lemma SimpleParseSgf_logs sgf record unparsed e ok record' unparsed' e' :
  SimpleParseSgf handle sgf record unparsed (Some e)
  = Ran (ok, record', unparsed', e') ->
  if ok then e' = Some e else appended e e'.
Proof.
  unfold SimpleParseSgf.
  destruct (ParseToCollection sgf (Some e)) as [[tc trees errs|errs]|] eqn:P;
    [| |discriminate].
  - apply Parse_Parsed_errors in P. subst errs.
    destruct tc as [|first [|second rest]].
    + intros H. apply Ran_Handled_inj in H. destruct H as [<- <-]. apply appended_LOG.
    + apply walk_logs.
    + intros H. apply Ran_Handled_inj in H. destruct H as [<- <-]. apply appended_LOG.
  - apply Parse_Failed_appended in P.
    intros H. apply Ran_Handled_inj in H. destruct H as [<- <-]. exact P.
Qed.

End FoldFacts.

Section LoggingFacts.

Variable float : Type.
Variable SimpleAtoi : string_view -> option Z.
Variable SimpleAtof : string_view -> bool * float.
Variable float_neg : float -> float.
Variable float_1_2 : float.
Variable float_minus_1_2 : float.
Variable float_6_5 : float.

Lemma HandleProperty_logs_on_failure :
  logs_on_failure
    (HandleProperty SimpleAtoi SimpleAtof float_neg float_1_2 float_minus_1_2).
Proof.
  intros p record unparsed e.
  unfold HandleProperty, handle_stones, handle_moves, handle_unknown, fail.
  cbv zeta.
  split_cases; first [reflexivity | apply appended_LOG].
Qed.

Lemma Later_HandleProperty_logs_on_failure :
  logs_on_failure
    (Later.HandleProperty SimpleAtoi SimpleAtof float_neg float_1_2
                          float_minus_1_2 float_6_5).
Proof.
  intros p record unparsed e.
  unfold Later.HandleProperty, handle_stones, handle_moves, handle_unknown, fail.
  cbv zeta.
  split_cases; first [reflexivity | apply appended_LOG].
Qed.

(** X11.  SimpleParseSgf of parser.cc, given a string for its diagnostics,
    leaves the string as it was when it returns true and appends a non-empty
    text to it when it returns false. *)
Theorem SimpleParseSgf_logs_exactly_when_it_fails
        sgf record unparsed e ok record' unparsed' errors' :
  SimpleParseSgf
    (HandleProperty SimpleAtoi SimpleAtof float_neg float_1_2 float_minus_1_2)
    sgf record unparsed (Some e)
  = Ran (ok, record', unparsed', errors') ->
  (ok = true /\ errors' = Some e) \/ (ok = false /\ appended e errors').
Proof.
  intros H. apply SimpleParseSgf_logs in H;
    [|apply HandleProperty_logs_on_failure].
  destruct ok; auto.
Qed.

End LoggingFacts.

Lemma SimpleParseSgf_logs_exactly_when_it_fails_witness :
  (false = true /\ Some "Bad result (RU) value.
"%string = Some ""%string) \/
  (false = false /\ appended "" (Some "Bad result (RU) value.
"%string)).
Proof.
  apply (@SimpleParseSgf_logs_exactly_when_it_fails Decimal.t Decimal.SimpleAtoi
           Decimal.SimpleAtof Decimal.neg (Decimal.mk 12 1) (Decimal.mk (-12) 1)
           (sv "(;SZ[19]RE[X+5])") Decimal.GameRecord_new None ""%string false
           (set_board_size Decimal.GameRecord_new 19%Z 19%Z) None).
  reflexivity.
Defined.

(** ** The dispatcher *)

Lemma extends_refl (A : Type) (l : list A) : extends l l.
Proof. exists []. now rewrite app_nil_r. Qed.

Lemma extends_app (A : Type) (l more : list A) : extends l (l ++ more).
Proof. exists more. reflexivity. Qed.

Lemma extends_trans (A : Type) (a b c : list A) :
  extends a b -> extends b c -> extends a c.
Proof. intros [x ->] [y ->]. exists (x ++ y). now rewrite app_assoc. Qed.

Lemma add_stones_extends vals stones :
  extends stones (snd (add_stones vals stones)).
Proof.
  revert stones. induction vals as [|v vals IH]; intros stones; simpl.
  - apply extends_refl.
  - destruct (AsciiStrToLower v) as [|c0 [|c1 [|c2 rest]]];
      try apply extends_refl.
    eapply extends_trans; [apply extends_app|apply IH].
Qed.

Lemma add_moves_extends color vals mvs :
  extends mvs (snd (add_moves color vals mvs)).
Proof.
  revert mvs. induction vals as [|v vals IH]; intros mvs; simpl.
  - apply extends_refl.
  - destruct (AsciiStrToLower v) as [|c0 [|c1 [|c2 rest]]];
      try apply extends_refl;
      (eapply extends_trans; [apply extends_app|apply IH]).
Qed.

Lemma AsciiToUpper_idempotent c : AsciiToUpper (AsciiToUpper c) = AsciiToUpper c.
Proof. destruct c as [[] [] [] [] [] [] [] []]; reflexivity. Qed.

Lemma AsciiStrToUpper_idempotent s :
  AsciiStrToUpper (AsciiStrToUpper s) = AsciiStrToUpper s.
Proof.
  unfold AsciiStrToUpper. rewrite map_map. apply map_ext.
  apply AsciiToUpper_idempotent.
Qed.

Lemma letter_decodes c0 c1 :
  is_letter c0 = true -> is_letter c1 = true ->
  decode_pos (AsciiToLower c0) (AsciiToLower c1)
  = (letter_index c0, letter_index c1).
Proof.
  intros H0 H1. unfold decode_pos. f_equal.
  - revert H0. destruct c0 as [[] [] [] [] [] [] [] []]; vm_compute;
      intros; try discriminate; reflexivity.
  - revert H1. destruct c1 as [[] [] [] [] [] [] [] []]; vm_compute;
      intros; try discriminate; reflexivity.
Qed.

Lemma letter_index_range c :
  is_letter c = true -> (0 <= letter_index c <= 25)%Z.
Proof.
  destruct c as [[] [] [] [] [] [] [] []]; vm_compute; intros H;
    try discriminate; split; discriminate.
Qed.

Lemma add_stones_letters vals stones :
  Forall two_letters vals ->
  add_stones vals stones = (true, stones ++ map point vals).
Proof.
  intros H. revert stones. induction H as [|v vals [c0 [c1 [-> [H0 H1]]]] _ IH];
    intros stones; simpl.
  - rewrite app_nil_r. reflexivity.
  - rewrite (letter_decodes _ _ H0 H1), IH, <- app_assoc. reflexivity.
Qed.

Lemma add_moves_values color vals mvs :
  Forall (fun v => v = [] \/ two_letters v) vals ->
  add_moves color vals mvs = (None, mvs ++ map (move_of color) vals).
Proof.
  intros H. revert mvs.
  induction H as [|v vals [->|[c0 [c1 [-> [H0 H1]]]]] _ IH]; intros mvs; simpl.
  - rewrite app_nil_r. reflexivity.
  - rewrite IH, <- app_assoc. reflexivity.
  - rewrite (letter_decodes _ _ H0 H1), IH, <- app_assoc. reflexivity.
Qed.

Section DispatchFacts.

Variable float : Type.
Variable SimpleAtoi : string_view -> option Z.
Variable SimpleAtof : string_view -> bool * float.
Variable float_neg : float -> float.
Variable float_1_2 : float.
Variable float_minus_1_2 : float.
Variable float_6_5 : float.

Lemma handle_stones_grows black p (record : GameRecord float) unparsed errors :
  grows record unparsed (handle_stones black p record unparsed errors).
Proof.
  unfold handle_stones.
  pose proof (add_stones_extends (values p)
                (if black then black_stones record else white_stones record)) as H.
  destruct (add_stones _ _) as [[|] stones']; destruct black; simpl in H;
    unfold grows; simpl; repeat split; try apply extends_refl; try exact H;
    destruct unparsed; try exact I; apply extends_refl.
Qed.

Lemma handle_moves_grows color p (record : GameRecord float) unparsed errors :
  grows record unparsed (handle_moves color p record unparsed errors).
Proof.
  unfold handle_moves.
  pose proof (add_moves_extends color (values p) (moves record)) as H.
  destruct (add_moves _ _ _) as [[bad|] mvs]; simpl in H;
    unfold grows; simpl; repeat split; try apply extends_refl; try exact H;
    destruct unparsed; try exact I; apply extends_refl.
Qed.

Lemma handle_unknown_grows i p (record : GameRecord float) unparsed errors :
  grows record unparsed (handle_unknown i p record unparsed errors).
Proof.
  unfold handle_unknown. destruct unparsed; unfold grows; simpl;
    repeat split; try apply extends_refl; try apply extends_app; exact I.
Qed.

Lemma HandleProperty_grows p (record : GameRecord float) unparsed errors :
  grows record unparsed
        (HandleProperty SimpleAtoi SimpleAtof float_neg float_1_2 float_minus_1_2
                        p record unparsed errors).
Proof.
  unfold HandleProperty, fail. cbv zeta.
  split_cases;
    first [apply handle_stones_grows | apply handle_moves_grows
          | apply handle_unknown_grows
          | unfold grows; simpl; repeat split; try apply extends_refl;
            destruct unparsed; try exact I; apply extends_refl].
Qed.

Lemma Later_HandleProperty_grows p (record : GameRecord float) unparsed errors :
  grows record unparsed
        (Later.HandleProperty SimpleAtoi SimpleAtof float_neg float_1_2
                              float_minus_1_2 float_6_5 p record unparsed errors).
Proof.
  unfold Later.HandleProperty, fail. cbv zeta.
  split_cases;
    first [apply handle_stones_grows | apply handle_moves_grows
          | apply handle_unknown_grows
          | unfold grows; simpl; repeat split; try apply extends_refl;
            destruct unparsed; try exact I; apply extends_refl].
Qed.

(** X12.  Either copy of HandleProperty, whether it succeeds or fails, only
    appends to the black stones, the white stones, the moves and the unparsed
    properties: what was there stays in front, and a null list of unparsed
    properties stays null. *)
Theorem HandleProperty_only_appends p (record : GameRecord float) unparsed errors :
  grows record unparsed
        (HandleProperty SimpleAtoi SimpleAtof float_neg float_1_2 float_minus_1_2
                        p record unparsed errors) /\
  grows record unparsed
        (Later.HandleProperty SimpleAtoi SimpleAtof float_neg float_1_2
                              float_minus_1_2 float_6_5 p record unparsed errors).
Proof.
  split; [apply HandleProperty_grows | apply Later_HandleProperty_grows].
Qed.

(** X13.  Either copy of HandleProperty gives the same result for a property
    and for the property with its identifier in upper case. *)
Theorem HandleProperty_ignores_case_of_id
        i vals (record : GameRecord float) unparsed errors :
  HandleProperty SimpleAtoi SimpleAtof float_neg float_1_2 float_minus_1_2
                 (mkProperty i vals) record unparsed errors
  = HandleProperty SimpleAtoi SimpleAtof float_neg float_1_2 float_minus_1_2
                   (mkProperty (AsciiStrToUpper i) vals) record unparsed errors
  /\
  Later.HandleProperty SimpleAtoi SimpleAtof float_neg float_1_2 float_minus_1_2
                       float_6_5 (mkProperty i vals) record unparsed errors
  = Later.HandleProperty SimpleAtoi SimpleAtof float_neg float_1_2
                         float_minus_1_2 float_6_5
                         (mkProperty (AsciiStrToUpper i) vals)
                         record unparsed errors.
Proof.
  unfold HandleProperty, Later.HandleProperty, handle_stones, handle_moves,
    handle_unknown. cbn [id values].
  rewrite AsciiStrToUpper_idempotent. split; reflexivity.
Qed.

Lemma id_is (i s : string_view) :
  i = s -> sv_eqb i s = true.
Proof. intros ->. apply sv_eqb_eq. reflexivity. Qed.

(** X14.  For the identifier AB or AW in any case, with every value made of
    two letters, HandleProperty of parser.cc succeeds, appends to the black or
    white stones the point of each value in order (letter a or A is 0),
    changes nothing else, and every coordinate appended lies between 0 and
    25. *)
Theorem stones_are_decoded
        (black : bool) p (record : GameRecord float) unparsed errors :
  AsciiStrToUpper (id p) = sv (if black then "AB" else "AW") ->
  Forall two_letters (values p) ->
  HandleProperty SimpleAtoi SimpleAtof float_neg float_1_2 float_minus_1_2
                 p record unparsed errors
  = (true,
     (if black then set_black_stones record
                      (black_stones record ++ map point (values p))
      else set_white_stones record
             (white_stones record ++ map point (values p))),
     unparsed, errors)
  /\
  Forall (fun xy => (0 <= fst xy <= 25)%Z /\ (0 <= snd xy <= 25)%Z)
         (map point (values p)).
Proof.
  intros Hid Hv. split.
  - unfold HandleProperty. cbv zeta. rewrite Hid.
    destruct black; cbn [sv_eqb sv list_ascii_of_string Ascii.eqb Bool.eqb
                           andb orb];
      unfold handle_stones; rewrite add_stones_letters by exact Hv;
      reflexivity.
  - apply Forall_map. eapply Forall_impl; [|exact Hv].
    intros v [c0 [c1 [-> [H0 H1]]]]. simpl.
    split; apply letter_index_range; assumption.
Qed.

(** X15.  For the identifier B or W in any case, with every value empty or
    made of two letters, HandleProperty of parser.cc succeeds and appends one
    move of that colour per value in order: a pass at (-1, -1) for an empty
    value, the point of the two letters otherwise. *)
Theorem moves_are_decoded
        (black : bool) p (record : GameRecord float) unparsed errors :
  AsciiStrToUpper (id p) = sv (if black then "B" else "W") ->
  Forall (fun v => v = [] \/ two_letters v) (values p) ->
  HandleProperty SimpleAtoi SimpleAtof float_neg float_1_2 float_minus_1_2
                 p record unparsed errors
  = (true,
     set_moves record
       (moves record ++ map (move_of (if black then BLACK else WHITE)) (values p)),
     unparsed, errors).
Proof.
  intros Hid Hv.
  unfold HandleProperty. cbv zeta. rewrite Hid.
  destruct black; cbn [sv_eqb sv list_ascii_of_string Ascii.eqb Bool.eqb
                         andb orb];
    unfold handle_moves; rewrite add_moves_values by exact Hv;
    reflexivity.
Qed.

(** X16.  For each of the identifiers SZ, HA, TM, KM, RU, PB, BT, PW, WT, BR,
    WR, DT and RE, in any case, a property with no value or with more than one
    makes either copy of HandleProperty fail with one diagnostic, the record
    and the unparsed properties left as they were. *)
Theorem single_valued_ids_need_one_value
        p (record : GameRecord float) unparsed errors :
  In (AsciiStrToUpper (id p)) single_valued ->
  List.length (values p) <> 1 ->
  (exists msg,
      HandleProperty SimpleAtoi SimpleAtof float_neg float_1_2 float_minus_1_2
                     p record unparsed errors
      = (false, record, unparsed, LOG_ERROR msg errors)) /\
  (exists msg,
      Later.HandleProperty SimpleAtoi SimpleAtof float_neg float_1_2
                           float_minus_1_2 float_6_5 p record unparsed errors
      = (false, record, unparsed, LOG_ERROR msg errors)).
Proof.
  intros Hin Hlen.
  assert (Hone : one_value (values p) = None).
  { destruct (values p) as [|v [|v2 rest]]; simpl in *; congruence. }
  unfold HandleProperty, Later.HandleProperty, fail. cbv zeta.
  rewrite Hone.
  unfold single_valued in Hin. simpl in Hin.
  repeat (destruct Hin as [Hin|Hin];
          [rewrite <- Hin;
           cbn [sv_eqb sv list_ascii_of_string Ascii.eqb Bool.eqb andb orb];
           split; eexists; reflexivity|]).
  contradiction.
Qed.

End DispatchFacts.

Lemma two_letters_intro (c0 c1 : ascii) :
  is_letter c0 = true -> is_letter c1 = true -> two_letters [c0; c1].
Proof. intros H0 H1. exists c0, c1. repeat split; assumption. Qed.

Lemma stones_are_decoded_witness :
  Decimal.HandleProperty (prop "ab" ["bd"; "Sa"]%string) Decimal.GameRecord_new None None
  = (true,
     set_black_stones Decimal.GameRecord_new [(1, 3); (18, 0)]%Z, None, None)
  /\
  Forall (fun xy => (0 <= fst xy <= 25)%Z /\ (0 <= snd xy <= 25)%Z)
         [(1, 3); (18, 0)]%Z.
Proof.
  apply (@stones_are_decoded Decimal.t Decimal.SimpleAtoi Decimal.SimpleAtof
           Decimal.neg (Decimal.mk 12 1) (Decimal.mk (-12) 1)
           true (prop "ab" ["bd"; "Sa"]%string) Decimal.GameRecord_new None None).
  - reflexivity.
  - repeat constructor; apply two_letters_intro; reflexivity.
Defined.

Lemma moves_are_decoded_witness :
  Decimal.HandleProperty (prop "w" ["qD"%string; EmptyString]) Decimal.GameRecord_new None None
  = (true,
     set_moves Decimal.GameRecord_new
       [mkGoMove WHITE false (16, 3)%Z; mkGoMove WHITE true (-1, -1)%Z],
     None, None).
Proof.
  apply (@moves_are_decoded Decimal.t Decimal.SimpleAtoi Decimal.SimpleAtof
           Decimal.neg (Decimal.mk 12 1) (Decimal.mk (-12) 1)
           false (prop "w" ["qD"%string; EmptyString]) Decimal.GameRecord_new None None).
  - reflexivity.
  - constructor; [right; apply two_letters_intro; reflexivity|].
    constructor; [left; reflexivity|constructor].
Defined.

Lemma single_valued_ids_need_one_value_witness :
  (exists msg,
      Decimal.HandleProperty (prop "km" ["6.5"; "7.5"]%string) Decimal.GameRecord_new
                             None (Some EmptyString)
      = (false, Decimal.GameRecord_new, None, LOG_ERROR msg (Some EmptyString)))
  /\
  (exists msg,
      Decimal.HandleProperty_later (prop "km" ["6.5"; "7.5"]%string)
                                   Decimal.GameRecord_new None (Some EmptyString)
      = (false, Decimal.GameRecord_new, None, LOG_ERROR msg (Some EmptyString))).
Proof.
  apply (@single_valued_ids_need_one_value Decimal.t Decimal.SimpleAtoi
           Decimal.SimpleAtof Decimal.neg (Decimal.mk 12 1) (Decimal.mk (-12) 1)
           (Decimal.mk 65 1)
           (prop "km" ["6.5"; "7.5"]%string) Decimal.GameRecord_new None (Some EmptyString)).
  - unfold single_valued. simpl. tauto.
  - simpl. discriminate.
Defined.

(** ** The two tree builders *)

Lemma go_up_same l h errs p :
  same_step (Done (Tree.go_up l h errs p)) (Done (LaterParser.go_up l h errs p)).
Proof.
  unfold Tree.go_up, LaterParser.go_up.
  destruct (parent_of h (Tree.current_tree l)); simpl; reflexivity.
Qed.

Lemma go_down_same l h errs p :
  same_step (Done (Tree.go_down l h errs p))
            (Done (LaterParser.go_down l h errs p)).
Proof.
  unfold Tree.go_down, LaterParser.go_down.
  destruct (NewChild h (Tree.current_tree l)); simpl; reflexivity.
Qed.

Lemma body_same sgf l :
  same_step (Tree.body sgf l) (LaterParser.body sgf l).
Proof.
  unfold Tree.body, LaterParser.body.
  destruct (Tree.state l).
  - destruct (FindFirst sgf (Tree.cursor l) (sv "(") false);
      [apply go_down_same | simpl; reflexivity].
  - destruct (FindFirst sgf (Tree.cursor l) (sv ";") false); simpl; reflexivity.
  - cbv zeta.
    destruct (ConsumeNode sgf (Tree.cursor l) [] (Tree.errors l))
      as [[[r node] errs]|]; [|exact I].
    destruct r as [p|]; [|simpl; reflexivity].
    destruct (char_is sgf p ";"); [simpl; reflexivity|].
    destruct (char_is sgf p ")"); [apply go_up_same|].
    destruct (char_is sgf p "("); [apply go_down_same|].
    simpl; reflexivity.
  - destruct (FindFirst sgf (Tree.cursor l) (sv "()") false) as [p|];
      [|simpl; reflexivity].
    destruct (char_is sgf p "("); [apply go_down_same|].
    destruct (char_is sgf p ")"); [apply go_up_same|].
    simpl; reflexivity.
  - simpl; reflexivity.
Qed.

Lemma finish_same l :
  nth_error (Tree.heap l) Tree.root <> None ->
  same_exit (Tree.finish l) (LaterParser.finish Tree.root l).
Proof.
  intros Hroot. unfold Tree.finish, LaterParser.finish.
  remember (nth_error (Tree.heap l) Tree.root) as o eqn:Ho.
  destruct (negb (Tree.current_tree l =? Tree.root)); simpl; [reflexivity|].
  destruct o as [g|]; [|congruence]. repeat split.
  change (option_map children (nth_error (Tree.heap l) Tree.root)
          = Some (children g)).
  rewrite <- Ho. reflexivity.
Qed.

Lemma Tree_inv_root l :
  Tree_inv l -> nth_error (Tree.heap l) Tree.root <> None.
Proof.
  intros [_ [Hlen _]]. apply nth_error_Some. unfold Tree.root. lia.
Qed.

Lemma loop_same sgf fuel : forall l,
  Tree_inv l ->
  same_outcome (Tree.loop fuel sgf l) (LaterParser.loop fuel sgf Tree.root l).
Proof.
  induction fuel as [|fuel IH]; intros l Hinv; simpl; [exact I|].
  pose proof (body_same sgf l) as Hb.
  pose proof (@Tree_body_inv sgf l) as Hstep.
  destruct (Tree.body sgf l) as [[l1|r]|];
    destruct (LaterParser.body sgf l) as [[l2|[[ok h] e]]|];
    simpl in Hb; try contradiction; try exact I;
    try (destruct r; contradiction).
  - subst l2. specialize (Hstep l1 Hinv eq_refl).
    destruct (Tree.is_END (Tree.state l1)).
    + simpl. apply finish_same. apply Tree_inv_root. exact Hstep.
    + apply IH. exact Hstep.
  - destruct r as [|e0]; [contradiction|]. destruct ok; [contradiction|].
    simpl. exact Hb.
Qed.


Lemma ParseToRoot_same sgf errors :
  same_outcome (ParseToCollection sgf errors)
               (LaterParser.ParseToRoot sgf [mkGameTree None [] []] Tree.root
                                        errors).
Proof.
  exact (@loop_same sgf (S (List.length sgf)) (Tree.init errors)
                    (init_inv errors)).
Qed.

(** X18.  On every input ParseToRoot, started on a fresh root, and
    ParseToCollection both return, with the same verdict and the same
    diagnostics; when they succeed they have built the same trees, and the
    collection is the list of children of the root. *)
Theorem ParseToRoot_builds_what_ParseToCollection_builds sgf errors :
  match ParseToCollection sgf errors,
        LaterParser.ParseToRoot sgf [mkGameTree None [] []] Tree.root errors with
  | Done (Tree.Parsed tc h e), Done (true, h', e') =>
      h' = h /\ e' = e /\
      option_map children (nth_error h Tree.root) = Some tc
  | Done (Tree.Failed e), Done (false, _, e') => e' = e
  | _, _ => False
  end.
Proof.
  pose proof (ParseToRoot_same sgf errors) as H.
  pose proof (ParseToCollection_total sgf errors) as [r Hr].
  rewrite Hr in *.
  destruct (LaterParser.ParseToRoot _ _ _ _) as [[[ok h] e]|]; simpl in H;
    [|contradiction].
  destruct r; destruct ok; simpl in H; try contradiction; exact H.
Qed.

(** ** The furthest leaf *)

Lemma to_int_small z :
  (0 <= z < 2147483648)%Z -> LaterParser.to_int z = z.
Proof.
  intros H. unfold LaterParser.to_int.
  rewrite Z.mod_small by lia. lia.
Qed.

Lemma node_count_skipn_S h root t :
  nth_error h root = Some t ->
  node_count (skipn root h)
  = List.length (sequence t) + node_count (skipn (S root) h).
Proof.
  revert root. induction h as [|x h IH]; intros [|root] H; simpl in H;
    try discriminate.
  - injection H as ->. reflexivity.
  - simpl. apply IH. exact H.
Qed.

Lemma node_count_skipn_le h a b :
  a <= b -> node_count (skipn b h) <= node_count (skipn a h).
Proof.
  revert a b. induction h as [|x h IH]; intros a b Hab.
  - rewrite !skipn_nil. lia.
  - destruct a as [|a], b as [|b]; try lia.
    + specialize (IH 0 b ltac:(lia)). simpl in *.
      unfold node_count in *. simpl. lia.
    + simpl. apply IH. lia.
Qed.

Lemma node_count_skipn_all h root :
  node_count (skipn root h) <= node_count h.
Proof. apply (@node_count_skipn_le h 0 root). lia. Qed.

Lemma linked_children_later h : linked h -> children_later h.
Proof.
  intros [_ [_ [H3 _]]] up tu c Hn Hin.
  destruct (H3 up tu c Hn Hin) as [Hlt [t [Ht _]]].
  split; [exact Hlt|]. apply nth_error_Some. congruence.
Qed.

Lemma below_bound h :
  children_later h ->
  forall root leaf d,
    below h root leaf d ->
    (0 <= d <= Z.of_nat (node_count (skipn root h)))%Z.
Proof.
  intros Hl root leaf d B.
  induction B as [root t Hn Hc|root t c leaf d Hn Hin B IH].
  - rewrite (node_count_skipn_S _ _ Hn). lia.
  - rewrite (node_count_skipn_S _ _ Hn).
    destruct (Hl _ _ _ Hn Hin) as [Hlt _].
    pose proof (@node_count_skipn_le h (S root) c ltac:(lia)). lia.
Qed.

Section Furthest.

Variable h : Heap.
Hypothesis Hlater : children_later h.
Hypothesis Hsmall : (Z.of_nat (node_count h) < 2147483648)%Z.

Lemma furthest_among_spec (rec : TreePtr -> Run (option TreePtr * Z)) kids :
  (forall c, In c kids -> furthest h (rec c) c) ->
  forall fl ld,
  exists fl' ld',
    LaterParser.furthest_among rec kids fl ld = Ran (fl', ld') /\
    (ld <= ld')%Z /\
    (forall c leaf' d', In c kids -> below h c leaf' d' -> (d' <= ld')%Z) /\
    ((fl' = fl /\ ld' = ld) \/
     exists c leaf, In c kids /\ fl' = Some leaf /\ below h c leaf ld').
Proof.
  induction kids as [|c kids IH]; intros Hrec fl ld.
  - exists fl, ld. simpl. split; [reflexivity|]. split; [lia|].
    split; [intros c leaf' d' []|left; split; reflexivity].
  - destruct (Hrec c (or_introl eq_refl)) as [leaf [d [Hr [Hb Hmax]]]].
    assert (Hrest : forall c', In c' kids -> furthest h (rec c') c').
    { intros c' Hin. apply Hrec. right. exact Hin. }
    simpl. rewrite Hr.
    destruct (ld <? d)%Z eqn:Hcmp.
    + apply Z.ltb_lt in Hcmp.
      destruct (IH Hrest (Some leaf) d) as [fl' [ld' [Hf [Hle [Hm Hor]]]]].
      exists fl', ld'. split; [exact Hf|]. split; [lia|]. split.
      * intros c' leaf' d' [<-|Hin] Hb'.
        -- specialize (Hmax _ _ Hb'). lia.
        -- eapply Hm; eauto.
      * right. destruct Hor as [[-> ->]|[c' [leaf' [Hin [-> Hb']]]]].
        -- exists c, leaf.
           split; [left; reflexivity|split; [reflexivity|exact Hb]].
        -- exists c', leaf'.
           split; [right; exact Hin|split; [reflexivity|exact Hb']].
    + apply Z.ltb_ge in Hcmp.
      destruct (IH Hrest fl ld) as [fl' [ld' [Hf [Hle [Hm Hor]]]]].
      exists fl', ld'. split; [exact Hf|]. split; [lia|]. split.
      * intros c' leaf' d' [<-|Hin] Hb'.
        -- specialize (Hmax _ _ Hb'). lia.
        -- eapply Hm; eauto.
      * destruct Hor as [[-> ->]|[c' [leaf' [Hin [-> Hb']]]]].
        -- left. split; reflexivity.
        -- right. exists c', leaf'.
           split; [right; exact Hin|split; [reflexivity|exact Hb']].
Qed.

Lemma GetFurthestLeaf_spec fuel : forall root,
  root < List.length h -> List.length h - root <= fuel ->
  furthest h (LaterParser.GetFurthestLeaf fuel h root) root.
Proof.
  induction fuel as [|fuel IH]; intros root Hroot Hfuel; [lia|].
  simpl.
  destruct (nth_error h root) as [t|] eqn:Hn.
  2:{ apply nth_error_None in Hn. lia. }
  pose proof (node_count_skipn_all h root) as Hall.
  destruct (children t) as [|c0 kids0] eqn:Hkids.
  - exists root, (Z.of_nat (List.length (sequence t))).
    assert (Hb : below h root root (Z.of_nat (List.length (sequence t)))).
    { apply below_leaf; assumption. }
    pose proof (below_bound Hlater Hb) as Hbd.
    rewrite to_int_small by lia.
    split; [reflexivity|]. split; [exact Hb|].
    intros leaf' d' Hb'. inversion Hb' as [r t' Hn' Hc'|r t' c leaf d Hn' Hin' Hb''];
      subst.
    + rewrite Hn in Hn'. injection Hn' as <-. lia.
    + rewrite Hn in Hn'. injection Hn' as <-. rewrite Hkids in Hin'.
      destruct Hin'.
  - change (furthest h
              match LaterParser.furthest_among
                      (LaterParser.GetFurthestLeaf fuel h) (c0 :: kids0)
                      None (-1)%Z with
              | Ran (fl, ld) =>
                  Ran (fl, LaterParser.to_int
                             (ld + Z.of_nat (List.length (sequence t))))
              | NoFuel => NoFuel
              | Undefined => Undefined
              end root).
    rewrite <- Hkids.
    assert (Hrec : forall c, In c (children t) ->
                             furthest h (LaterParser.GetFurthestLeaf fuel h c) c).
    { intros c Hin. destruct (Hlater _ _ Hn Hin) as [Hlt Hlen].
      apply IH; lia. }
    destruct (@furthest_among_spec _ (children t) Hrec None (-1)%Z)
      as [fl' [ld' [Hf [Hle [Hm Hor]]]]].
    rewrite Hf.
    destruct Hor as [[-> ->]|[c [leaf [Hin [-> Hb]]]]].
    + exfalso.
      assert (Hin : In c0 (children t)) by (rewrite Hkids; left; reflexivity).
      destruct (Hrec c0 Hin) as [leaf [d [_ [Hb _]]]].
      pose proof (below_bound Hlater Hb) as Hbd.
      specialize (Hm _ _ _ Hin Hb). lia.
    + assert (Hb' : below h root leaf
                          (ld' + Z.of_nat (List.length (sequence t)))).
      { eapply below_child; eauto. }
      pose proof (below_bound Hlater Hb') as Hbd.
      exists leaf, (ld' + Z.of_nat (List.length (sequence t)))%Z.
      rewrite to_int_small by lia.
      split; [reflexivity|]. split; [exact Hb'|].
      intros leaf' d' Hb2.
      inversion Hb2 as [r t' Hn' Hc'|r t' c' leaf2 d2 Hn' Hin' Hb''];
        subst.
      * rewrite Hn in Hn'. injection Hn' as <-. rewrite Hkids in Hc'.
        discriminate.
      * rewrite Hn in Hn'. injection Hn' as <-.
        specialize (Hm _ _ _ Hin' Hb''). lia.
Qed.

End Furthest.

(** X19.  In an arena whose parent pointers and child lists agree and that
    holds fewer than 2^31 nodes, GetFurthestLeaf returns, for any tree of the
    arena, a leaf below that tree together with the number of nodes on the way
    to it, and no leaf below the tree has more nodes on its way. *)
Theorem GetFurthestLeaf_finds_a_longest_line (h : Heap) (root : TreePtr) :
  linked h ->
  (Z.of_nat (node_count h) < 2147483648)%Z ->
  root < List.length h ->
  exists leaf d,
    LaterParser.GetFurthestLeaf (List.length h) h root = Ran (Some leaf, d) /\
    below h root leaf d /\
    forall leaf' d', below h root leaf' d' -> (d' <= d)%Z.
Proof.
  intros Hl Hs Hr.
  apply (@GetFurthestLeaf_spec h (linked_children_later Hl) Hs (List.length h)
                               root Hr).
  lia.
Qed.

(** ** The later extractor returns *)

Lemma node_count_app h1 h2 :
  node_count (h1 ++ h2) = node_count h1 + node_count h2.
Proof.
  unfold node_count. rewrite map_app, list_sum_app. reflexivity.
Qed.

Lemma node_count_update h ptr f n :
  (forall t, List.length (sequence (f t)) <= List.length (sequence t) + n) ->
  node_count (update h ptr f) <= node_count h + n.
Proof.
  intros Hf. revert ptr.
  induction h as [|t h IH]; intros ptr; simpl; [unfold node_count; simpl; lia|].
  destruct ptr as [|ptr].
  - unfold node_count. simpl. specialize (Hf t). lia.
  - specialize (IH ptr). unfold node_count in *. simpl. lia.
Qed.

Lemma node_count_NewChild h cur :
  node_count (fst (NewChild h cur)) <= node_count h.
Proof.
  unfold NewChild. cbn [fst]. rewrite node_count_app.
  pose proof (@node_count_update h cur
                (fun t => mkGameTree (parent t) (sequence t)
                                     (children t ++ [List.length h])) 0) as H.
  unfold node_count at 2. simpl.
  assert (node_count (update h cur
            (fun t => mkGameTree (parent t) (sequence t)
                                 (children t ++ [List.length h])))
          <= node_count h + 0) by (apply H; intros t; simpl; lia).
  lia.
Qed.

Lemma node_count_store_back h cur node :
  node_count (store_back (NewNode h cur) cur node) <= node_count h + 1.
Proof.
  unfold store_back, NewNode. revert cur.
  induction h as [|t h IH]; intros cur; simpl; [unfold node_count; simpl; lia|].
  destruct cur as [|cur]; simpl.
  - unfold node_count. simpl. rewrite removelast_last, length_app. simpl. lia.
  - specialize (IH cur). unfold node_count in *. simpl. lia.
Qed.

Lemma go_down_nodes l h e p l' :
  Tree.go_down l h e p = Next l' -> node_count (Tree.heap l') <= node_count h.
Proof.
  unfold Tree.go_down.
  pose proof (node_count_NewChild h (Tree.current_tree l)) as H.
  destruct (NewChild h (Tree.current_tree l)) as [h' child].
  intros G. injection G as <-. exact H.
Qed.

Lemma go_up_nodes l h e p l' :
  Tree.go_up l h e p = Next l' -> Tree.heap l' = h.
Proof.
  unfold Tree.go_up.
  destruct (parent_of h (Tree.current_tree l)); [|discriminate].
  intros G. injection G as <-. reflexivity.
Qed.

Lemma Tree_body_nodes sgf l l' :
  Tree.body sgf l = Done (Next l') ->
  node_count (Tree.heap l') <= node_count (Tree.heap l) + 1.
Proof.
  intros B. unfold Tree.body in B.
  destruct (Tree.state l).
  - destruct (FindFirst _ _ _ _) as [p|]; [|discriminate].
    apply Done_inj in B. apply go_down_nodes in B. lia.
  - destruct (FindFirst _ _ _ _) as [p|]; [|discriminate].
    injection B as <-. simpl. lia.
  - destruct (ConsumeNode _ _ _ _) as [[[r nd] e']|]; [|discriminate].
    destruct r as [p|]; [|discriminate].
    pose proof (node_count_store_back (Tree.heap l) (Tree.current_tree l) nd)
      as Hs.
    destruct (char_is sgf p ";"); [injection B as <-; exact Hs|].
    destruct (char_is sgf p ")").
    { apply Done_inj in B. apply go_up_nodes in B. rewrite B. exact Hs. }
    destruct (char_is sgf p "(").
    { apply Done_inj in B. apply go_down_nodes in B. lia. }
    injection B as <-; exact Hs.
  - destruct (FindFirst _ _ _ _) as [p|].
    + destruct (char_is sgf p "(").
      { apply Done_inj in B. apply go_down_nodes in B. lia. }
      destruct (char_is sgf p ")").
      { apply Done_inj in B. apply go_up_nodes in B. rewrite B. lia. }
      injection B as <-. simpl. lia.
    + injection B as <-. simpl. lia.
  - injection B as <-. lia.
Qed.

(** Every node costs a transition, and every transition a character. *)
Lemma Reach_nodes sgf errors k l :
  Reach sgf errors k l -> node_count (Tree.heap l) <= k.
Proof.
  induction 1 as [|k l l' R IH Hlive B].
  - unfold node_count. simpl. lia.
  - apply Tree_body_nodes in B. lia.
Qed.

Lemma Parsed_nodes sgf errors tc trees errors' :
  ParseToCollection sgf errors = Done (Tree.Parsed tc trees errors') ->
  node_count trees <= List.length sgf.
Proof.
  intros H. destruct (@Parsed_reached sgf errors _ _ _ H)
    as [k [l [t [R [HE [Hcur [Hh [Ht ->]]]]]]]].
  pose proof (Reach_nodes R) as Hn. pose proof (Reach_count R) as Hk.
  rewrite Hh in Hn. lia.
Qed.

Lemma below_in_arena h root leaf d :
  below h root leaf d -> leaf < List.length h.
Proof.
  induction 1 as [root t Hn _|]; [|assumption].
  apply nth_error_Some. congruence.
Qed.

Lemma path_to_root_total h :
  linked h ->
  forall fuel n path,
    n < List.length h -> n < fuel ->
    Forall (fun c => c < List.length h) path ->
    exists path',
      LaterParser.path_to_root fuel h Tree.root (Some n) path = Ran path' /\
      Forall (fun c => c < List.length h) path'.
Proof.
  intros [_ [H2 _]].
  induction fuel as [|fuel IH]; intros n path Hn Hf Hp; [lia|].
  simpl. destruct (n =? Tree.root) eqn:E; [eauto|].
  apply Nat.eqb_neq in E.
  destruct (nth_error h n) as [t|] eqn:Ht.
  2:{ apply nth_error_None in Ht. lia. }
  destruct (H2 _ _ Ht E) as [up [tu [Hpar [Hlt [Hu _]]]]].
  rewrite Hpar. apply IH; [|lia|constructor; assumption].
  apply nth_error_Some. congruence.
Qed.

Section LaterWalk.

Variable float : Type.
Variable handle :
  Property -> GameRecord float -> Unparsed -> option string -> Handled float.

Lemma handle_path_total h path :
  Forall (fun c => c < List.length h) path ->
  forall record unparsed errors,
  exists res,
    LaterParser.handle_path handle h path record unparsed errors = Ran res.
Proof.
  induction 1 as [|c path Hc Hp IH]; intros record unparsed errors; simpl;
    [eauto|].
  destruct (nth_error h c) as [t|] eqn:Ht.
  2:{ apply nth_error_None in Ht. lia. }
  destruct (handle_sequence handle (sequence t) record unparsed errors)
    as [[[[] r] u] e]; eauto.
Qed.

(** X20.  On an input shorter than 2^31 characters the later copy of
    SimpleParseSgf returns, whatever the property handler does: the leaf it
    takes from GetFurthestLeaf is not null, the walk up the parent pointers
    reaches the root, and no tree it reads lies outside the arena. *)
Theorem later_SimpleParseSgf_runs_to_a_result sgf record unparsed errors :
  (Z.of_nat (List.length sgf) < 2147483648)%Z ->
  exists res,
    LaterParser.SimpleParseSgf handle sgf record unparsed errors = Ran res.
Proof.
  intros Hshort. unfold LaterParser.SimpleParseSgf. cbv zeta.
  pose proof (ParseToRoot_same sgf errors) as Hsame.
  destruct (ParseToCollection_total sgf errors) as [r P].
  rewrite P in Hsame.
  destruct (LaterParser.ParseToRoot _ _ _ _) as [[[ok h] e]|];
    [|contradiction].
  destruct ok; [|eauto].
  destruct r as [tc trees errs|errs]; cbn [same_outcome same_exit] in Hsame;
    [|contradiction].
  destruct Hsame as [-> [-> Htc]].
  destruct (parsed_linked_helper sgf errors P) as [Hl _].
  pose proof (Parsed_nodes sgf errors P) as Hn.
  destruct (nth_error trees Tree.root) as [t|] eqn:Ht; [|discriminate Htc].
  destruct (children t) as [|c0 kids] eqn:Hk; [eauto|].
  assert (Hroot : Tree.root < List.length trees).
  { apply nth_error_Some. congruence. }
  destruct (@GetFurthestLeaf_spec trees (linked_children_later Hl)
              ltac:(lia) (List.length trees) Tree.root Hroot ltac:(lia))
    as [leaf [d [Hg [Hb _]]]].
  rewrite Hg. cbv beta iota.
  pose proof (below_in_arena Hb) as Hleaf.
  destruct (@path_to_root_total trees Hl (List.length trees) leaf (@nil TreePtr)
              Hleaf Hleaf (Forall_nil _)) as [path [Hp Hall]].
  match goal with
  | |- context [LaterParser.path_to_root ?a ?b ?c ?d ?e] =>
      replace (LaterParser.path_to_root a b c d e) with (Ran path)
        by (symmetry; exact Hp)
  end.
  apply handle_path_total. exact Hall.
Qed.

End LaterWalk.

(** ** The two extractors on an unbranched record *)

Lemma chain_below h c path leaf :
  chain h c path leaf ->
  forall leaf' d, below h c leaf' d -> leaf' = leaf.
Proof.
  induction 1 as [c t Hn Hc|c t c' path leaf Hn Hc Hch IH]; intros leaf' d B.
  - inversion B as [r t' Hn' Hc'|r t' c2 leaf2 d2 Hn' Hin' B']; subst.
    + reflexivity.
    + rewrite Hn in Hn'. injection Hn' as <-. rewrite Hc in Hin'.
      destruct Hin'.
  - inversion B as [r t' Hn' Hc'|r t' c2 leaf2 d2 Hn' Hin' B']; subst.
    + rewrite Hn in Hn'. injection Hn' as <-. congruence.
    + rewrite Hn in Hn'. injection Hn' as <-. rewrite Hc in Hin'.
      destruct Hin' as [<-|[]]. eapply IH. exact B'.
Qed.

Lemma chain_bound h c path leaf :
  children_later h -> chain h c path leaf ->
  c + List.length path <= List.length h.
Proof.
  intros Hl.
  induction 1 as [c t Hn Hc|c t c' path leaf Hn Hc Hch IH]; simpl.
  - assert (c < List.length h) by (apply nth_error_Some; congruence). lia.
  - destruct (Hl c t c' Hn) as [Hlt _]; [rewrite Hc; left; reflexivity|]. lia.
Qed.

Lemma path_to_root_chain h c path leaf :
  linked h -> chain h c path leaf ->
  forall up fuel acc,
    c <> Tree.root -> parent_of h c = Some up ->
    LaterParser.path_to_root (fuel + List.length path) h Tree.root (Some leaf)
                             acc
    = LaterParser.path_to_root fuel h Tree.root (Some up) (path ++ acc).
Proof.
  intros Hl.
  induction 1 as [c t Hn Hc|c t c' path leaf Hn Hc Hch IH];
    intros up fuel acc Hne Hpar.
  - simpl List.length. rewrite Nat.add_1_r. simpl.
    apply Nat.eqb_neq in Hne. rewrite Hne. rewrite Hn.
    unfold parent_of in Hpar. rewrite Hn in Hpar. rewrite Hpar. reflexivity.
  - simpl List.length. rewrite Nat.add_succ_r, <- Nat.add_succ_l.
    destruct Hl as [Hr [H2 [H3 H4]]].
    destruct (H3 c t c' Hn) as [Hlt [t' [Hn' Hp']]];
      [rewrite Hc; left; reflexivity|].
    rewrite (IH c (S fuel) acc).
    + simpl. apply Nat.eqb_neq in Hne. rewrite Hne. rewrite Hn.
      unfold parent_of in Hpar. rewrite Hn in Hpar. rewrite Hpar. reflexivity.
    + unfold Tree.root. lia.
    + unfold parent_of. rewrite Hn'. exact Hp'.
Qed.

Section Agreement.

Variable float : Type.
Variable handle :
  Property -> GameRecord float -> Unparsed -> option string -> Handled float.

Lemma walk_success h fuel : forall c record unparsed errors r' u' e',
  walk handle fuel h c record unparsed errors = Ran (true, r', u', e') ->
  exists path leaf,
    chain h c path leaf /\
    LaterParser.handle_path handle h path record unparsed errors
    = Ran (true, r', u', e').
Proof.
  induction fuel as [|fuel IH]; intros c record unparsed errors r' u' e' W;
    [discriminate|].
  simpl in W.
  destruct (nth_error h c) as [t|] eqn:Hn; [|discriminate].
  destruct (handle_sequence handle (sequence t) record unparsed errors)
    as [[[ok r1] u1] e1] eqn:Hs.
  destruct ok.
  2:{ apply Ran_Handled_inj in W. destruct W; discriminate. }
  destruct (children t) as [|child rest] eqn:Hc.
  - simpl in W. exists [c], c. split; [eapply chain_leaf; eauto|].
    simpl. rewrite Hn, Hs. exact W.
  - destruct rest as [|c2 rest].
    + simpl in W. destruct (IH _ _ _ _ _ _ _ W) as [path [leaf [Hch Hp]]].
      exists (c :: path), leaf. split; [eapply chain_step; eauto|].
      simpl. rewrite Hn, Hs. exact Hp.
    + simpl in W. apply Ran_Handled_inj in W. destruct W; discriminate.
Qed.

(** X21.  On an input shorter than 2^31 characters, when SimpleParseSgf of
    parser.cc succeeds, the later copy run with the same property handler
    succeeds with the same record, unparsed properties and diagnostics. *)
Theorem later_SimpleParseSgf_agrees_on_success sgf record unparsed errors r' u' e' :
  (Z.of_nat (List.length sgf) < 2147483648)%Z ->
  SimpleParseSgf handle sgf record unparsed errors = Ran (true, r', u', e') ->
  LaterParser.SimpleParseSgf handle sgf record unparsed errors
  = Ran (true, r', u', e').
Proof.
  intros Hshort H. unfold SimpleParseSgf in H.
  unfold LaterParser.SimpleParseSgf. cbv zeta.
  pose proof (ParseToRoot_same sgf errors) as Hsame.
  destruct (ParseToCollection sgf errors) as [[tc trees errs|errs]|] eqn:P;
    try discriminate.
  destruct (LaterParser.ParseToRoot _ _ _ _) as [[[ok h] e]|];
    [|contradiction].
  cbn [same_outcome same_exit] in Hsame.
  destruct ok; [|contradiction].
  destruct Hsame as [-> [-> Htc]].
  destruct tc as [|first [|second rest]].
  - apply Ran_Handled_inj in H. destruct H; discriminate.
  - destruct (parsed_linked_helper sgf errors P) as [Hl _].
    pose proof (Parsed_nodes sgf errors P) as Hn.
    pose proof (linked_children_later Hl) as Hlater.
    destruct (nth_error trees Tree.root) as [t|] eqn:Ht; [|discriminate Htc].
    cbn [option_map] in Htc.
    assert (Hk : children t = [first]) by congruence.
    rewrite Hk.
    assert (Hroot : Tree.root < List.length trees).
    { apply nth_error_Some. congruence. }
    destruct (@GetFurthestLeaf_spec trees Hlater
                ltac:(lia) (List.length trees) Tree.root Hroot ltac:(lia))
      as [leaf [d [Hg [Hb _]]]].
    rewrite Hg. cbv beta iota.
    destruct (walk_success _ _ _ _ _ _ H) as [path [leaf0 [Hch Hp]]].
    assert (Hsame_leaf : leaf = leaf0).
    { inversion Hb as [r t' Hn' Hc'|r t' c2 leaf2 d2 Hn' Hin' B']; subst.
      - rewrite Ht in Hn'. injection Hn' as <-. congruence.
      - rewrite Ht in Hn'. injection Hn' as <-. rewrite Hk in Hin'.
        destruct Hin' as [<-|[]]. eapply chain_below; eauto. }
    subst leaf0.
    destruct (Hlater Tree.root t first Ht) as [Hlt _];
      [rewrite Hk; left; reflexivity|].
    pose proof (chain_bound Hlater Hch) as Hbd.
    assert (Hpar : parent_of trees first = Some Tree.root).
    { destruct Hl as [_ [_ [H3 _]]].
      destruct (H3 Tree.root t first Ht) as [_ [t' [Hn' Hp']]];
        [rewrite Hk; left; reflexivity|].
      unfold parent_of. rewrite Hn'. exact Hp'. }
    assert (Hpath : LaterParser.path_to_root (List.length trees) trees
                      Tree.root (Some leaf) (@nil TreePtr) = Ran path).
    { replace (List.length trees)
        with (S (List.length trees - List.length path - 1) + List.length path)
        by (unfold Tree.root in *; lia).
      rewrite (@path_to_root_chain trees first path leaf Hl Hch Tree.root);
        [|unfold Tree.root in *; lia|exact Hpar].
      simpl. rewrite app_nil_r. reflexivity. }
    match goal with
    | |- context [LaterParser.path_to_root ?a ?b ?c ?d ?e] =>
        replace (LaterParser.path_to_root a b c d e) with (Ran path)
          by (symmetry; exact Hpath)
    end.
    exact Hp.
  - apply Ran_Handled_inj in H. destruct H; discriminate.
Qed.

End Agreement.

(** ** The two dispatchers *)

Ltac accepted_leaf :=
  let H := fresh "H" in
  let Hr := fresh "Hr" in
  let Hb := fresh "Hb" in
  intros H;
  first [ discriminate H
        | injection H as Hr <- <-;
          eexists; split;
          [reflexivity
          |intros Hb; first [exact Hr | simpl in Hb; discriminate Hb]] ].

Section Leniency.

Variable float : Type.
Variable SimpleAtoi : string_view -> option Z.
Variable SimpleAtof : string_view -> bool * float.
Variable float_neg : float -> float.
Variable float_1_2 : float.
Variable float_minus_1_2 : float.
Variable float_6_5 : float.

(** X17.  Whenever HandleProperty of parser.cc succeeds, the later copy
    succeeds on the same arguments with the same unparsed properties and
    diagnostics, and with the same record unless the property is a result
    that starts with B+T, B+F, W+T or W+F. *)
Theorem later_copy_accepts_what_the_earlier_accepts
        p (record : GameRecord float) unparsed errors r' u' e' :
  HandleProperty SimpleAtoi SimpleAtof float_neg float_1_2 float_minus_1_2
                 p record unparsed errors = (true, r', u', e') ->
  exists r'',
    Later.HandleProperty SimpleAtoi SimpleAtof float_neg float_1_2
                         float_minus_1_2 float_6_5 p record unparsed errors
    = (true, r'', u', e') /\
    (by_time_or_forfeit p = false -> r'' = r').
Proof.
  unfold by_time_or_forfeit, HandleProperty, Later.HandleProperty,
    handle_stones, handle_moves, handle_unknown, fail.
  cbv zeta. cbn [existsb map].
  set (i := AsciiStrToUpper (id p)).
  destruct (values p) as [|v [|v2 rest]]; cbn [one_value];
    repeat (match goal with
            | |- context [sv_eqb i (sv ?s)] => destruct (sv_eqb i (sv s))
            end; cbn [orb andb]; cbv iota);
    repeat match goal with
           | |- context [sv_eqb (substr ?re 0 3) (sv ?s)] =>
               destruct (sv_eqb (substr re 0 3) (sv s))
           end;
    cbn [orb andb]; split_cases; accepted_leaf.
Qed.

End Leniency.

(** ** A record used again *)

Lemma grows_refl (float : Type) ok (record : GameRecord float) unparsed e :
  grows record unparsed (ok, record, unparsed, e).
Proof.
  unfold grows. repeat split; try apply extends_refl.
  destruct unparsed; [apply extends_refl|exact I].
Qed.

Lemma grows_trans (float : Type) (r : GameRecord float) u ok1 r1 u1 e1 res :
  grows r u (ok1, r1, u1, e1) -> grows r1 u1 res -> grows r u res.
Proof.
  destruct res as [[[ok2 r2] u2] e2]. unfold grows.
  intros [B1 [W1 [M1 U1]]] [B2 [W2 [M2 U2]]].
  repeat split; try (eapply extends_trans; eassumption).
  destruct u, u1, u2; try contradiction; try exact I.
  eapply extends_trans; eassumption.
Qed.

Section GrowFacts.

Variable float : Type.
Variable handle :
  Property -> GameRecord float -> Unparsed -> option string -> Handled float.
Hypothesis handle_grows : only_appends handle.

Lemma handle_node_grows node : forall record unparsed errors,
  grows record unparsed (handle_node handle node record unparsed errors).
Proof.
  induction node as [|p node IH]; intros record unparsed errors; simpl.
  - apply (@grows_refl _ true _ _ None).
  - pose proof (handle_grows p record unparsed errors) as G.
    destruct (handle p record unparsed errors) as [[[[|] r1] u1] e1];
      [|exact G].
    eapply grows_trans; [exact G|apply IH].
Qed.

Lemma handle_sequence_grows nodes : forall record unparsed errors,
  grows record unparsed (handle_sequence handle nodes record unparsed errors).
Proof.
  induction nodes as [|node nodes IH]; intros record unparsed errors; simpl.
  - apply (@grows_refl _ true _ _ None).
  - pose proof (handle_node_grows node record unparsed errors) as G.
    destruct (handle_node handle node record unparsed errors)
      as [[[[|] r1] u1] e1]; [|exact G].
    eapply grows_trans; [exact G|apply IH].
Qed.

Lemma walk_grows h fuel : forall current record unparsed errors res,
  walk handle fuel h current record unparsed errors = Ran res ->
  grows record unparsed res.
Proof.
  induction fuel as [|fuel IH]; intros current record unparsed errors res W;
    [discriminate|].
  simpl in W. destruct (nth_error h current) as [t|]; [|discriminate].
  pose proof (handle_sequence_grows (sequence t) record unparsed errors) as G.
  destruct (handle_sequence handle (sequence t) record unparsed errors)
    as [[[[|] r1] u1] e1].
  - destruct (1 <? List.length (children t)).
    + injection W as <-. exact G.
    + destruct (children t) as [|child rest].
      * injection W as <-. exact G.
      * eapply grows_trans; [exact G|eapply IH; exact W].
  - injection W as <-. exact G.
Qed.

Lemma SimpleParseSgf_grows sgf record unparsed errors res :
  SimpleParseSgf handle sgf record unparsed errors = Ran res ->
  grows record unparsed res.
Proof.
  unfold SimpleParseSgf.
  destruct (ParseToCollection sgf errors) as [[tc trees errs|errs]|];
    [| |discriminate].
  - destruct tc as [|first [|second rest]].
    + intros H. injection H as <-. apply grows_refl.
    + apply walk_grows.
    + intros H. injection H as <-. apply grows_refl.
  - intros H. injection H as <-. apply grows_refl.
Qed.

Lemma handle_path_grows h path : forall record unparsed errors res,
  LaterParser.handle_path handle h path record unparsed errors = Ran res ->
  grows record unparsed res.
Proof.
  induction path as [|c path IH]; intros record unparsed errors res W;
    simpl in W.
  - injection W as <-. apply grows_refl.
  - destruct (nth_error h c) as [t|]; [|discriminate].
    pose proof (handle_sequence_grows (sequence t) record unparsed errors) as G.
    destruct (handle_sequence handle (sequence t) record unparsed errors)
      as [[[[|] r1] u1] e1].
    + eapply grows_trans; [exact G|eapply IH; exact W].
    + injection W as <-. exact G.
Qed.

Lemma Later_SimpleParseSgf_grows sgf record unparsed errors res :
  LaterParser.SimpleParseSgf handle sgf record unparsed errors = Ran res ->
  grows record unparsed res.
Proof.
  unfold LaterParser.SimpleParseSgf. cbv zeta.
  destruct (LaterParser.ParseToRoot _ _ _ _) as [[[[|] h] e]|];
    [| |discriminate].
  - destruct (nth_error h Tree.root) as [t|]; [|discriminate].
    destruct (children t) as [|c0 kids].
    + intros H. injection H as <-. apply grows_refl.
    + destruct (LaterParser.GetFurthestLeaf _ _ _) as [[leaf d]| |];
        try discriminate.
      destruct (LaterParser.path_to_root _ _ _ _ _) as [path| |];
        try discriminate.
      apply handle_path_grows.
  - intros H. injection H as <-. apply grows_refl.
Qed.

End GrowFacts.

Section ReuseFacts.

Variable float : Type.
Variable SimpleAtoi : string_view -> option Z.
Variable SimpleAtof : string_view -> bool * float.
Variable float_neg : float -> float.
Variable float_0 : float.
Variable float_1_2 : float.
Variable float_minus_1_2 : float.
Variable float_6_5 : float.

(** X22.  A record passed through Reset and then to either copy of
    SimpleParseSgf comes back with the stones and moves it held before Reset
    still in front of whatever the parse appended: Reset does not clear the
    three vectors and the parse only appends to them. *)
Theorem reset_record_keeps_stones_and_moves
        sgf (record : GameRecord float) unparsed errors ok r' u' e' :
  SimpleParseSgf
    (HandleProperty SimpleAtoi SimpleAtof float_neg float_1_2 float_minus_1_2)
    sgf (Reset float_0 record) unparsed errors = Ran (ok, r', u', e')
  \/
  LaterParser.SimpleParseSgf
    (Later.HandleProperty SimpleAtoi SimpleAtof float_neg float_1_2
                          float_minus_1_2 float_6_5)
    sgf (Reset float_0 record) unparsed errors = Ran (ok, r', u', e') ->
  extends (black_stones record) (black_stones r') /\
  extends (white_stones record) (white_stones r') /\
  extends (moves record) (moves r').
Proof.
  intros [H|H].
  - apply SimpleParseSgf_grows in H.
    + destruct H as [B [W [M _]]]. auto.
    + intros p r u e. apply HandleProperty_grows.
  - apply Later_SimpleParseSgf_grows in H.
    + destruct H as [B [W [M _]]]. auto.
    + intros p r u e. apply Later_HandleProperty_grows.
Qed.

End ReuseFacts.

(** ** The checked entry point *)

Lemma FindFirst_None_without sgf start (c0 : ascii) ec :
  forallb (fun c => negb (Ascii.eqb c c0)) sgf = true ->
  FindFirst sgf start [c0] ec = None.
Proof.
  intros Hall.
  destruct (FindFirst sgf start [c0] ec) as [p|] eqn:F; [|reflexivity].
  apply FindFirst_Some in F. destruct F as [_ [c [Hc Ht]]].
  unfold char_at in Hc. apply nth_error_In in Hc.
  rewrite forallb_forall in Hall. specialize (Hall c Hc).
  simpl in Ht. rewrite orb_false_r in Ht.
  simpl in Hall. rewrite Ht in Hall. discriminate.
Qed.

Section CheckFacts.

Variable float : Type.
Variable handle :
  Property -> GameRecord float -> Unparsed -> option string -> Handled float.
Variable is_zero : float -> bool.
Variable contents_of : string -> string_view.

(** X23.  SimpleParseSgfAndCheck hands the file name, not the text it read,
    to SimpleParseSgf: for a file name without an opening parenthesis it
    fails with the diagnostic of a missing tree start and leaves the record
    as it was, whatever the file holds and whatever check was asked for. *)
Theorem SimpleParseSgfAndCheck_parses_the_file_name
        sgf_file_name expected_board_size check_has_result
        (record : GameRecord float) errors :
  forallb (fun c => negb (Ascii.eqb c "(")) (sv sgf_file_name) = true ->
  SimpleParseSgfAndCheck handle is_zero contents_of sgf_file_name
                         expected_board_size check_has_result record errors
  = Ran (false, record, LOG_ERROR "Failed in finding a tree start." errors).
Proof.
  intros Hname.
  unfold SimpleParseSgfAndCheck, LaterParser.SimpleParseSgf,
    LaterParser.ParseToRoot.
  cbv zeta. cbn [LaterParser.loop LaterParser.body Tree.state Tree.cursor].
  change (sv "(") with ["("%char].
  rewrite (FindFirst_None_without _ 0 "(" false Hname).
  reflexivity.
Qed.

End CheckFacts.

(** X24.  When ParseToCollection succeeds, the trees it built hold together
    no more nodes than the input has characters. *)
Theorem parse_builds_no_more_nodes_than_characters
        sgf errors tree_collection trees errors' :
  ParseToCollection sgf errors
  = Done (Tree.Parsed tree_collection trees errors') ->
  node_count trees <= List.length sgf.
Proof. apply Parsed_nodes. Qed.

(** ** Instances *)

Lemma kBranched_parsed :
  ParseToCollection kBranched None = Done (Tree.Parsed [1] kBranchedTrees None).
Proof. vm_compute. reflexivity. Qed.

Lemma parsed_trees_are_filled_witness :
  [1] <> [] /\
  (forall t, nth_error kBranchedTrees Tree.root = Some t -> sequence t = []) /\
  (forall c t, nth_error kBranchedTrees c = Some t -> c <> Tree.root ->
               sequence t <> []) /\
  (forall c t node, nth_error kBranchedTrees c = Some t ->
                    In node (sequence t) -> node <> [] /\ Forall has_value node).
Proof.
  apply (@parsed_trees_are_filled kBranched None [1] kBranchedTrees None).
  vm_compute. reflexivity.
Defined.


Lemma later_copy_accepts_what_the_earlier_accepts_witness :
  exists r'',
    Decimal.HandleProperty_later (prop "KM" ["6.5"%string])
                                 Decimal.GameRecord_new None None
    = (true, r'', None, None) /\
    (by_time_or_forfeit (prop "KM" ["6.5"%string]) = false ->
     r'' = set_komi Decimal.GameRecord_new (Decimal.mk 65 1)).
Proof.
  apply (@later_copy_accepts_what_the_earlier_accepts
           Decimal.t Decimal.SimpleAtoi Decimal.SimpleAtof Decimal.neg
           (Decimal.mk 12 1) (Decimal.mk (-12) 1) (Decimal.mk 65 1)
           (prop "KM" ["6.5"%string]) Decimal.GameRecord_new None None).
  reflexivity.
Defined.

Lemma GetFurthestLeaf_finds_a_longest_line_witness :
  exists leaf d,
    LaterParser.GetFurthestLeaf (List.length kBranchedTrees) kBranchedTrees
                                Tree.root
    = Ran (Some leaf, d) /\
    below kBranchedTrees Tree.root leaf d /\
    forall leaf' d', below kBranchedTrees Tree.root leaf' d' -> (d' <= d)%Z.
Proof.
  apply (@GetFurthestLeaf_finds_a_longest_line kBranchedTrees Tree.root).
  - exact (proj1 (parsed_linked_helper kBranched None kBranched_parsed)).
  - vm_compute. reflexivity.
  - vm_compute. lia.
Defined.

Lemma later_SimpleParseSgf_runs_to_a_result_witness :
  exists res,
    LaterParser.SimpleParseSgf Decimal.HandleProperty_later kBranched
                               Decimal.GameRecord_new None None
    = Ran res.
Proof.
  apply (@later_SimpleParseSgf_runs_to_a_result Decimal.t Decimal.HandleProperty_later
           kBranched Decimal.GameRecord_new None None).
  vm_compute. reflexivity.
Defined.

Lemma later_SimpleParseSgf_agrees_on_success_witness :
  LaterParser.SimpleParseSgf Decimal.HandleProperty (sv "(;SZ[9];B[aa])")
                             Decimal.GameRecord_new None None
  = Ran (true,
         set_moves (set_board_size Decimal.GameRecord_new 9%Z 9%Z)
                   [mkGoMove BLACK false (0, 0)%Z],
         None, None).
Proof.
  apply (@later_SimpleParseSgf_agrees_on_success Decimal.t Decimal.HandleProperty
           (sv "(;SZ[9];B[aa])") Decimal.GameRecord_new None None).
  - vm_compute. reflexivity.
  - vm_compute. reflexivity.
Defined.

Lemma reset_record_keeps_stones_and_moves_witness :
  extends [(3, 3)%Z] [(3, 3)%Z] /\
  extends (@nil GoPos) [] /\
  extends [mkGoMove BLACK false (2, 2)%Z]
          [mkGoMove BLACK false (2, 2)%Z; mkGoMove WHITE false (0, 0)%Z].
Proof.
  apply (@reset_record_keeps_stones_and_moves
           Decimal.t Decimal.SimpleAtoi Decimal.SimpleAtof Decimal.neg
           (Decimal.mk 0 0) (Decimal.mk 12 1) (Decimal.mk (-12) 1)
           (Decimal.mk 65 1) (sv "(;W[aa])")
           (set_moves (set_black_stones Decimal.GameRecord_new [(3, 3)%Z])
                      [mkGoMove BLACK false (2, 2)%Z])
           None None true
           (set_moves (set_black_stones Decimal.GameRecord_new [(3, 3)%Z])
                      [mkGoMove BLACK false (2, 2)%Z;
                       mkGoMove WHITE false (0, 0)%Z])
           None None).
  left. vm_compute. reflexivity.
Defined.

Lemma SimpleParseSgfAndCheck_parses_the_file_name_witness :
  SimpleParseSgfAndCheck Decimal.HandleProperty_later
    (fun d => Z.eqb (Decimal.mantissa d) 0) (fun _ => sv "(;SZ[19]RE[B+2.5])")
    "game.sgf" 19%Z true Decimal.GameRecord_new (Some EmptyString)
  = Ran (false, Decimal.GameRecord_new,
         LOG_ERROR "Failed in finding a tree start." (Some EmptyString)).
Proof.
  apply (@SimpleParseSgfAndCheck_parses_the_file_name
           Decimal.t Decimal.HandleProperty_later
           (fun d => Z.eqb (Decimal.mantissa d) 0)
           (fun _ => sv "(;SZ[19]RE[B+2.5])")
           "game.sgf" 19%Z true Decimal.GameRecord_new (Some EmptyString)).
  vm_compute. reflexivity.
Defined.

Lemma parse_builds_no_more_nodes_than_characters_witness :
  node_count kBranchedTrees <= List.length kBranched.
Proof.
  apply (@parse_builds_no_more_nodes_than_characters
           kBranched None [1] kBranchedTrees None).
  vm_compute. reflexivity.
Defined.
